(** * CameraSlider: the motion subsystem, embedded and verified

    A shallow embedding of [app/motion/easing.py], [app/motion/models.py],
    [app/motion/planner.py], of the worker and the presets of
    [app/controller/manager.py] and of the preset endpoints of
    [app/server/api.py].

    Conventions of the embedding.
    - A Python [float] is kept as the rational number ([Q]) it denotes,
      and equality of computed numbers is [Qeq] ([==]).  [Easing],
      [Planner] and the controller compute with exact rationals: this
      is the idealisation under which the worker is verified, and what
      is proved there about a time or a position holds of the running
      code where rounding cannot change it (comparisons, clamps,
      assignments, counts of pulses).  [Binary64] is the rounding of
      Python's floats, and [Easing64] and [Planner64] are the planner
      as it computes with it; what depends on rounding is stated
      there.
    - An exception is a value of [exn]; a computation that may raise
      returns an [outcome].  [Diverge] stands for a loop that never exits.
    - The controller runs in a state monad over [World] (the controller's
      attributes, the driver's state and a logical clock [tick]); what the
      worker cannot control (calls to [stop()] from other threads, endstop
      readings, the wall clock, driver faults) is an oracle [Env] indexed
      by [tick]. *)

From Stdlib Require Import String.
From Stdlib Require Import QArith Qround Qabs Lqa Lia ZArith Bool List.
Import ListNotations.

Open Scope Q_scope.

(** ** Python numerics *)

Module Py.

Definition leb (x y : Q) : bool := Qle_bool x y.
Definition ltb (x y : Q) : bool := negb (Qle_bool y x).
Definition eqb (x y : Q) : bool := Qeq_bool x y.

(** [max(a, b)] and [min(a, b)]: the first argument wins ties. *)
Definition max (a b : Q) : Q := if ltb a b then b else a.
Definition min (a b : Q) : Q := if ltb b a then b else a.

Definition abs (x : Q) : Q := Qabs x.

(** [round(x)]: to the nearest integer, ties to the even one. *)
Definition round (x : Q) : Z :=
  let f := Qfloor x in
  match Qcompare (x - inject_Z f) (1 # 2) with
  | Lt => f
  | Gt => (f + 1)%Z
  | Eq => if Z.even f then f else (f + 1)%Z
  end.

End Py.

(** ** Exceptions and outcomes *)

Inductive exn : Type :=
| ZeroDivisionError
| IndexError
| TypeError (msg : string)
| ValueError (msg : string)
| ValidationError (msg : string)
| DriverFault (msg : string).

(** [str(e)] *)
Definition str (e : exn) : string :=
  match e with
  | ZeroDivisionError => "float division by zero"
  | IndexError => "list index out of range"
  | TypeError msg => msg
  | ValueError msg => msg
  | ValidationError msg => msg
  | DriverFault msg => msg
  end.

Inductive outcome (A : Type) : Type :=
| Ok (a : A)
| Raise (e : exn)
| Diverge.

Arguments Ok {A} a.
Arguments Raise {A} e.
Arguments Diverge {A}.

Definition obind {A B : Type} (m : outcome A) (k : A -> outcome B) : outcome B :=
  match m with
  | Ok a => k a
  | Raise e => Raise e
  | Diverge => Diverge
  end.

Declare Scope outcome_scope.
Delimit Scope outcome_scope with outcome.
Notation "x <- m ;; k" := (obind m (fun x => k))
  (at level 61, m at next level, right associativity) : outcome_scope.
Notation "' pat <- m ;; k" := (obind m (fun x => match x with pat => k end))
  (at level 61, pat pattern, m at next level, right associativity) : outcome_scope.

(** [l[i]] for [0 <= i], and [l[-1]]. *)
Definition getitem {A : Type} (l : list A) (i : nat) : outcome A :=
  match nth_error l i with
  | Some x => Ok x
  | None => Raise IndexError
  end.

Definition getlast {A : Type} (l : list A) : outcome A :=
  match l with
  | [] => Raise IndexError
  | _ :: _ => getitem l (length l - 1)
  end.

(** [a / b] on floats. *)
Definition truediv (a b : Q) : outcome Q :=
  if Py.eqb b 0 then Raise ZeroDivisionError else Ok (a / b).

(** ** app/motion/easing.py *)

Module Easing.

Definition linear (u : Q) : Q :=
  if Py.leb u 0 then 0
  else if Py.leb 1 u then 1
  else u.

Record CubicBezier : Type := {
  p1x : Q;
  p1y : Q;
  p2x : Q;
  p2y : Q
}.

Section Sample.
Variable self : CubicBezier.

Definition bx (t : Q) : Q :=
  let mt := 1 - t in
  3 * mt * mt * t * p1x self + 3 * mt * t * t * p2x self + t ^ 3.

Definition by_ (t : Q) : Q :=
  let mt := 1 - t in
  3 * mt * mt * t * p1y self + 3 * mt * t * t * p2y self + t ^ 3.

Definition dx (t : Q) : Q :=
  3 * (1 - t) * (1 - t) * p1x self
  + 6 * (1 - t) * t * (p2x self - p1x self)
  + 3 * t * t * (1 - p2x self).

(** The Newton-Raphson loop, [n] iterations left. *)
Fixpoint newton (u : Q) (n : nat) (t : Q) : Q :=
  match n with
  | O => t
  | S n' =>
    let x_t := bx t in
    let d := dx t in
    if Py.ltb (Py.abs d) (1 # 1000000) then t
    else
      let t := t - (x_t - u) / d in
      if Py.ltb t 0 then 0
      else if Py.ltb 1 t then 1
      else newton u n' t
  end.

(** The bisection loop, [n] iterations left. *)
Fixpoint bisect (u : Q) (n : nat) (lo hi t : Q) : Q :=
  match n with
  | O => t
  | S n' =>
    let x_t := bx t in
    let lo := if Py.ltb x_t u then t else lo in
    let hi := if Py.ltb x_t u then hi else t in
    let t := (1 # 2) * (lo + hi) in
    if Py.leb (Py.abs (x_t - u)) (1 # 100000) then t
    else bisect u n' lo hi t
  end.

Definition sample (u : Q) : Q :=
  if Py.leb u 0 then 0
  else if Py.leb 1 u then 1
  else
    let t := newton u 6 u in
    let x_t := bx t in
    let t :=
      if Py.ltb (1 # 10000) (Py.abs (x_t - u))
      then bisect u 12 0 1 u
      else t in
    by_ t.

End Sample.

End Easing.

(** ** app/motion/models.py *)

Module Models.

(** [Literal["linear", "cubic-bezier"]] *)
Inductive EaseType : Type :=
| Linear
| CubicBezier.

Record Ease : Type := {
  type : EaseType;
  p : option (list Q)
}.

(** [Ease()] *)
Definition default_ease : Ease := {| type := Linear; p := None |}.

Record Keyframe : Type := {
  t : Q;
  pos_mm : Q;
  ease : Ease
}.

Record MotionProfile : Type := {
  length_mm : Q;
  keyframes : list Keyframe;
  max_speed_mm_s : Q;
  max_accel_mm_s2 : Q
}.

(** [not self.p]: [None] and the empty list are falsy. *)
Definition falsy (p : option (list Q)) : bool :=
  match p with
  | None => true
  | Some [] => true
  | Some (_ :: _) => false
  end.

Definition len_p (p : option (list Q)) : nat :=
  match p with
  | None => 0
  | Some l => List.length l
  end.

Definition validate_bezier (self : Ease) : outcome Ease :=
  match type self with
  | CubicBezier =>
    if falsy (p self) || negb (Nat.eqb (len_p (p self)) 4)
    then Raise (ValidationError "cubic-bezier requires p=[x1,y1,x2,y2]")
    else Ok self
  | Linear => Ok self
  end.

(** Field constraints of [Keyframe] ([t >= 0]) and its nested [Ease]. *)
Definition validate_keyframe (k : Keyframe) : outcome Keyframe :=
  if Py.ltb (t k) 0
  then Raise (ValidationError "t: Input should be greater than or equal to 0")
  else (_ <- validate_bezier (ease k) ;; Ok k)%outcome.

Fixpoint validate_each (kfs : list Keyframe) : outcome unit :=
  match kfs with
  | [] => Ok tt
  | k :: rest => (_ <- validate_keyframe k ;; validate_each rest)%outcome
  end.

(** [list.sort(key=lambda k: k.t)]: a stable sort. *)
Fixpoint insert_by_t (k : Keyframe) (l : list Keyframe) : list Keyframe :=
  match l with
  | [] => [k]
  | h :: rest => if Py.leb (t k) (t h) then k :: l else h :: insert_by_t k rest
  end.

Definition sort_by_t (l : list Keyframe) : list Keyframe :=
  fold_right insert_by_t [] l.

(** The [for k in self.keyframes] loop of [validate_keyframes]. *)
Fixpoint check_keyframes (length : Q) (last_t : Q) (kfs : list Keyframe)
  : outcome unit :=
  match kfs with
  | [] => Ok tt
  | k :: rest =>
    if Py.leb (t k) last_t
    then Raise (ValidationError "Keyframe times must be strictly increasing")
    else if Py.ltb (pos_mm k) 0 || Py.ltb length (pos_mm k)
    then Raise (ValidationError "Keyframe position outside length")
    else check_keyframes length (t k) rest
  end.

Definition validate_keyframes (self : MotionProfile) : outcome MotionProfile :=
  if (List.length (keyframes self) <? 2)%nat
  then Raise (ValidationError "At least two keyframes required")
  else
    let sorted := sort_by_t (keyframes self) in
    (_ <- check_keyframes (length_mm self) (-1) sorted ;;
     Ok {| length_mm := length_mm self;
           keyframes := sorted;
           max_speed_mm_s := max_speed_mm_s self;
           max_accel_mm_s2 := max_accel_mm_s2 self |})%outcome.

(** [MotionProfile(...)]: the field constraints ([gt=0], the keyframes),
    then the model validator.  The argument carries the field values as
    given. *)
Definition construct (raw : MotionProfile) : outcome MotionProfile :=
  if negb (Py.ltb 0 (length_mm raw))
  then Raise (ValidationError "length_mm: Input should be greater than 0")
  else
    (_ <- validate_each (keyframes raw) ;;
     if negb (Py.ltb 0 (max_speed_mm_s raw))
     then Raise (ValidationError "max_speed_mm_s: Input should be greater than 0")
     else if negb (Py.ltb 0 (max_accel_mm_s2 raw))
     then Raise (ValidationError "max_accel_mm_s2: Input should be greater than 0")
     else validate_keyframes raw)%outcome.

(** *** The JSON form of a profile *)

#[local] Unset Elimination Schemes.
Inductive json : Type :=
| JNull
| JBool (b : bool)
| JNumber (x : Q)
| JString (s : string)
| JArray (items : list json)
| JObject (members : list (string * json)).
#[local] Set Elimination Schemes.

Definition type_name (ty : EaseType) : string :=
  match ty with
  | Linear => "linear"
  | CubicBezier => "cubic-bezier"
  end.

(** [model_dump_json] followed by [json.loads], as [save_preset] stores it. *)
Definition dump_ease (e : Ease) : json :=
  JObject [("type", JString (type_name (type e)));
           ("p", match p e with
                 | None => JNull
                 | Some l => JArray (map JNumber l)
                 end)]%string.

Definition dump_keyframe (k : Keyframe) : json :=
  JObject [("t", JNumber (t k));
           ("pos_mm", JNumber (pos_mm k));
           ("ease", dump_ease (ease k))]%string.

Definition model_dump_json (self : MotionProfile) : json :=
  JObject [("length_mm", JNumber (length_mm self));
           ("keyframes", JArray (map dump_keyframe (keyframes self)));
           ("max_speed_mm_s", JNumber (max_speed_mm_s self));
           ("max_accel_mm_s2", JNumber (max_accel_mm_s2 self))]%string.

(** [d.get(key)] on the members of an object; the last binding wins. *)
Fixpoint dict_get (key : string) (members : list (string * json)) : option json :=
  match members with
  | [] => None
  | (k, v) :: rest =>
    match dict_get key rest with
    | Some v' => Some v'
    | None => if String.eqb k key then Some v else None
    end
  end.

Definition parse_float (field : string) (j : option json) (default : option Q)
  : outcome Q :=
  match j with
  | Some (JNumber x) => Ok x
  | Some _ => Raise (ValidationError (field ++ ": Input should be a valid number"))
  | None =>
    match default with
    | Some x => Ok x
    | None => Raise (ValidationError (field ++ ": Field required"))
    end
  end.

Fixpoint parse_floats (items : list json) : outcome (list Q) :=
  match items with
  | [] => Ok []
  | j :: rest =>
    (x <- parse_float "p" (Some j) None ;;
     xs <- parse_floats rest ;;
     Ok (x :: xs))%outcome
  end.

Definition parse_ease (j : option json) : outcome Ease :=
  match j with
  | None => Ok default_ease
  | Some (JObject members) =>
    (ty <- match dict_get "type" members with
           | None => Ok Linear
           | Some (JString s) =>
             if String.eqb s "linear" then Ok Linear
             else if String.eqb s "cubic-bezier" then Ok CubicBezier
             else Raise (ValidationError "type: Input should be 'linear' or 'cubic-bezier'")
           | Some _ => Raise (ValidationError "type: Input should be 'linear' or 'cubic-bezier'")
           end ;;
     ps <- match dict_get "p" members with
           | None => Ok None
           | Some JNull => Ok None
           | Some (JArray items) => (l <- parse_floats items ;; Ok (Some l))
           | Some _ => Raise (ValidationError "p: Input should be a valid list")
           end ;;
     validate_bezier {| type := ty; p := ps |})%outcome
  | Some _ => Raise (ValidationError "ease: Input should be an object")
  end.

Definition parse_keyframe (j : json) : outcome Keyframe :=
  match j with
  | JObject members =>
    (t_ <- parse_float "t" (dict_get "t" members) None ;;
     pos <- parse_float "pos_mm" (dict_get "pos_mm" members) None ;;
     e <- parse_ease (dict_get "ease" members) ;;
     Ok {| t := t_; pos_mm := pos; ease := e |})%outcome
  | _ => Raise (ValidationError "keyframes: Input should be an object")
  end.

Fixpoint parse_keyframes (items : list json) : outcome (list Keyframe) :=
  match items with
  | [] => Ok []
  | j :: rest =>
    (k <- parse_keyframe j ;;
     ks <- parse_keyframes rest ;;
     Ok (k :: ks))%outcome
  end.

(** The constructor applied to the dictionary of a stored preset, as
    [api_run_preset] does. *)
Definition model_validate (j : json) : outcome MotionProfile :=
  match j with
  | JObject members =>
    (len <- parse_float "length_mm" (dict_get "length_mm" members) None ;;
     kfs <- match dict_get "keyframes" members with
            | Some (JArray items) => parse_keyframes items
            | Some _ => Raise (ValidationError "keyframes: Input should be a valid list")
            | None => Raise (ValidationError "keyframes: Field required")
            end ;;
     spd <- parse_float "max_speed_mm_s" (dict_get "max_speed_mm_s" members) (Some 120) ;;
     acc <- parse_float "max_accel_mm_s2" (dict_get "max_accel_mm_s2" members) (Some 300) ;;
     construct {| length_mm := len; keyframes := kfs;
                  max_speed_mm_s := spd; max_accel_mm_s2 := acc |})%outcome
  | _ => Raise (ValidationError "Input should be an object")
  end.

End Models.

(** ** app/motion/planner.py *)

Module Planner.
Import Models.

Definition _ease_fn (kf : Keyframe) : outcome (Q -> Q) :=
  let e := ease kf in
  match type e with
  | Linear => Ok Easing.linear
  | CubicBezier =>
    match p e with
    | Some [x1; y1; x2; y2] =>
      let cb := {| Easing.p1x := x1; Easing.p1y := y1;
                   Easing.p2x := x2; Easing.p2y := y2 |} in
      Ok (Easing.sample cb)
    | Some [] =>
      Raise (ValueError "not enough values to unpack (expected 4, got 0)")
    | Some [_] =>
      Raise (ValueError "not enough values to unpack (expected 4, got 1)")
    | Some [_; _] =>
      Raise (ValueError "not enough values to unpack (expected 4, got 2)")
    | Some [_; _; _] =>
      Raise (ValueError "not enough values to unpack (expected 4, got 3)")
    | Some _ => Raise (ValueError "too many values to unpack (expected 4)")
    | None => Raise (TypeError "cannot unpack non-iterable NoneType object")
    end
  end.

Section Sampling.
Variable kfs : list Keyframe.

(** [while seg_start_idx < len(kfs) - 2 and t > kfs[seg_start_idx + 1].t],
    with [n] iterations left; the index grows at each one, so
    [length kfs] iterations are enough. *)
Fixpoint advance_seg (t_ : Q) (n : nat) (seg_start_idx : nat) : outcome nat :=
  if (seg_start_idx <? List.length kfs - 2)%nat
  then
    (k <- getitem kfs (seg_start_idx + 1) ;;
     if Py.ltb (t k) t_
     then match n with
          | O => Diverge
          | S n' => advance_seg t_ n' (seg_start_idx + 1)
          end
     else Ok seg_start_idx)%outcome
  else Ok seg_start_idx.

(** The body of [while t <= total_t + 1e-9], with [fuel] iterations left. *)
Fixpoint sample_loop (fuel : nat) (total_t dt : Q) (seg_start_idx : nat) (t_ : Q)
  : outcome (list Q * list Q) :=
  if Py.leb t_ (total_t + (1 # 1000000000))
  then
    match fuel with
    | O => Diverge
    | S fuel' =>
      (seg_start_idx <- advance_seg t_ (List.length kfs) seg_start_idx ;;
       k0 <- getitem kfs seg_start_idx ;;
       k1 <- getitem kfs (seg_start_idx + 1) ;;
       let u := if Py.eqb (t k1) (t k0) then 0
                else (t_ - t k0) / (t k1 - t k0) in
       let u := if Py.ltb u 0 then 0 else if Py.ltb 1 u then 1 else u in
       f <- _ease_fn k1 ;;
       let y := pos_mm k0 + (pos_mm k1 - pos_mm k0) * f u in
       '(times, pos) <- sample_loop fuel' total_t dt seg_start_idx (t_ + dt) ;;
       Ok (t_ :: times, y :: pos))%outcome
    end
  else Ok ([], []).

End Sampling.

Definition total_time (kfs : list Keyframe) : outcome Q :=
  (kl <- getlast kfs ;;
   Ok (if Py.leb (t kl) 0 then 1 # 100 else t kl))%outcome.

Definition sample_profile_fuel (fuel : nat) (profile : MotionProfile) (dt : Q)
  : outcome (list Q * list Q) :=
  let kfs := keyframes profile in
  (total_t <- total_time kfs ;;
   '(times, pos) <- sample_loop kfs fuel total_t dt 0 0 ;;
   tl <- getlast times ;;
   kl <- getlast kfs ;;
   if Py.ltb tl (t kl)
   then Ok (times ++ [t kl], pos ++ [pos_mm kl])
   else Ok (times, pos))%outcome.

(** The number of iterations the sampling loop makes when [dt > 0]:
    the least [n] with [n * dt > total_t + 1e-9].  The first turn is
    made whatever [dt] is, and with [dt <= 0] it is followed by turns
    without end. *)
Definition sample_fuel (profile : MotionProfile) (dt : Q) : nat :=
  match total_time (keyframes profile) with
  | Ok total_t =>
    Z.to_nat (Z.max 1 (Qfloor ((total_t + (1 # 1000000000)) / dt) + 1))
  | _ => 0
  end.

(** [sample_profile(profile, dt)].  For [dt <= 0] the Python loop never
    exits and the result is [Diverge]. *)
Definition sample_profile (profile : MotionProfile) (dt : Q)
  : outcome (list Q * list Q) :=
  sample_profile_fuel (sample_fuel profile dt) profile dt.

End Planner.

(** ** app/config.py *)

Module Config.

Record SliderConfig : Type := {
  steps_per_rev : Z;
  microstep : Z;
  lead_mm_per_rev : Q;
  travel_mm : Q;
  max_speed_mm_s : Q;
  max_accel_mm_s2 : Q;
  step_pulse_us : Z;
  invert_endstops : bool
}.

(** The property [steps_per_mm]. *)
Definition steps_per_mm (self : SliderConfig) : outcome Q :=
  truediv (inject_Z (steps_per_rev self * microstep self)) (lead_mm_per_rev self).

(** [SliderConfig()]: the defaults. *)
Definition default : SliderConfig := {|
  steps_per_rev := 200;
  microstep := 16;
  lead_mm_per_rev := 8;
  travel_mm := 1200;
  max_speed_mm_s := 120;
  max_accel_mm_s2 := 300;
  step_pulse_us := 4;
  invert_endstops := false
|}.

End Config.

(** ** app/controller/manager.py *)

Module Controller.

Inductive Status : Type :=
| Idle | Homing | Jogging | Priming | Running | Stopped | Error.

Definition status_eqb (a b : Status) : bool :=
  match a, b with
  | Idle, Idle | Homing, Homing | Jogging, Jogging | Priming, Priming
  | Running, Running | Stopped, Stopped | Error, Error => true
  | _, _ => false
  end.

Inductive Command : Type :=
| Home
| Jog (distance_mm speed_mm_s : Q)
| RunProfile (profile : Models.MotionProfile)
| Prime (profile : Models.MotionProfile).

(** The attributes of [SliderController] the worker writes, the state of
    the (simulator) driver, and the logical clock. *)
Record World : Type := {
  current_pos_mm : Q;
  homed : bool;
  status : Status;
  error : option string;
  progress : Q;
  stop_event : bool;          (* [_stop_event] *)
  enabled : bool;             (* [driver.enabled] *)
  dir_positive : bool;        (* [driver.dir_positive] *)
  pulses : list bool;         (* direction of every pulse emitted, latest first *)
  tick : nat
}.

(** The calls that leave the worker. *)
Inductive Op : Type :=
| OpEnable (on : bool)
| OpSetDir
| OpPulse
| OpReadMin
| OpReadMax
| OpSleep.

(** What the worker does not control, by logical time: whether [stop()]
    has been called since the previous instant, what the endstops read,
    what [time.perf_counter()] returns, and whether a call fails. *)
Record Env : Type := {
  stop_called : nat -> bool;
  min_pressed : nat -> bool;
  max_pressed : nat -> bool;
  clock : nat -> Q;
  fault : nat -> Op -> option string
}.

Definition M (A : Type) : Type := World -> outcome A * World.

Definition ret {A : Type} (a : A) : M A := fun w => (Ok a, w).

Definition bind {A B : Type} (m : M A) (k : A -> M B) : M B :=
  fun w =>
    match m w with
    | (Ok a, w') => k a w'
    | (Raise e, w') => (Raise e, w')
    | (Diverge, w') => (Diverge, w')
    end.

Definition lift {A : Type} (o : outcome A) : M A := fun w => (o, w).

(** [try: m except Exception as e: handler(e)] *)
Definition try_except {A : Type} (m : M A) (handler : exn -> M A) : M A :=
  fun w =>
    match m w with
    | (Raise e, w') => handler e w'
    | r => r
    end.

(** [try: m finally: cleanup] *)
Definition try_finally {A : Type} (m : M A) (cleanup : M unit) : M A :=
  fun w =>
    match m w with
    | (Diverge, w') => (Diverge, w')
    | (r, w') =>
      match cleanup w' with
      | (Ok _, w'') => (r, w'')
      | (Raise e, w'') => (Raise e, w'')
      | (Diverge, w'') => (Diverge, w'')
      end
    end.

Declare Scope ctl_scope.
Delimit Scope ctl_scope with ctl.
Notation "x <- m ;; k" := (bind m (fun x => k))
  (at level 61, m at next level, right associativity) : ctl_scope.
Notation "m ;; k" := (bind m (fun _ => k))
  (at level 61, right associativity) : ctl_scope.
Open Scope ctl_scope.

(** [for x in xs: body(x)], where the body answers [true] on [break]. *)
Fixpoint for_each {A : Type} (xs : list A) (body : A -> M bool) : M unit :=
  match xs with
  | [] => ret tt
  | x :: rest =>
    stop <- body x ;;
    if (stop : bool) then ret tt else for_each rest body
  end.

(** [range(n)] for a Python [int]. *)
Definition range (n : Z) : list nat := seq 0 (Z.to_nat n).

(** *** Attribute updates *)

Definition with_current_pos_mm (x : Q) (w : World) : World :=
  {| current_pos_mm := x; homed := homed w; status := status w;
     error := error w; progress := progress w;
     stop_event := stop_event w; enabled := enabled w;
     dir_positive := dir_positive w; pulses := pulses w; tick := tick w |}.

Definition with_homed (b : bool) (w : World) : World :=
  {| current_pos_mm := current_pos_mm w; homed := b; status := status w;
     error := error w; progress := progress w;
     stop_event := stop_event w; enabled := enabled w;
     dir_positive := dir_positive w; pulses := pulses w; tick := tick w |}.

Definition with_status (s : Status) (w : World) : World :=
  {| current_pos_mm := current_pos_mm w; homed := homed w; status := s;
     error := error w; progress := progress w;
     stop_event := stop_event w; enabled := enabled w;
     dir_positive := dir_positive w; pulses := pulses w; tick := tick w |}.

Definition with_error (e : option string) (w : World) : World :=
  {| current_pos_mm := current_pos_mm w; homed := homed w; status := status w;
     error := e; progress := progress w;
     stop_event := stop_event w; enabled := enabled w;
     dir_positive := dir_positive w; pulses := pulses w; tick := tick w |}.

Definition with_progress (x : Q) (w : World) : World :=
  {| current_pos_mm := current_pos_mm w; homed := homed w; status := status w;
     error := error w; progress := x;
     stop_event := stop_event w; enabled := enabled w;
     dir_positive := dir_positive w; pulses := pulses w; tick := tick w |}.

Definition with_stop_event (b : bool) (w : World) : World :=
  {| current_pos_mm := current_pos_mm w; homed := homed w; status := status w;
     error := error w; progress := progress w;
     stop_event := b; enabled := enabled w;
     dir_positive := dir_positive w; pulses := pulses w; tick := tick w |}.

Definition with_enabled (on : bool) (w : World) : World :=
  {| current_pos_mm := current_pos_mm w; homed := homed w; status := status w;
     error := error w; progress := progress w;
     stop_event := stop_event w; enabled := on;
     dir_positive := dir_positive w; pulses := pulses w; tick := tick w |}.

Definition with_dir_positive (positive : bool) (w : World) : World :=
  {| current_pos_mm := current_pos_mm w; homed := homed w; status := status w;
     error := error w; progress := progress w;
     stop_event := stop_event w; enabled := enabled w;
     dir_positive := positive; pulses := pulses w; tick := tick w |}.

Definition with_pulses (l : list bool) (w : World) : World :=
  {| current_pos_mm := current_pos_mm w; homed := homed w; status := status w;
     error := error w; progress := progress w;
     stop_event := stop_event w; enabled := enabled w;
     dir_positive := dir_positive w; pulses := l; tick := tick w |}.

Definition modify (f : World -> World) : M unit := fun w => (Ok tt, f w).

Definition get {A : Type} (f : World -> A) : M A := fun w => (Ok (f w), w).

Definition set_current_pos_mm (x : Q) : M unit := modify (with_current_pos_mm x).
Definition set_homed (b : bool) : M unit := modify (with_homed b).
Definition set_status (s : Status) : M unit := modify (with_status s).
Definition set_error (e : option string) : M unit := modify (with_error e).
Definition set_progress (x : Q) : M unit := modify (with_progress x).

(** [self._stop_event.clear()] *)
Definition stop_event_clear : M unit := modify (with_stop_event false).

Section Worker.
Variable cfg : Config.SliderConfig.
Variable env : Env.

(** [self.steps_per_mm], read from the configuration by [__init__] (which
    raises when [lead_mm_per_rev] is zero, so that no controller exists). *)
Definition steps_per_mm : Q :=
  inject_Z (Config.steps_per_rev cfg * Config.microstep cfg)
  / Config.lead_mm_per_rev cfg.

(** One instant passes: a [stop()] called meanwhile sets the event. *)
Definition elapse (w : World) : World :=
  {| current_pos_mm := current_pos_mm w; homed := homed w; status := status w;
     error := error w; progress := progress w;
     stop_event := stop_event w || stop_called env (tick w);
     enabled := enabled w; dir_positive := dir_positive w;
     pulses := pulses w; tick := S (tick w) |}.

(** A call that leaves the worker: it takes an instant and may fail. *)
Definition external (op : Op) : M unit := fun w =>
  match fault env (tick w) op with
  | Some msg => (Raise (DriverFault msg), elapse w)
  | None => (Ok tt, elapse w)
  end.

(** [self._stop_event.is_set()] *)
Definition is_set : M bool :=
  modify elapse ;;
  get stop_event.

(** [time.perf_counter()] *)
Definition perf_counter : M Q :=
  now <- get tick ;;
  modify elapse ;;
  ret (clock env now).

(** [time.sleep(secs)] *)
Definition sleep (secs : Q) : M unit :=
  if Py.ltb secs 0
  then lift (Raise (ValueError "sleep length must be non-negative"))
  else external OpSleep.

(** *** The driver ([SimulatorDriver]) *)

Definition driver_enable (on : bool) : M unit :=
  external (OpEnable on) ;;
  modify (with_enabled on).

Definition driver_set_dir (positive : bool) : M unit :=
  external OpSetDir ;;
  modify (with_dir_positive positive).

(** [pulse_step] returns at once when the driver is disabled. *)
Definition driver_pulse_step (pulse_us : Z) : M unit :=
  external OpPulse ;;
  modify (fun w => if enabled w
                   then with_pulses (dir_positive w :: pulses w) w
                   else w).

Definition driver_read_min_endstop : M bool :=
  now <- get tick ;;
  external OpReadMin ;;
  ret (min_pressed env now).

Definition driver_read_max_endstop : M bool :=
  now <- get tick ;;
  external OpReadMax ;;
  ret (max_pressed env now).

(** *** Low-level movement helpers *)

(** [max((self.cfg.step_pulse_us * 2) / 1_000_000.0, 1.0 / 20000.0)] *)
Definition min_period_s : Q :=
  Py.max (inject_Z (Config.step_pulse_us cfg * 2) / 1000000) (1 / 20000).

(** [(1 if direction_positive else -1) / self.steps_per_mm] *)
Definition step_mm (direction_positive : bool) : M Q :=
  lift (truediv (if direction_positive then 1 else -1) steps_per_mm).

(** [max(0.0, min(x, self.cfg.travel_mm))] *)
Definition clamp_travel (x : Q) : Q :=
  Py.max 0 (Py.min x (Config.travel_mm cfg)).

Definition _relative_move (distance_mm speed_mm_s : Q) : M unit :=
  cur <- get current_pos_mm ;;
  let target := clamp_travel (cur + distance_mm) in
  let distance_mm := target - cur in
  if Py.ltb (Py.abs distance_mm) (1 # 1000000) then ret tt
  else
    let steps_total := Py.round (Py.abs distance_mm * steps_per_mm) in
    let direction_positive := Py.ltb 0 distance_mm in
    driver_set_dir direction_positive ;;
    let speed_mm_s := Py.max 1 (Py.min speed_mm_s (Config.max_speed_mm_s cfg)) in
    let steps_per_s := speed_mm_s * steps_per_mm in
    inv <- lift (truediv 1 steps_per_s) ;;
    let period_s := Py.max inv min_period_s in
    let pulse_us := Config.step_pulse_us cfg in
    for_each (range steps_total) (fun _ =>
      stop <- is_set ;;
      if (stop : bool) then ret true
      else
        hit_max <- (if direction_positive then driver_read_max_endstop
                    else ret false) ;;
        if (hit_max : bool) then ret true
        else
          hit_min <- (if negb direction_positive then driver_read_min_endstop
                      else ret false) ;;
          if (hit_min : bool) then ret true
          else
            driver_pulse_step pulse_us ;;
            d <- step_mm direction_positive ;;
            pos <- get current_pos_mm ;;
            set_current_pos_mm (pos + d) ;;
            sleep period_s ;;
            ret false).

Definition _seek_endstop (min_endstop : bool) (speed_mm_s max_travel_mm : Q)
  : M unit :=
  let direction_positive := negb min_endstop in
  driver_set_dir direction_positive ;;
  let steps_limit := Py.round (Py.abs max_travel_mm * steps_per_mm) in
  let steps_per_s := Py.max 1 (speed_mm_s * steps_per_mm) in
  inv <- lift (truediv 1 steps_per_s) ;;
  let period_s := Py.max inv min_period_s in
  let pulse_us := Config.step_pulse_us cfg in
  for_each (range steps_limit) (fun _ =>
    stop <- is_set ;;
    if (stop : bool) then ret true
    else
      hit_min <- (if min_endstop then driver_read_min_endstop else ret false) ;;
      if (hit_min : bool) then ret true
      else
        hit_max <- (if negb min_endstop then driver_read_max_endstop
                    else ret false) ;;
        if (hit_max : bool) then ret true
        else
          driver_pulse_step pulse_us ;;
          d <- step_mm direction_positive ;;
          pos <- get current_pos_mm ;;
          set_current_pos_mm (pos + d) ;;
          pos <- get current_pos_mm ;;
          set_current_pos_mm (clamp_travel pos) ;;
          sleep period_s ;;
          ret false).

Definition _move_to_position (target_pos_mm max_speed_mm_s : Q) : M unit :=
  cur <- get current_pos_mm ;;
  let delta_mm := target_pos_mm - cur in
  if Py.ltb (Py.abs delta_mm) (1 # 1000) then ret tt
  else _relative_move delta_mm max_speed_mm_s.

(** *** Command primitives *)

Definition _do_home : M unit :=
  set_status Homing ;;
  driver_enable true ;;
  _seek_endstop true (Config.max_speed_mm_s cfg * (1 # 4))
                (Config.travel_mm cfg + 10) ;;
  stop <- is_set ;;
  if (stop : bool) then
    driver_enable false ;;
    set_status Idle
  else
    _relative_move 5 30 ;;
    _seek_endstop true 15 10 ;;
    set_current_pos_mm 0 ;;
    set_homed true ;;
    driver_enable false ;;
    set_status Idle.

Definition _do_jog (distance_mm speed_mm_s : Q) : M unit :=
  set_status Jogging ;;
  driver_enable true ;;
  let spd := Py.max 1 (Py.min speed_mm_s (Config.max_speed_mm_s cfg)) in
  _relative_move distance_mm spd ;;
  driver_enable false ;;
  set_status Idle.

(** The part of [_do_prime] after the automatic home. *)
Definition prime_move (profile : Models.MotionProfile) : M unit :=
  let start_pos :=
    match getitem (Models.keyframes profile) 0 with
    | Ok k => Models.pos_mm k
    | _ => 0
    end in
  let start_pos := clamp_travel start_pos in
  cur <- get current_pos_mm ;;
  if Py.leb (Py.abs (cur - start_pos)) (1 # 2) then set_status Idle
  else
    let prime_speed := Py.min 50 (Config.max_speed_mm_s cfg) in
    driver_enable true ;;
    try_finally (_move_to_position start_pos prime_speed)
                (driver_enable false) ;;
    set_status Idle.

Definition _do_prime (profile : Models.MotionProfile) : M unit :=
  set_status Priming ;;
  is_homed <- get homed ;;
  if negb is_homed then
    _do_home ;;
    stop <- is_set ;;
    if (stop : bool) then set_status Stopped
    else prime_move profile
  else prime_move profile.

(** The body of [while stepped < steps] in [_do_run_profile]; [stepped]
    starts at 0 and grows by one at the end of every iteration, so the
    loop is [for _ in range(steps)]. *)
Definition run_pulse (direction_positive : bool) (seg_deadline period_s : Q)
  : M bool :=
  stop <- is_set ;;
  if (stop : bool) then ret true
  else
    hit_max <- (if direction_positive then driver_read_max_endstop
                else ret false) ;;
    if (hit_max : bool) then ret true
    else
      hit_min <- (if negb direction_positive then driver_read_min_endstop
                  else ret false) ;;
      if (hit_min : bool) then ret true
      else
        now <- perf_counter ;;
        if Py.leb seg_deadline now then ret true
        else
          driver_pulse_step (Config.step_pulse_us cfg) ;;
          d <- step_mm direction_positive ;;
          pos <- get current_pos_mm ;;
          set_current_pos_mm (pos + d) ;;
          pos <- get current_pos_mm ;;
          set_current_pos_mm (clamp_travel pos) ;;
          now <- perf_counter ;;
          (if Py.ltb now seg_deadline
           then sleep (Py.min period_s (seg_deadline - now))
           else ret tt) ;;
          ret false.

(** The body of [for i in range(len(times) - 1)]. *)
Definition run_segment (times pos : list Q) (total_t start_time : Q) (i : nat)
  : M bool :=
  stop <- is_set ;;
  if (stop : bool) then ret true
  else
    t0 <- lift (getitem times i) ;;
    t1 <- lift (getitem times (i + 1)) ;;
    p0 <- lift (getitem pos i) ;;
    p1 <- lift (getitem pos (i + 1)) ;;
    let dt := Py.max (1 # 10000) (t1 - t0) in
    let dp_mm := clamp_travel p1 - clamp_travel p0 in
    let steps := Py.round (Py.abs dp_mm * steps_per_mm) in
    let seg_deadline := start_time + t1 in
    let direction_positive := Py.ltb 0 dp_mm in
    driver_set_dir direction_positive ;;
    period_s <- (if (0 <? steps)%Z then lift (truediv dt (inject_Z steps))
                 else ret dt) ;;
    let period_s := Py.max period_s min_period_s in
    let max_steps_per_s := Config.max_speed_mm_s cfg * steps_per_mm in
    inv <- lift (truediv 1 max_steps_per_s) ;;
    let period_s := Py.max period_s inv in
    for_each (range steps)
             (fun _ => run_pulse direction_positive seg_deadline period_s) ;;
    now <- perf_counter ;;
    (if Py.ltb now seg_deadline
     then
       stop <- is_set ;;
       if negb stop then sleep (seg_deadline - now) else ret tt
     else ret tt) ;;
    q <- lift (truediv t1 total_t) ;;
    set_progress q ;;
    ret false.

Definition _do_run_profile (profile : Models.MotionProfile) : M unit :=
  set_status Running ;;
  driver_enable true ;;
  sampled <- lift (Planner.sample_profile profile (2 # 100)) ;;
  let times := fst sampled in
  let pos := snd sampled in
  tl <- lift (getlast times) ;;
  let total_t := Py.max (1 # 1000000) tl in
  start_time <- perf_counter ;;
  for_each (range (Z.of_nat (List.length times) - 1))
           (run_segment times pos total_t start_time) ;;
  match getlast pos with
  | Ok pl => set_current_pos_mm (clamp_travel pl)
  | _ => ret tt
  end ;;
  driver_enable false ;;
  stop <- is_set ;;
  set_status (if negb stop then Idle else Stopped) ;;
  st <- get status ;;
  old <- get progress ;;
  set_progress (if status_eqb st Idle then 1 else old).

(** *** The worker *)

Definition dispatch (cmd : Command) : M unit :=
  match cmd with
  | Home => _do_home
  | Jog distance_mm speed_mm_s => _do_jog distance_mm speed_mm_s
  | RunProfile profile => _do_run_profile profile
  | Prime profile => _do_prime profile
  end.

(** One turn of [while True] in [_worker_loop], for the command that
    [self._cmd_q.get()] returned. *)
Definition worker_step (cmd : Command) : M unit :=
  stop_event_clear ;;
  set_error None ;;
  try_except (dispatch cmd)
             (fun e =>
                set_error (Some (str e)) ;;
                set_status Error ;;
                driver_enable false).

(** [_worker_loop] over the commands the queue hands out, in order; at the
    end of the list the worker is blocked in [get()]. *)
Fixpoint _worker_loop (cmds : list Command) : M unit :=
  match cmds with
  | [] => ret tt
  | cmd :: rest => worker_step cmd ;; _worker_loop rest
  end.

End Worker.

(** [SliderController.__init__]: the attributes before the first command. *)
Definition init : World := {|
  current_pos_mm := 0; homed := false; status := Idle; error := None;
  progress := 0; stop_event := false; enabled := false;
  dir_positive := true; pulses := []; tick := 0
|}.

(** An environment in which nothing happens: nobody calls [stop()], no
    endstop is pressed, the clock advances by a millisecond per instant
    and no call fails. *)
Definition quiet : Env := {|
  stop_called := fun _ => false;
  min_pressed := fun _ => false;
  max_pressed := fun _ => false;
  clock := fun n => inject_Z (Z.of_nat n) / 1000;
  fault := fun _ _ => None
|}.

End Controller.

(** ** Concrete inputs *)

Module Cases.
Import Models.

(** A curve with [x1 = 1], [x2 = 0] has a flat [Bx] at [t = 1/2]: the
    derivative guard stops Newton-Raphson at once, the residual is zero
    and [sample(1/2) = By(1/2) = (3 y1 + 3 y2 + 1) / 8]. *)
Definition dipping : Easing.CubicBezier :=
  {| Easing.p1x := 1; Easing.p1y := -1; Easing.p2x := 0; Easing.p2y := 0 |}.

(** The ease-in-out curve [cubic-bezier(0.42, 0, 0.58, 1)]. *)
Definition ease_in_out : Easing.CubicBezier :=
  {| Easing.p1x := 42 # 100; Easing.p1y := 0;
     Easing.p2x := 58 # 100; Easing.p2y := 1 |}.

Definition kf (t_ pos : Q) : Keyframe :=
  {| t := t_; pos_mm := pos; ease := default_ease |}.

(** The linear sweep of 100 mm in two seconds. *)
Definition sweep : MotionProfile :=
  {| length_mm := 1000; keyframes := [kf 0 0; kf 2 100];
     max_speed_mm_s := 120; max_accel_mm_s2 := 300 |}.

(** The same keyframes with a speed limit of zero. *)
Definition sweep_no_speed : MotionProfile :=
  {| length_mm := 1000; keyframes := [kf 0 0; kf 2 100];
     max_speed_mm_s := 0; max_accel_mm_s2 := 300 |}.

(** One segment from 0 to 100 mm in a second, eased by [dipping]. *)
Definition dip : MotionProfile :=
  {| length_mm := 1000;
     keyframes := [kf 0 0;
                   {| t := 1; pos_mm := 100;
                      ease := {| type := CubicBezier;
                                 p := Some [1; -1; 0; 0] |} |}];
     max_speed_mm_s := 120; max_accel_mm_s2 := 300 |}.

(** Two thousandths of a millimetre in 40 ms: three samples, and
    segments too short to need a pulse. *)
Definition creep : MotionProfile :=
  {| length_mm := 1000; keyframes := [kf 0 0; kf (4 # 100) (2 # 1000)];
     max_speed_mm_s := 120; max_accel_mm_s2 := 300 |}.

(** A profile longer than the default travel of 1200 mm. *)
Definition overlong : MotionProfile :=
  {| length_mm := 2000; keyframes := [kf 0 1500; kf (2 # 100) 1500];
     max_speed_mm_s := 120; max_accel_mm_s2 := 300 |}.

(** [stop()] is called at instant [n], and only then. *)
Definition stop_at (n : nat) : Controller.Env :=
  {| Controller.stop_called := fun m => Nat.eqb m n;
     Controller.min_pressed := fun _ => false;
     Controller.max_pressed := fun _ => false;
     Controller.clock := fun m => inject_Z (Z.of_nat m) / 1000;
     Controller.fault := fun _ _ => None |}.

(** The carriage rests on the min endstop and [stop()] is called at
    instant [n]. *)
Definition at_min_stop_at (n : nat) : Controller.Env :=
  {| Controller.stop_called := fun m => Nat.eqb m n;
     Controller.min_pressed := fun _ => true;
     Controller.max_pressed := fun _ => false;
     Controller.clock := fun m => inject_Z (Z.of_nat m) / 1000;
     Controller.fault := fun _ _ => None |}.

(** The carriage rests on the max endstop. *)
Definition at_max : Controller.Env :=
  {| Controller.stop_called := fun _ => false;
     Controller.min_pressed := fun _ => false;
     Controller.max_pressed := fun _ => true;
     Controller.clock := fun m => inject_Z (Z.of_nat m) / 1000;
     Controller.fault := fun _ _ => None |}.

(** Every step pulse fails; the other calls succeed. *)
Definition broken_step : Controller.Env :=
  {| Controller.stop_called := fun _ => false;
     Controller.min_pressed := fun _ => false;
     Controller.max_pressed := fun _ => false;
     Controller.clock := fun m => inject_Z (Z.of_nat m) / 1000;
     Controller.fault := fun _ op =>
       match op with
       | Controller.OpPulse => Some "step pin write failed"%string
       | _ => None
       end |}.

End Cases.

(** ** Predicates of the statements *)

Module Spec.
Import Models.

Fixpoint increasing_from (last : Q) (ts : list Q) : Prop :=
  match ts with
  | [] => True
  | x :: rest => last < x /\ increasing_from x rest
  end.

(** Every element is strictly greater than its predecessor. *)
Definition strictly_increasing (ts : list Q) : Prop :=
  match ts with
  | [] => True
  | x :: rest => increasing_from x rest
  end.

Definition rejected (raw : MotionProfile) : Prop :=
  exists e, construct raw = Raise e.

(** The four reasons of rejection. *)
Definition too_few (raw : MotionProfile) : Prop :=
  (List.length (keyframes raw) < 2)%nat.

Definition times_not_increasing (raw : MotionProfile) : Prop :=
  ~ strictly_increasing (map t (sort_by_t (keyframes raw))).

Definition position_outside (raw : MotionProfile) : Prop :=
  exists k, In k (keyframes raw) /\ (pos_mm k < 0 \/ length_mm raw < pos_mm k).

Definition bezier_arity (raw : MotionProfile) : Prop :=
  exists k, In k (keyframes raw) /\
            type (ease k) = CubicBezier /\ len_p (p (ease k)) <> 4%nat.

(** The constraints declared on the fields. *)
Definition field_constraint (raw : MotionProfile) : Prop :=
  length_mm raw <= 0 \/
  (exists k, In k (keyframes raw) /\ t k < 0) \/
  max_speed_mm_s raw <= 0 \/
  max_accel_mm_s2 raw <= 0.

(** What the field constraints ask of one keyframe. *)
Definition keyframe_fields_ok (k : Keyframe) : Prop :=
  0 <= t k /\ ~ (type (ease k) = CubicBezier /\ len_p (p (ease k)) <> 4%nat).

Definition position_inside (length : Q) (k : Keyframe) : Prop :=
  0 <= pos_mm k <= length.

(** The profile with its keyframes in the validator's order. *)
Definition sorted_profile (raw : MotionProfile) : MotionProfile :=
  {| length_mm := length_mm raw;
     keyframes := sort_by_t (keyframes raw);
     max_speed_mm_s := max_speed_mm_s raw;
     max_accel_mm_s2 := max_accel_mm_s2 raw |}.

(** The ease of a keyframe keeps the progress within [[0, 1]]: it is
    linear, or a cubic-bezier with [y1] and [y2] in [[0, 1]]. *)
Definition ease_bounded (k : Keyframe) : Prop :=
  match type (ease k), p (ease k) with
  | Linear, _ => True
  | CubicBezier, Some [_; y1; _; y2] => 0 <= y1 <= 1 /\ 0 <= y2 <= 1
  | CubicBezier, _ => False
  end.

(** A sample [(t_, y)] lies, for every keyframe segment that contains
    [t_], between the positions of the segment's two keyframes, and it
    lies on the slider. *)
Definition sample_within (profile : MotionProfile) (t_ y : Q) : Prop :=
  (forall i ka kb,
     nth_error (keyframes profile) i = Some ka ->
     nth_error (keyframes profile) (S i) = Some kb ->
     t ka <= t_ <= t kb ->
     Py.min (pos_mm ka) (pos_mm kb) <= y <= Py.max (pos_mm ka) (pos_mm kb)) /\
  0 <= y <= length_mm profile.

(** How the planner computes the sample [(t_, y)]: in the segment
    [seg] it has reached, with the eased progress [v]. *)
Definition sample_at (kfs : list Keyframe) (t_ y : Q) : Prop :=
  exists seg k0 k1 v,
    nth_error kfs seg = Some k0 /\ nth_error kfs (S seg) = Some k1 /\
    y = pos_mm k0 + (pos_mm k1 - pos_mm k0) * v /\
    (seg = 0%nat \/ t k0 < t_) /\
    ((seg + 2 < List.length kfs)%nat -> t_ <= t k1) /\
    (t_ <= t k0 -> v = 0) /\
    (t k1 <= t_ -> v = 1) /\
    (ease_bounded k1 -> 0 <= v <= 1).

(** The times [t_, t_ + dt, ...] up to [bound]. *)
Fixpoint stepped (dt bound t_ : Q) (times : list Q) : Prop :=
  match times with
  | [] => bound < t_
  | x :: rest => x = t_ /\ t_ <= bound /\ stepped dt bound (t_ + dt) rest
  end.

(** A profile as validation leaves it. *)
Definition valid (profile : MotionProfile) : Prop :=
  exists raw, construct raw = Ok profile.

End Spec.

(** ** Reasoning about the worker *)

Module Logic.
Import Controller.

(** [m] run from [w] returns normally, in a world where [post] holds. *)
Definition returns {A : Type} (m : M A) (w : World)
           (post : A -> World -> Prop) : Prop :=
  exists a w', m w = (Ok a, w') /\ post a w'.

(** [m] never loops forever. *)
Definition terminates {A : Type} (m : M A) : Prop :=
  forall w, fst (m w) <> Diverge.

(** No call that leaves the worker fails. *)
Definition no_faults (env : Env) : Prop :=
  forall n op, fault env n op = None.

(** The driver's contract: [enable(False)] is safe to call at any time.
    The worker's exception handler relies on it: the handler itself calls
    [enable(False)], outside any [try]. *)
Definition disable_safe (env : Env) : Prop :=
  forall n, fault env n (OpEnable false) = None.

(** Nobody calls [stop()] and no endstop reads pressed. *)
Definition uninterrupted (env : Env) : Prop :=
  forall n, stop_called env n = false /\
            min_pressed env n = false /\ max_pressed env n = false.

(** The invariants of a loaded configuration. *)
Definition well_formed (cfg : Config.SliderConfig) : Prop :=
  0 < steps_per_mm cfg /\ 0 < Config.travel_mm cfg /\
  0 < Config.max_speed_mm_s cfg.

(** The world in which a command starts: the event cleared, no error. *)
Definition fresh (w : World) : World :=
  with_error None (with_stop_event false w).

(** The world the exception handler of the worker leaves. *)
Definition handled (env : Env) (e : exn) (w : World) : World :=
  with_enabled false
    (elapse env (with_status Error (with_error (Some (str e)) w))).

(** During a move that started in [w0]: [k] pulses in direction [dir]
    have been emitted, each moving the position by [step]. *)
Definition moving (env : Env) (w0 : World) (st : Status) (dir : bool)
           (step : Q) (k : nat) (w : World) : Prop :=
  status w = st /\ error w = error w0 /\ homed w = homed w0 /\
  enabled w = true /\ dir_positive w = dir /\
  pulses w = repeat dir k ++ pulses w0 /\
  current_pos_mm w == current_pos_mm w0 + inject_Z (Z.of_nat k) * step /\
  (uninterrupted env -> stop_event w = false).

(** After a move that started in [w0]: [k] pulses later. *)
Definition moved (env : Env) (w0 : World) (st : Status) (dir : bool)
           (step : Q) (k : nat) (w : World) : Prop :=
  status w = st /\ error w = error w0 /\ homed w = homed w0 /\
  enabled w = true /\
  pulses w = repeat dir k ++ pulses w0 /\
  current_pos_mm w == current_pos_mm w0 + inject_Z (Z.of_nat k) * step /\
  (uninterrupted env -> stop_event w = false).

(** The number of pulses of a relative move by [distance_mm] from [cur]. *)
Definition steps_of_move (cfg : Config.SliderConfig) (cur distance_mm : Q) : nat :=
  let target := clamp_travel cfg (cur + distance_mm) in
  if Py.ltb (Py.abs (target - cur)) (1 # 1000000) then 0%nat
  else Z.to_nat (Py.round (Py.abs (target - cur) * steps_per_mm cfg)).

(** Its direction. *)
Definition direction_of_move (cfg : Config.SliderConfig) (cur distance_mm : Q)
  : bool :=
  Py.ltb 0 (clamp_travel cfg (cur + distance_mm) - cur).

End Logic.

(** ** Further concrete inputs *)

Module Inputs.
Import Models.

(** The keyframes of [Cases.sweep], given last first. *)
Definition sweep_reversed : MotionProfile :=
  {| length_mm := 1000; keyframes := [Cases.kf 2 100; Cases.kf 0 0];
     max_speed_mm_s := 120; max_accel_mm_s2 := 300 |}.

(** A profile object whose keyframes were cut down to one after its
    construction. *)
Definition lone : MotionProfile :=
  {| length_mm := 1000; keyframes := [Cases.kf 0 0];
     max_speed_mm_s := 120; max_accel_mm_s2 := 300 |}.

(** The pins are out of order: every step pulse fails, and so does
    [enable(False)]. *)
Definition dead_pins : Controller.Env :=
  {| Controller.stop_called := fun _ => false;
     Controller.min_pressed := fun _ => false;
     Controller.max_pressed := fun _ => false;
     Controller.clock := fun m => inject_Z (Z.of_nat m) / 1000;
     Controller.fault := fun _ op =>
       match op with
       | Controller.OpPulse => Some "step pin write failed"%string
       | Controller.OpEnable false => Some "enable pin write failed"%string
       | _ => None
       end |}.

End Inputs.

(** ** Predicates of the further properties *)

From Stdlib Require Import Permutation.

Module Props.
Import Models.

(** The keyframes are in non-decreasing order of time: every keyframe is
    no later than those that follow it. *)
Fixpoint ordered (l : list Keyframe) : Prop :=
  match l with
  | [] => True
  | k :: rest => Forall (fun k' => t k <= t k') rest /\ ordered rest
  end.

(** Two profiles that differ at most in the order of their keyframes. *)
Definition same_keyframes (a b : MotionProfile) : Prop :=
  Permutation (keyframes a) (keyframes b) /\
  length_mm a = length_mm b /\
  max_speed_mm_s a = max_speed_mm_s b /\
  max_accel_mm_s2 a = max_accel_mm_s2 b.

End Props.

(** ** Reasoning about every outcome of the worker *)

Module Safety.
Import Controller.

(** What [m] run from [w] leaves behind: [post] when it returns, and
    [exc] when it does not (it raises, or it is cut short). *)
Definition ensures {A : Type} (m : M A) (w : World)
           (post : A -> World -> Prop) (exc : World -> Prop) : Prop :=
  match m w with
  | (Ok a, w') => post a w'
  | (_, w') => exc w'
  end.

(** [m] keeps the invariant [I], whether it returns or not. *)
Definition keeps {A : Type} (I : World -> Prop) (m : M A) : Prop :=
  forall w, I w -> ensures m w (fun _ => I) I.

(** [m] run from any world returns only in worlds where [post] holds. *)
Definition ends_in {A : Type} (m : M A) (post : World -> Prop) : Prop :=
  forall w, ensures m w (fun _ => post) (fun _ => True).

(** The position is within the travel. *)
Definition in_travel (cfg : Config.SliderConfig) (w : World) : Prop :=
  0 <= current_pos_mm w <= Config.travel_mm cfg.

(** The progress reported is a fraction. *)
Definition progress_in_unit (w : World) : Prop := 0 <= progress w <= 1.

(** The status of a worker that is not executing a command, after a
    command that returned: ['idle'], or ['stopped'] with the event set. *)
Definition at_rest (w : World) : Prop :=
  status w = Idle \/ (status w = Stopped /\ stop_event w = true).

(** Since the world [w0], either no instant has passed or the stop
    event is set; no pulse was emitted and [homed] is as it was. *)
Definition cancelled_since (w0 w : World) : Prop :=
  (tick w = tick w0 \/ stop_event w = true) /\
  pulses w = pulses w0 /\ homed w = homed w0.

(** Moreover the position is as it was. *)
Definition unmoved_since (w0 w : World) : Prop :=
  cancelled_since w0 w /\ current_pos_mm w = current_pos_mm w0.

(** The endstop that a move in direction [dir] runs towards reads
    pressed at every instant. *)
Definition facing_endstop_pressed (env : Env) (dir : bool) : Prop :=
  forall n, (if dir then max_pressed env n else min_pressed env n) = true.

(** Where [_do_prime] takes the carriage: the position of the first
    keyframe (0 when there is none), cut to the travel. *)
Definition prime_target (cfg : Config.SliderConfig)
           (profile : Models.MotionProfile) : Q :=
  clamp_travel cfg
    (match getitem (Models.keyframes profile) 0 with
     | Ok k => Models.pos_mm k
     | _ => 0
     end).

End Safety.

(** ** The presets of app/controller/manager.py and app/server/api.py *)

Module Presets.
Import Models.

(** A Python [dict] with string keys, in insertion order.  The keys of a
    dict are distinct; [Models.dict_get] reads it. *)
Definition dict : Type := list (string * json).

(** [key in d] *)
Definition contains (key : string) (d : dict) : bool :=
  match dict_get key d with
  | Some _ => true
  | None => false
  end.

Fixpoint replace (key : string) (v : json) (d : dict) : dict :=
  match d with
  | [] => []
  | (k, x) :: rest =>
    (k, if String.eqb k key then v else x) :: replace key v rest
  end.

(** [d[key] = v]: an existing key keeps its place. *)
Definition setitem (key : string) (v : json) (d : dict) : dict :=
  if contains key d then replace key v d else d ++ [(key, v)].

(** [d.pop(key)] for a key of [d]. *)
Definition pop (key : string) (d : dict) : dict :=
  filter (fun kv => negb (String.eqb (fst kv) key)) d.

(** What [presets.json] holds: a JSON object, as [__init__],
    [save_preset] and [delete_preset] write it, or something that
    [json.load] cannot read (the file is missing or damaged).  A file
    edited by hand into JSON that is not an object (a list, a number),
    on which [data[name] = ...] raises [TypeError], is not covered. *)
Inductive File : Type :=
| Unreadable
| Holds (data : dict).

Definition list_presets (f : File) : dict :=
  match f with
  | Holds data => data
  | Unreadable => []
  end.

Definition save_preset (name : string) (profile : MotionProfile) (f : File)
  : File :=
  let data := list_presets f in
  Holds (setitem name (model_dump_json profile) data).

Definition delete_preset (name : string) (f : File) : File :=
  let data := list_presets f in
  if contains name data then Holds (pop name data) else f.

End Presets.

Module Api.
Import Models Controller.

(** The controller as the endpoints see it: the presets file and the
    command queue (the next command first). *)
Record Server : Type := {
  presets : Presets.File;
  queue : list Command
}.

(** What an endpoint answers: [{"ok": True}], the 404 of a missing
    preset, or the exception that escaped the handler; [Hangs] stands
    for a handler that does not return. *)
Inductive Response : Type :=
| Done
| NotFound
| Failed (e : exn)
| Hangs.

Definition enqueue (cmd : Command) (s : Server) : Server :=
  {| presets := presets s; queue := queue s ++ [cmd] |}.

(** [api_home] *)
Definition api_home (s : Server) : Server * Response :=
  (enqueue Home s, Done).

Definition api_preset_save (name : string) (profile : MotionProfile)
           (s : Server) : Server * Response :=
  ({| presets := Presets.save_preset name profile (presets s);
      queue := queue s |}, Done).

Definition api_preset_delete (name : string) (s : Server) : Server * Response :=
  ({| presets := Presets.delete_preset name (presets s);
      queue := queue s |}, Done).

(** The shared body of [api_run_preset] and [api_prime_preset]. *)
Definition with_preset (make : MotionProfile -> Command) (name : string)
           (s : Server) : Server * Response :=
  let data := Presets.list_presets (presets s) in
  match dict_get name data with
  | None => (s, NotFound)
  | Some j =>
    match model_validate j with
    | Ok prof => (enqueue (make prof) s, Done)
    | Raise e => (s, Failed e)
    | Diverge => (s, Hangs)
    end
  end.

Definition api_run_preset : string -> Server -> Server * Response :=
  with_preset RunProfile.

Definition api_prime_preset : string -> Server -> Server * Response :=
  with_preset Prime.

End Api.

(** ** Binary64 arithmetic *)

From Stdlib Require Import Qpower.

(** The planner's results depend on how Python's [float] rounds: its
    values are the binary64 numbers, and every operation returns the
    binary64 number nearest to the exact result, a tie going to the even
    mantissa.  A binary64 number is kept as the rational it denotes.
    Results beyond the largest binary64 number (about 1.8e308), which
    are infinite in Python, and NaN are outside the model. *)

Module Binary64.

(** [floor(log2 x)] for [0 < x]. *)
Definition ilog2 (x : Q) : Z :=
  let l := (Z.log2 (Qnum x) - Z.log2 (Zpos (Qden x)))%Z in
  if Qle_bool (2 ^ l) x then l else (l - 1)%Z.

(** The exponent of the last bit of [x]: 53 significant bits, and never
    below [2^-1074], the spacing of the subnormal numbers. *)
Definition exponent (x : Q) : Z := Z.max (ilog2 (Qabs x) - 52) (-1074).

(** The binary64 number nearest to [x]. *)
Definition round (x : Q) : Q :=
  if Qeq_bool x 0 then 0
  else let e := exponent x in
       Qred (inject_Z (Py.round (x / 2 ^ e)) * 2 ^ e).

(** [x] is a binary64 number. *)
Definition representable (x : Q) : Prop := round x == x.

(** [x + y], [x - y], [x * y] and [x / y] on floats. *)
Definition add (x y : Q) : Q := round (x + y).
Definition sub (x y : Q) : Q := round (x - y).
Definition mul (x y : Q) : Q := round (x * y).

Definition truediv (x y : Q) : outcome Q :=
  if Py.eqb y 0 then Raise ZeroDivisionError else Ok (round (x / y)).

(** The largest error of one rounding: half the last bit. *)
Definition half_ulp (x : Q) : Q := Qabs x / 2 ^ 53 + 2 ^ (-1075).

End Binary64.

(** ** The kernel's binary64 *)

(** The primitive floats of the proof assistant are IEEE 754 binary64
    numbers, as Python's are.  They are used for one thing: to check
    [Binary64] against them on the numbers of the runs below. *)

From Stdlib Require Floats.

Module Kernel64.
Import Stdlib.Floats.Floats.
#[local] Set Warnings "-inexact-float".

(** The rational that a finite float denotes. *)
Definition to_Q (f : float) : option Q :=
  match Prim2SF f with
  | S754_zero _ => Some 0
  | S754_finite s m e =>
    Some (Qred ((if s then -1 else 1) * inject_Z (Zpos m) * 2 ^ e))
  | _ => None
  end.

Definition agrees (f : float) (q : Q) : bool :=
  match to_Q f with
  | Some x => Qeq_bool x q
  | None => false
  end.

(** Decimal literals of the source and of the profiles, with the
    decimal each is written as. *)
Definition literals : list (float * Q) :=
  [(0.3%float, 3 # 10); (0.9%float, 9 # 10); (0.02%float, 2 # 100);
   (0.01%float, 1 # 100); (0.1%float, 1 # 10); (0.5%float, 1 # 2);
   (1e-9%float, 1 # 1000000000); (1e-6%float, 1 # 1000000);
   (1e-4%float, 1 # 10000); (1e-5%float, 1 # 100000);
   ((-0.0005)%float, - (5 # 10000)); (0.3005%float, 3005 # 10000);
   (1200.0%float, 1200); (0.0025%float, 25 # 10000)].

Definition literals_agree : bool :=
  forallb (fun fq => agrees (fst fq) (Binary64.round (snd fq))) literals.

(** Operands: ordinary numbers, and two subnormal ones. *)
Definition ordinary : list float :=
  [0.3; 0.9; 0.02; 0.1; 0.5; 1; 3; 1e-9; 0.6000000000000001;
   1.0000000000000004; 0.42; 0.58; 1200; 123456.789; -0.25; -7.5e-3]%float.

Definition subnormal : list float := [1e-310; 5e-324; -3e-320]%float.

Definition agree2 (opf : float -> float -> float) (opq : Q -> Q -> Q)
           (x y : float) : bool :=
  match to_Q x, to_Q y with
  | Some a, Some b => agrees (opf x y) (opq a b)
  | _, _ => false
  end.

Definition all_pairs (l : list float) (check : float -> float -> bool) : bool :=
  forallb (fun x => forallb (check x) l) l.

Definition sums_agree : bool :=
  all_pairs (ordinary ++ subnormal) (agree2 add Binary64.add).
Definition differences_agree : bool :=
  all_pairs (ordinary ++ subnormal) (agree2 sub Binary64.sub).
Definition products_agree : bool :=
  all_pairs (ordinary ++ subnormal) (agree2 mul Binary64.mul).
Definition quotients_agree : bool :=
  all_pairs ordinary (agree2 div (fun a b => Binary64.round (a / b))).

(** [t += dt], [n] times. *)
Fixpoint steps (n : nat) (t dt : float) : float :=
  match n with
  | O => t
  | S n' => steps n' (t + dt)%float dt
  end.

(** The last time and the last position of [Doubles.rise] sampled
    every 0.02 s. *)
Definition last_time : float := steps 50 0%float 0.02%float.
Definition last_position : float := (0.3 + (0.9 - 0.3) * 1.0)%float.

End Kernel64.

(** ** app/motion/easing.py and app/motion/planner.py in binary64 *)

(** The same functions as in [Easing] and [Planner], with every
    arithmetic operation rounded as Python rounds it and every decimal
    literal read as the nearest binary64 number.  Comparisons are exact.
    [linear] does no arithmetic and is [Easing.linear]. *)

Module Easing64.
Import Binary64.

Section Sample.
Variable self : Easing.CubicBezier.

(** [t ** 3]: the C library's [pow], taken as correctly rounded. *)
Definition cube (t : Q) : Q := round (t ^ 3).

Definition bx (t : Q) : Q :=
  let mt := sub 1 t in
  add (add (mul (mul (mul (mul 3 mt) mt) t) (Easing.p1x self))
           (mul (mul (mul (mul 3 mt) t) t) (Easing.p2x self)))
      (cube t).

Definition by_ (t : Q) : Q :=
  let mt := sub 1 t in
  add (add (mul (mul (mul (mul 3 mt) mt) t) (Easing.p1y self))
           (mul (mul (mul (mul 3 mt) t) t) (Easing.p2y self)))
      (cube t).

Definition dx (t : Q) : Q :=
  add (add (mul (mul (mul 3 (sub 1 t)) (sub 1 t)) (Easing.p1x self))
           (mul (mul (mul 6 (sub 1 t)) t)
                (sub (Easing.p2x self) (Easing.p1x self))))
      (mul (mul (mul 3 t) t) (sub 1 (Easing.p2x self))).

Fixpoint newton (u : Q) (n : nat) (t : Q) : Q :=
  match n with
  | O => t
  | S n' =>
    let x_t := bx t in
    let d := dx t in
    if Py.ltb (Py.abs d) (round (1 # 1000000)) then t
    else
      let t := sub t (round (sub x_t u / d)) in
      if Py.ltb t 0 then 0
      else if Py.ltb 1 t then 1
      else newton u n' t
  end.

Fixpoint bisect (u : Q) (n : nat) (lo hi t : Q) : Q :=
  match n with
  | O => t
  | S n' =>
    let x_t := bx t in
    let lo := if Py.ltb x_t u then t else lo in
    let hi := if Py.ltb x_t u then hi else t in
    let t := mul (1 # 2) (add lo hi) in
    if Py.leb (Py.abs (sub x_t u)) (round (1 # 100000)) then t
    else bisect u n' lo hi t
  end.

Definition sample (u : Q) : Q :=
  if Py.leb u 0 then 0
  else if Py.leb 1 u then 1
  else
    let t := newton u 6 u in
    let x_t := bx t in
    let t :=
      if Py.ltb (round (1 # 10000)) (Py.abs (sub x_t u))
      then bisect u 12 0 1 u
      else t in
    by_ t.

End Sample.

End Easing64.

Module Planner64.
Import Models Binary64.

Definition _ease_fn (kf : Keyframe) : outcome (Q -> Q) :=
  let e := ease kf in
  match type e with
  | Linear => Ok Easing.linear
  | CubicBezier =>
    match p e with
    | Some [x1; y1; x2; y2] =>
      let cb := {| Easing.p1x := x1; Easing.p1y := y1;
                   Easing.p2x := x2; Easing.p2y := y2 |} in
      Ok (Easing64.sample cb)
    | Some [] =>
      Raise (ValueError "not enough values to unpack (expected 4, got 0)")
    | Some [_] =>
      Raise (ValueError "not enough values to unpack (expected 4, got 1)")
    | Some [_; _] =>
      Raise (ValueError "not enough values to unpack (expected 4, got 2)")
    | Some [_; _; _] =>
      Raise (ValueError "not enough values to unpack (expected 4, got 3)")
    | Some _ => Raise (ValueError "too many values to unpack (expected 4)")
    | None => Raise (TypeError "cannot unpack non-iterable NoneType object")
    end
  end.

Section Sampling.
Variable kfs : list Keyframe.

(** The body of [while t <= total_t + 1e-9], with [fuel] iterations
    left.  The inner loop compares only and is [Planner.advance_seg]. *)
Fixpoint sample_loop (fuel : nat) (total_t dt : Q) (seg_start_idx : nat) (t_ : Q)
  : outcome (list Q * list Q) :=
  if Py.leb t_ (add total_t (round (1 # 1000000000)))
  then
    match fuel with
    | O => Diverge
    | S fuel' =>
      (seg_start_idx <- Planner.advance_seg kfs t_ (List.length kfs) seg_start_idx ;;
       k0 <- getitem kfs seg_start_idx ;;
       k1 <- getitem kfs (seg_start_idx + 1) ;;
       u <- (if Py.eqb (t k1) (t k0) then Ok 0
             else truediv (sub t_ (t k0)) (sub (t k1) (t k0))) ;;
       let u := if Py.ltb u 0 then 0 else if Py.ltb 1 u then 1 else u in
       f <- _ease_fn k1 ;;
       let y := add (pos_mm k0) (mul (sub (pos_mm k1) (pos_mm k0)) (f u)) in
       '(times, pos) <- sample_loop fuel' total_t dt seg_start_idx (add t_ dt) ;;
       Ok (t_ :: times, y :: pos))%outcome
    end
  else Ok ([], []).

End Sampling.

Definition total_time (kfs : list Keyframe) : outcome Q :=
  (kl <- getlast kfs ;;
   Ok (if Py.leb (t kl) 0 then round (1 # 100) else t kl))%outcome.

(** [sample_profile(profile, dt)] when its loop is given [fuel] turns. *)
Definition sample_profile_fuel (fuel : nat) (profile : MotionProfile) (dt : Q)
  : outcome (list Q * list Q) :=
  let kfs := keyframes profile in
  (total_t <- total_time kfs ;;
   '(times, pos) <- sample_loop kfs fuel total_t dt 0 0 ;;
   tl <- getlast times ;;
   kl <- getlast kfs ;;
   if Py.ltb tl (t kl)
   then Ok (times ++ [t kl], pos ++ [pos_mm kl])
   else Ok (times, pos))%outcome.

(** Where the interpolation of a segment arrives at progress 1:
    [k0.pos_mm + (k1.pos_mm - k0.pos_mm) * 1.0]. *)
Definition reach (k0 k1 : Keyframe) : Q :=
  add (pos_mm k0) (sub (pos_mm k1) (pos_mm k0)).

End Planner64.

(** Profiles given in decimal, as Python reads them. *)

Module Doubles.
Import Models.

Definition kf (t_ pos : Q) : Keyframe :=
  Cases.kf (Binary64.round t_) (Binary64.round pos).

(** From 0.3 mm to 0.9 mm in one second, on a slider 0.9 mm long. *)
Definition rise : MotionProfile :=
  {| length_mm := Binary64.round (9 # 10);
     keyframes := [kf 0 (3 # 10); kf 1 (9 # 10)];
     max_speed_mm_s := 120; max_accel_mm_s2 := 300 |}.

End Doubles.

(** ** Predicates of the statements in binary64 *)

Module Spec64.
Import Models Binary64.

(** Every time and position of the profile is a binary64 number. *)
Definition binary64_profile (profile : MotionProfile) : Prop :=
  Forall (fun k => representable (t k) /\ representable (pos_mm k))
         (keyframes profile).

(** [y] lies between [a] and [b], whichever is the larger. *)
Definition between (a b y : Q) : Prop := Py.min a b <= y <= Py.max a b.

(** The rounding error that can separate the end of an interpolation
    from the keyframe it aims at, on a slider of the given length. *)
Definition slack (length : Q) : Q := length / 2 ^ 51 + 2 ^ (-1073).

(** The sample [(t_, y)] was interpolated in the segment [seg] that the
    sampler had reached, with the eased progress [v].  When [v] is in
    [[0, 1]], as it is for a linear ease, [y] lies between the first
    keyframe of the segment and where the interpolation arrives, which
    is the second keyframe up to [slack].  At or before the first
    keyframe of the segment [y] is that keyframe, at or after the second
    it is where the interpolation arrives. *)
Definition interpolated (profile : MotionProfile) (t_ y : Q) : Prop :=
  exists seg k0 k1 v,
    nth_error (keyframes profile) seg = Some k0 /\
    nth_error (keyframes profile) (S seg) = Some k1 /\
    (seg = 0%nat \/ t k0 < t_) /\
    ((seg + 2 < List.length (keyframes profile))%nat -> t_ <= t k1) /\
    y = add (pos_mm k0) (mul (sub (pos_mm k1) (pos_mm k0)) v) /\
    (type (ease k1) = Linear -> 0 <= v <= 1) /\
    (0 <= v <= 1 ->
     between (pos_mm k0) (Planner64.reach k0 k1) y /\
     Py.min (pos_mm k0) (pos_mm k1) - slack (length_mm profile) <= y /\
     y <= Py.max (pos_mm k0) (pos_mm k1) + slack (length_mm profile) /\
     0 <= y <= length_mm profile + slack (length_mm profile)) /\
    (t_ <= t k0 -> y == pos_mm k0) /\
    (t k1 <= t_ -> y == Planner64.reach k0 k1).


End Spec64.

(** ** The status report of app/controller/manager.py *)

Module Report.

(** The dictionary that [get_status] returns. *)
Record StatusReport : Type := {
  status : Controller.Status;
  pos_mm : Q;
  homed : bool;
  progress : Q;
  error : option string
}.

(** The decimal with three places nearest to [x], a tie going to the
    even last digit. *)
Definition decimal3 (x : Q) : Q := inject_Z (Py.round (x * 1000)) / 1000.

(** [round(x, 3)] on a float: Python rounds the exact value of [x] to
    three decimal places and returns the binary64 number nearest to
    that decimal. *)
Definition round3 (x : Q) : Q := Binary64.round (decimal3 x).

Definition get_status (w : Controller.World) : StatusReport :=
  {| status := Controller.status w;
     pos_mm := round3 (Controller.current_pos_mm w);
     homed := Controller.homed w;
     progress := round3 (Controller.progress w);
     error := Controller.error w |}.

End Report.

(* ================================================================== *)
(** * Verification *)

(** ** Facts about the numeric helpers *)

Lemma ltb_reflect (x y : Q) : reflect (x < y) (Py.ltb x y).
Proof.
  unfold Py.ltb. destruct (Qle_bool y x) eqn:E; simpl; constructor.
  - apply Qle_bool_iff in E. lra.
  - destruct (Qlt_le_dec x y) as [H|H]; auto.
    apply Qle_bool_iff in H. congruence.
Qed.

Lemma leb_reflect (x y : Q) : reflect (x <= y) (Py.leb x y).
Proof.
  unfold Py.leb. destruct (Qle_bool x y) eqn:E; constructor.
  - now apply Qle_bool_iff.
  - intro H. apply Qle_bool_iff in H. congruence.
Qed.

Lemma eqb_reflect (x y : Q) : reflect (x == y) (Py.eqb x y).
Proof.
  unfold Py.eqb. destruct (Qeq_bool x y) eqn:E; constructor.
  - now apply Qeq_bool_iff.
  - intro H. apply Qeq_bool_iff in H. congruence.
Qed.

Lemma max_cases (a b : Q) :
  (a < b /\ Py.max a b = b) \/ (b <= a /\ Py.max a b = a).
Proof. unfold Py.max. destruct (ltb_reflect a b); [left | right]; split; auto; lra. Qed.

Lemma min_cases (a b : Q) :
  (b < a /\ Py.min a b = b) \/ (a <= b /\ Py.min a b = a).
Proof. unfold Py.min. destruct (ltb_reflect b a); [left | right]; split; auto; lra. Qed.

Lemma abs_cases (x : Q) :
  (0 <= x /\ Py.abs x == x) \/ (x < 0 /\ Py.abs x == - x).
Proof.
  unfold Py.abs. destruct (Qlt_le_dec x 0).
  - right. split; auto. apply Qabs_neg. lra.
  - left. split; auto. now apply Qabs_pos.
Qed.

Ltac py_cases :=
  repeat match goal with
  | |- context [Py.ltb ?x ?y] => destruct (ltb_reflect x y)
  | |- context [Py.leb ?x ?y] => destruct (leb_reflect x y)
  | |- context [Py.eqb ?x ?y] => destruct (eqb_reflect x y)
  end.

Lemma pow3 (x : Q) : x ^ 3 == x * x * x.
Proof. simpl. ring. Qed.

(** ** Easing *)

Section EasingFacts.
Import Easing.
Variable cb : CubicBezier.

Lemma newton_range (u : Q) (n : nat) :
  forall t, 0 <= t <= 1 -> 0 <= newton cb u n t <= 1.
Proof.
  induction n as [|n IH]; intros t Ht; cbn [newton]; cbv zeta; auto.
  destruct (ltb_reflect (Py.abs (dx cb t)) (1 # 1000000)); auto.
  destruct (ltb_reflect (t - (bx cb t - u) / dx cb t) 0); [lra|].
  destruct (ltb_reflect 1 (t - (bx cb t - u) / dx cb t)); [lra|].
  apply IH. lra.
Qed.

Lemma bisect_range (u : Q) (n : nat) :
  forall lo hi t, 0 <= lo <= 1 -> 0 <= hi <= 1 -> 0 <= t <= 1 ->
  0 <= bisect cb u n lo hi t <= 1.
Proof.
  induction n as [|n IH]; intros lo hi t Hlo Hhi Ht; cbn [bisect]; cbv zeta; auto.
  destruct (ltb_reflect (bx cb t) u);
    destruct (leb_reflect (Py.abs (bx cb t - u)) (1 # 100000));
    try apply IH; lra.
Qed.

(** The parameter at which [sample] evaluates [by_], for [0 < u < 1]. *)
Lemma solved_range (u : Q) :
  0 < u < 1 ->
  0 <= (if Py.ltb (1 # 10000) (Py.abs (bx cb (newton cb u 6 u) - u))
        then bisect cb u 12 0 1 u else newton cb u 6 u) <= 1.
Proof.
  intros Hu.
  destruct (ltb_reflect (1 # 10000) (Py.abs (bx cb (newton cb u 6 u) - u))).
  - apply bisect_range; lra.
  - apply newton_range; lra.
Qed.

Lemma by_range (t : Q) :
  0 <= t <= 1 -> 0 <= p1y cb <= 1 -> 0 <= p2y cb <= 1 ->
  0 <= by_ cb t <= 1.
Proof.
  intros Ht H1 H2. unfold by_. cbv zeta. rewrite pow3.
  assert (Ha : 0 <= (1 - t) * (1 - t) * t).
  { repeat apply Qmult_le_0_compat; lra. }
  assert (Hb : 0 <= (1 - t) * t * t).
  { repeat apply Qmult_le_0_compat; lra. }
  assert (Hc : 0 <= t * t * t).
  { repeat apply Qmult_le_0_compat; lra. }
  assert (Hd : 0 <= (1 - t) * (1 - t) * (1 - t)).
  { repeat apply Qmult_le_0_compat; lra. }
  assert (Ha1 : 0 <= (1 - t) * (1 - t) * t * p1y cb).
  { apply Qmult_le_0_compat; lra. }
  assert (Ha2 : 0 <= (1 - t) * (1 - t) * t * (1 - p1y cb)).
  { apply Qmult_le_0_compat; lra. }
  assert (Hb1 : 0 <= (1 - t) * t * t * p2y cb).
  { apply Qmult_le_0_compat; lra. }
  assert (Hb2 : 0 <= (1 - t) * t * t * (1 - p2y cb)).
  { apply Qmult_le_0_compat; lra. }
  split; nra.
Qed.

Lemma sample_at_ends (u : Q) :
  (u <= 0 -> sample cb u = 0) /\ (1 <= u -> sample cb u = 1).
Proof.
  unfold sample. split; intros H.
  - destruct (leb_reflect u 0); [reflexivity | lra].
  - destruct (leb_reflect u 0); [lra|].
    destruct (leb_reflect 1 u); [reflexivity | lra].
Qed.

Lemma sample_range (u : Q) :
  0 <= p1y cb <= 1 -> 0 <= p2y cb <= 1 -> 0 <= sample cb u <= 1.
Proof.
  intros H1 H2. unfold sample.
  destruct (leb_reflect u 0); [lra|].
  destruct (leb_reflect 1 u); [lra|].
  cbv zeta. apply by_range; auto. apply solved_range. lra.
Qed.

End EasingFacts.

Lemma linear_range (u : Q) : 0 <= Easing.linear u <= 1.
Proof. unfold Easing.linear. py_cases; lra. Qed.

(** C5 (amended).  [sample] returns exactly 0 for [u <= 0] and exactly 1
    for [u >= 1]; for [0 < u < 1] it returns [By(t)] at the parameter [t]
    that the solver computes (Newton-Raphson from [t = u], at most 6
    iterations, guarded by [|dBx/dt| < 1e-6]; 12 bisection steps when the
    residual exceeds [1e-4]), and that parameter lies in [[0, 1]].  When
    moreover [y1] and [y2] lie in [[0, 1]], every value of [sample] lies
    between [sample(0) = 0] and [sample(1) = 1].  Nothing is said about
    [sample] being non-decreasing. *)
Theorem sample_endpoints_and_range (cb : Easing.CubicBezier) (u : Q) :
  (u <= 0 -> Easing.sample cb u = 0) /\
  (1 <= u -> Easing.sample cb u = 1) /\
  (0 < u < 1 ->
   let t0 := Easing.newton cb u 6 u in
   let t := if Py.ltb (1 # 10000) (Py.abs (Easing.bx cb t0 - u))
            then Easing.bisect cb u 12 0 1 u else t0 in
   0 <= t <= 1 /\ Easing.sample cb u = Easing.by_ cb t) /\
  (0 <= Easing.p1y cb <= 1 -> 0 <= Easing.p2y cb <= 1 ->
   Easing.sample cb 0 <= Easing.sample cb u <= Easing.sample cb 1).
Proof.
  repeat split.
  - apply sample_at_ends.
  - apply sample_at_ends.
  - apply solved_range. lra.
  - apply solved_range. lra.
  - unfold Easing.sample.
    destruct (leb_reflect u 0); [lra|].
    destruct (leb_reflect 1 u); [lra|]. reflexivity.
  - change (Easing.sample cb 0) with 0. apply sample_range; auto.
  - change (Easing.sample cb 1) with 1. apply sample_range; auto.
Qed.

Lemma sample_ease_in_out_range :
  0 <= Easing.p1y Cases.ease_in_out <= 1 /\
  0 <= Easing.p2y Cases.ease_in_out <= 1 /\
  Easing.sample Cases.ease_in_out 0
  <= Easing.sample Cases.ease_in_out (1 # 2)
  <= Easing.sample Cases.ease_in_out 1.
Proof.
  assert (H1 : 0 <= Easing.p1y Cases.ease_in_out <= 1) by (split; discriminate).
  assert (H2 : 0 <= Easing.p2y Cases.ease_in_out <= 1) by (split; discriminate).
  split; [exact H1|]. split; [exact H2|].
  exact (proj2 (proj2 (proj2
           (sample_endpoints_and_range Cases.ease_in_out (1 # 2)))) H1 H2).
Defined.

Example sample_dipping_half : Easing.sample Cases.dipping (1 # 2) == - (1 # 4).
Proof. vm_compute. reflexivity. Qed.

(** C5 (as stated) fails: with [x1, x2] in [[0, 1]] and [y1 = -1],
    [sample(0) = 0] but [sample(1/2) = -1/4]. *)
Lemma sample_not_monotone :
  ~ (forall (cb : Easing.CubicBezier) (u u' : Q),
       0 <= Easing.p1x cb <= 1 -> 0 <= Easing.p2x cb <= 1 ->
       0 <= u -> u <= u' -> u' <= 1 ->
       Easing.sample cb u <= Easing.sample cb u').
Proof.
  intros H.
  specialize (H Cases.dipping 0 (1 # 2)).
  assert (E : Easing.sample Cases.dipping 0 <= Easing.sample Cases.dipping (1 # 2)).
  { apply H; simpl; lra. }
  vm_compute in E. apply E. reflexivity.
Qed.

(** ** Validation of profiles *)

Section Validation.
Import Models Spec.

Lemma validate_bezier_cases (e : Ease) :
  (validate_bezier e = Ok e /\
   ~ (type e = CubicBezier /\ len_p (p e) <> 4%nat)) \/
  ((exists x, validate_bezier e = Raise x) /\
   type e = CubicBezier /\ len_p (p e) <> 4%nat).
Proof.
  unfold validate_bezier. destruct e as [ty ps]; simpl.
  destruct ty.
  - left. split; [reflexivity | intros [H _]; discriminate].
  - destruct ps as [[|x l]|]; simpl.
    + right. repeat split; eauto; discriminate.
    + destruct (Nat.eqb_spec (List.length l) 3) as [E|E]; simpl.
      * left. split; [reflexivity | intros [_ H]; lia].
      * right. repeat split; eauto; lia.
    + right. repeat split; eauto; discriminate.
Qed.

Lemma validate_keyframe_cases (k : Keyframe) :
  (validate_keyframe k = Ok k /\ keyframe_fields_ok k) \/
  ((exists x, validate_keyframe k = Raise x) /\
   (t k < 0 \/ (type (ease k) = CubicBezier /\ len_p (p (ease k)) <> 4%nat))).
Proof.
  unfold validate_keyframe, keyframe_fields_ok.
  destruct (ltb_reflect (t k) 0) as [H|H].
  - right. split; eauto.
  - destruct (validate_bezier_cases (ease k)) as [[E Hn]|[[x E] Hb]]; rewrite E; simpl.
    + left. repeat split; auto. lra.
    + right. split; eauto.
Qed.

Lemma validate_each_cases (kfs : list Keyframe) :
  (validate_each kfs = Ok tt /\ Forall keyframe_fields_ok kfs) \/
  ((exists x, validate_each kfs = Raise x) /\
   exists k, In k kfs /\
     (t k < 0 \/ (type (ease k) = CubicBezier /\ len_p (p (ease k)) <> 4%nat))).
Proof.
  induction kfs as [|k rest IH]; simpl.
  - left. split; auto.
  - destruct (validate_keyframe_cases k) as [[E Hk]|[[x E] Hk]]; rewrite E; simpl.
    + destruct IH as [[E' Hr]|[[x E'] [k' [Hin Hk']]]].
      * left. split; auto.
      * right. split; [eauto|]. exists k'. split; auto.
    + right. split; [eauto|]. exists k. split; auto.
Qed.

Lemma insert_by_t_In (k x : Keyframe) (l : list Keyframe) :
  In x (insert_by_t k l) <-> x = k \/ In x l.
Proof.
  induction l as [|h rest IH]; simpl.
  - intuition.
  - destruct (Py.leb (t k) (t h)); simpl; rewrite ?IH; intuition.
Qed.

Lemma sort_by_t_In (x : Keyframe) (l : list Keyframe) :
  In x (sort_by_t l) <-> In x l.
Proof.
  induction l as [|h rest IH]; simpl; [tauto|].
  rewrite insert_by_t_In, IH. intuition.
Qed.

Lemma insert_by_t_length (k : Keyframe) (l : list Keyframe) :
  List.length (insert_by_t k l) = S (List.length l).
Proof.
  induction l as [|h rest IH]; simpl; auto.
  destruct (Py.leb (t k) (t h)); simpl; auto.
Qed.

Lemma sort_by_t_length (l : list Keyframe) :
  List.length (sort_by_t l) = List.length l.
Proof.
  induction l as [|h rest IH]; simpl; auto.
  rewrite insert_by_t_length. auto.
Qed.

Lemma check_keyframes_cases (length last : Q) (l : list Keyframe) :
  (check_keyframes length last l = Ok tt /\
   increasing_from last (map t l) /\ Forall (position_inside length) l) \/
  ((exists x, check_keyframes length last l = Raise x) /\
   (~ increasing_from last (map t l) \/
    exists k, In k l /\ (pos_mm k < 0 \/ length < pos_mm k))).
Proof.
  revert last. induction l as [|k rest IH]; intros last; simpl.
  - left. auto.
  - destruct (leb_reflect (t k) last) as [H|H].
    { right. split; eauto. left. intros [H' _]. lra. }
    destruct (ltb_reflect (pos_mm k) 0) as [H0|H0]; simpl.
    { right. split; eauto. right. exists k. auto. }
    destruct (ltb_reflect length (pos_mm k)) as [H1|H1]; simpl.
    { right. split; eauto. right. exists k. auto. }
    destruct (IH (t k)) as [[E [Hi Hp]]|[[x E] Hb]].
    + left. repeat split; auto; try lra.
      constructor; auto. unfold position_inside. lra.
    + right. split; eauto.
      destruct Hb as [Hb|[k' [Hin Hk']]].
      * left. intros [_ H']. auto.
      * right. exists k'. auto.
Qed.

(** With non-negative times, the initial [last_t = -1.0] rejects nothing. *)
Lemma increasing_from_minus_one (ts : list Q) :
  Forall (fun x => 0 <= x) ts ->
  (increasing_from (-1) ts <-> strictly_increasing ts).
Proof.
  destruct ts as [|x rest]; simpl; [tauto|].
  intros H. inversion H; subst. split; [tauto|]. intros; split; auto. lra.
Qed.

Lemma sorted_times_nonneg (kfs : list Keyframe) :
  Forall keyframe_fields_ok kfs ->
  Forall (fun x => 0 <= x) (map t (sort_by_t kfs)).
Proof.
  intros H. apply Forall_forall. intros x Hx.
  apply in_map_iff in Hx. destruct Hx as [k [<- Hk]].
  apply (proj1 (sort_by_t_In _ _)) in Hk.
  rewrite Forall_forall in H. apply (H k Hk).
Qed.

(** What [construct] does, case by case. *)
Lemma construct_cases (raw : MotionProfile) :
  (construct raw = Ok (sorted_profile raw) /\
   0 < length_mm raw /\ 0 < max_speed_mm_s raw /\ 0 < max_accel_mm_s2 raw /\
   Forall keyframe_fields_ok (keyframes raw) /\
   (2 <= List.length (keyframes raw))%nat /\
   strictly_increasing (map t (sort_by_t (keyframes raw))) /\
   Forall (position_inside (length_mm raw)) (sort_by_t (keyframes raw))) \/
  (rejected raw /\
   (too_few raw \/ times_not_increasing raw \/ position_outside raw \/
    bezier_arity raw \/ field_constraint raw)).
Proof.
  unfold rejected, construct, field_constraint.
  destruct (ltb_reflect 0 (length_mm raw)) as [HL|HL]; simpl.
  2:{ right. split; eauto. do 4 right. left. lra. }
  destruct (validate_each_cases (keyframes raw)) as [[E Hf]|[[x E] [k [Hin Hk]]]];
    rewrite E; simpl.
  2:{ right. split; eauto. destruct Hk as [Hk|Hk].
      - do 4 right. right. left. eauto.
      - do 3 right. left. exists k. auto. }
  destruct (ltb_reflect 0 (max_speed_mm_s raw)) as [HS|HS]; simpl.
  2:{ right. split; eauto. do 4 right. do 2 right. left. lra. }
  destruct (ltb_reflect 0 (max_accel_mm_s2 raw)) as [HA|HA]; simpl.
  2:{ right. split; eauto. do 4 right. do 3 right. lra. }
  unfold validate_keyframes.
  destruct (Nat.ltb_spec (List.length (keyframes raw)) 2) as [Hn|Hn].
  { right. split; eauto. }
  destruct (check_keyframes_cases (length_mm raw) (-1) (sort_by_t (keyframes raw)))
    as [[E' [Hi Hp]]|[[x E'] Hb]]; rewrite E'; simpl.
  - left. repeat split; auto.
    apply increasing_from_minus_one; auto using sorted_times_nonneg.
  - right. split; eauto. destruct Hb as [Hb|[k [Hin Hk]]].
    + right. left. unfold times_not_increasing. intros Hs. apply Hb.
      apply increasing_from_minus_one; auto using sorted_times_nonneg.
    + do 2 right. left. exists k. split; auto.
      now apply (proj1 (sort_by_t_In _ _)).
Qed.

Lemma construct_result (raw p : MotionProfile) :
  construct raw = Ok p -> p = sorted_profile raw.
Proof.
  intros H. destruct (construct_cases raw) as [[E _]|[[e E] _]]; congruence.
Qed.

End Validation.

Section ValidationClaims.
Import Models Spec.

(** C7 (amended).  Constructing a [MotionProfile] fails with a validation
    error if and only if one of the four reasons holds (fewer than two
    keyframes; after the stable sort by time some time is not strictly
    greater than its predecessor; some position outside
    [[0, length_mm]]; a cubic-bezier ease without exactly four control
    values) or a field constraint is violated ([length_mm <= 0], some
    [t < 0], [max_speed_mm_s <= 0], [max_accel_mm_s2 <= 0]).  A profile
    violating none of these is accepted, with its keyframes sorted. *)
Theorem construct_rejects_iff (raw : MotionProfile) :
  (rejected raw <->
   too_few raw \/ times_not_increasing raw \/ position_outside raw \/
   bezier_arity raw \/ field_constraint raw) /\
  (~ rejected raw -> construct raw = Ok (sorted_profile raw)).
Proof.
  destruct (construct_cases raw)
    as [[E [HL [HS [HA [Hf [Hn [Hi Hp]]]]]]]|[Hr Hd]].
  - assert (Hnr : ~ rejected raw) by (intros [e He]; congruence).
    split; [split; [tauto|] | auto].
    intros Hd. exfalso. rewrite Forall_forall in Hf, Hp.
    destruct Hd as [H|[H|[[k [Hin H]]|[[k [Hin H]]|H]]]].
    + unfold too_few in H. lia.
    + apply H, Hi.
    + apply (proj2 (sort_by_t_In _ _)) in Hin. specialize (Hp k Hin).
      unfold position_inside in Hp. lra.
    + apply (Hf k Hin). exact H.
    + destruct H as [H|[[k [Hin H]]|[H|H]]]; try lra.
      destruct (Hf k Hin) as [H' _]. lra.
  - split; [tauto|]. intros H. contradiction.
Qed.

Lemma sweep_accepted :
  ~ rejected Cases.sweep /\
  construct Cases.sweep = Ok (sorted_profile Cases.sweep).
Proof.
  assert (H : ~ rejected Cases.sweep).
  { intros [e He]. vm_compute in He. discriminate. }
  split; [exact H|].
  exact (proj2 (construct_rejects_iff Cases.sweep) H).
Defined.

(** Scenario S3: keyframes at [t = [0, 1, 1]] are rejected. *)
Example repeated_time_rejected :
  rejected {| length_mm := 1000;
              keyframes := [Cases.kf 0 0; Cases.kf 1 10; Cases.kf 1 20];
              max_speed_mm_s := 120; max_accel_mm_s2 := 300 |}.
Proof. eexists. vm_compute. reflexivity. Qed.

(** C7 (as stated) fails: a speed limit of zero is rejected although
    none of the four reasons holds. *)
Lemma four_reasons_not_exhaustive :
  ~ (forall raw : MotionProfile,
       rejected raw <->
       too_few raw \/ times_not_increasing raw \/ position_outside raw \/
       bezier_arity raw).
Proof.
  intros H. specialize (H Cases.sweep_no_speed).
  assert (Hr : rejected Cases.sweep_no_speed).
  { eexists. vm_compute. reflexivity. }
  apply H in Hr.
  destruct Hr as [Hr|[Hr|[[k [Hin Hk]]|[k [Hin [Hk _]]]]]].
  - unfold too_few in Hr. simpl in Hr. lia.
  - apply Hr. vm_compute. auto.
  - simpl in Hin. destruct Hin as [<-|[<-|[]]]; simpl in Hk; lra.
  - simpl in Hin. destruct Hin as [<-|[<-|[]]]; discriminate.
Qed.

End ValidationClaims.

(** ** The JSON round trip *)

Section RoundTrip.
Import Models Spec.

Lemma strictly_increasing_tail (x : Q) (ts : list Q) :
  strictly_increasing (x :: ts) -> strictly_increasing ts.
Proof. destruct ts as [|y r]; simpl; tauto. Qed.

(** Sorting leaves a list with strictly increasing times as it is. *)
Lemma sort_by_t_increasing (l : list Keyframe) :
  strictly_increasing (map t l) -> sort_by_t l = l.
Proof.
  induction l as [|k rest IH]; intros H; [reflexivity|].
  change (sort_by_t (k :: rest)) with (insert_by_t k (sort_by_t rest)).
  rewrite IH by (apply (strictly_increasing_tail (t k)), H).
  destruct rest as [|h r]; [reflexivity|].
  simpl in H. destruct H as [H _]. simpl.
  destruct (leb_reflect (t k) (t h)); [reflexivity | lra].
Qed.

(** A validated profile passes validation again, unchanged. *)
Lemma construct_valid (profile : MotionProfile) :
  valid profile -> construct profile = Ok profile.
Proof.
  intros [raw Hraw].
  destruct (construct_cases raw)
    as [[E [HL [HS [HA [Hf [Hn [Hi Hp]]]]]]]|[[e Hr] _]]; [|congruence].
  assert (Hp' : profile = sorted_profile raw) by congruence. subst profile.
  assert (Hs : sort_by_t (keyframes (sorted_profile raw))
               = keyframes (sorted_profile raw)).
  { apply sort_by_t_increasing. exact Hi. }
  assert (Hsp : sorted_profile (sorted_profile raw) = sorted_profile raw).
  { unfold sorted_profile at 1. rewrite Hs. reflexivity. }
  destruct (construct_cases (sorted_profile raw)) as [[E' _]|[_ Hrej]].
  { rewrite E'. f_equal. exact Hsp. }
  exfalso. rewrite Forall_forall in Hf, Hp.
  destruct Hrej as [H|[H|[[k [Hin H]]|[[k [Hin H]]|H]]]].
  - unfold too_few in H. simpl in H. rewrite sort_by_t_length in H. lia.
  - unfold times_not_increasing in H. rewrite Hs in H. apply H, Hi.
  - specialize (Hp k Hin). unfold position_inside in Hp. simpl in H. lra.
  - apply (proj1 (sort_by_t_In _ _)) in Hin. apply (Hf k Hin), H.
  - unfold field_constraint in H. simpl in H.
    destruct H as [H|[[k [Hin H]]|[H|H]]]; try lra.
    apply (proj1 (sort_by_t_In _ _)) in Hin.
    destruct (Hf k Hin) as [H' _]. lra.
Qed.

Lemma valid_fields (profile : MotionProfile) :
  valid profile -> Forall keyframe_fields_ok (keyframes profile).
Proof.
  intros H. apply construct_valid in H.
  destruct (construct_cases profile) as [[_ [_ [_ [_ [Hf _]]]]]|[[e Hr] _]];
    [exact Hf | congruence].
Qed.

Lemma parse_floats_numbers (l : list Q) :
  parse_floats (map JNumber l) = Ok l.
Proof. induction l as [|x r IH]; simpl; [reflexivity | rewrite IH; reflexivity]. Qed.

Lemma parse_dump_ease (e : Ease) :
  parse_ease (Some (dump_ease e)) = validate_bezier e.
Proof.
  destruct e as [ty ps]. unfold dump_ease, parse_ease.
  cbn [type p dict_get String.eqb Ascii.eqb Bool.eqb].
  destruct ty; destruct ps as [l|]; cbn [type_name];
    cbn [String.eqb Ascii.eqb Bool.eqb obind];
    rewrite ?parse_floats_numbers; reflexivity.
Qed.

Lemma parse_dump_keyframe (k : Keyframe) :
  keyframe_fields_ok k -> parse_keyframe (dump_keyframe k) = Ok k.
Proof.
  intros [_ Hk]. destruct k as [t_ pos e]. unfold dump_keyframe, parse_keyframe.
  cbn [t pos_mm ease dict_get String.eqb Ascii.eqb Bool.eqb parse_float obind].
  rewrite parse_dump_ease.
  destruct (validate_bezier_cases e) as [[E _]|[_ Hb]].
  - rewrite E. reflexivity.
  - exfalso. apply Hk. exact Hb.
Qed.

Lemma parse_dump_keyframes (kfs : list Keyframe) :
  Forall keyframe_fields_ok kfs ->
  parse_keyframes (map dump_keyframe kfs) = Ok kfs.
Proof.
  induction 1 as [|k rest Hk Hr IH]; cbn [map parse_keyframes]; [reflexivity|].
  rewrite parse_dump_keyframe by exact Hk. cbn [obind]. rewrite IH. reflexivity.
Qed.

(** C9.  For every validated profile, deserialising its JSON form
    through validation yields the profile itself. *)
Theorem json_round_trip (profile : Models.MotionProfile) :
  Spec.valid profile ->
  Models.model_validate (Models.model_dump_json profile) = Ok profile.
Proof.
  intros Hv. unfold model_validate, model_dump_json.
  cbn [dict_get String.eqb Ascii.eqb Bool.eqb parse_float obind].
  rewrite parse_dump_keyframes by (apply valid_fields, Hv).
  cbn [obind]. destruct profile as [len kfs spd acc]. cbn [length_mm keyframes
    max_speed_mm_s max_accel_mm_s2].
  apply (construct_valid _ Hv).
Qed.

Lemma json_round_trip_sweep :
  Spec.valid Cases.sweep /\
  Models.model_validate (Models.model_dump_json Cases.sweep) = Ok Cases.sweep.
Proof.
  assert (Hv : Spec.valid Cases.sweep).
  { exists Cases.sweep. vm_compute. reflexivity. }
  split; [exact Hv | exact (json_round_trip Cases.sweep Hv)].
Defined.

End RoundTrip.

(** ** The planner *)

Section PlannerFacts.
Import Models Spec Planner.

Lemma getitem_Ok {A : Type} (l : list A) (i : nat) (x : A) :
  nth_error l i = Some x -> getitem l i = Ok x.
Proof. unfold getitem. now intros ->. Qed.

Lemma getlast_Ok {A : Type} (l : list A) (x : A) :
  l <> [] -> nth_error l (List.length l - 1) = Some x -> getlast l = Ok x.
Proof. destruct l; [congruence|]. intros _ H. unfold getlast. now apply getitem_Ok. Qed.

Lemma getlast_app {A : Type} (l : list A) (x : A) : getlast (l ++ [x]) = Ok x.
Proof.
  apply getlast_Ok; [now destruct l|].
  rewrite length_app. simpl. replace (List.length l + 1 - 1)%nat with (List.length l) by lia.
  rewrite nth_error_app2 by lia. rewrite Nat.sub_diag. reflexivity.
Qed.

Lemma nth_error_in_range {A : Type} (l : list A) (i : nat) :
  (i < List.length l)%nat -> exists x, nth_error l i = Some x.
Proof.
  intros H. destruct (nth_error l i) eqn:E; eauto.
  apply nth_error_None in E. lia.
Qed.

Lemma increasing_from_nth (ts : list Q) :
  forall last i x, increasing_from last ts -> nth_error ts i = Some x -> last < x.
Proof.
  induction ts as [|y r IH]; intros last i x H Hx.
  - destruct i; discriminate.
  - destruct H as [H1 H2]. destruct i as [|i]; simpl in Hx.
    + now inversion Hx; subst.
    + specialize (IH y i x H2 Hx). lra.
Qed.

Lemma strictly_increasing_nth (ts : list Q) :
  forall i j a b, strictly_increasing ts -> (i < j)%nat ->
  nth_error ts i = Some a -> nth_error ts j = Some b -> a < b.
Proof.
  induction ts as [|y r IH]; intros i j a b H Hij Ha Hb.
  - destruct i; discriminate.
  - destruct j as [|j]; [lia|]. simpl in Hb. destruct i as [|i]; simpl in Ha.
    + inversion Ha; subst. eapply increasing_from_nth; eauto.
    + apply (IH i j a b); auto; try lia.
      now apply (strictly_increasing_tail y).
Qed.

Lemma keyframes_increasing (kfs : list Keyframe) (i j : nat) (a b : Keyframe) :
  strictly_increasing (map t kfs) -> (i < j)%nat ->
  nth_error kfs i = Some a -> nth_error kfs j = Some b -> t a < t b.
Proof.
  intros H Hij Ha Hb.
  apply (strictly_increasing_nth (map t kfs) i j); auto;
    rewrite nth_error_map; [rewrite Ha | rewrite Hb]; reflexivity.
Qed.

(** What validation guarantees about a profile. *)
Lemma valid_facts (profile : MotionProfile) :
  valid profile ->
  (2 <= List.length (keyframes profile))%nat /\
  strictly_increasing (map t (keyframes profile)) /\
  Forall keyframe_fields_ok (keyframes profile) /\
  Forall (position_inside (length_mm profile)) (keyframes profile).
Proof.
  intros Hv. pose proof (construct_valid _ Hv) as E.
  destruct (construct_cases profile)
    as [[E' [_ [_ [_ [Hf [Hn [Hi Hp]]]]]]]|[[e Hr] _]]; [|congruence].
  assert (Hs : sort_by_t (keyframes profile) = keyframes profile).
  { rewrite E in E'. injection E' as E''.
    apply (f_equal keyframes) in E''. simpl in E''. now symmetry. }
  rewrite Hs in Hi, Hp. auto.
Qed.

(** The easing function of a well-formed keyframe. *)
Lemma ease_fn_ok (k : Keyframe) :
  keyframe_fields_ok k ->
  exists f, _ease_fn k = Ok f /\
            (forall u, u <= 0 -> f u = 0) /\
            (forall u, 1 <= u -> f u = 1) /\
            (ease_bounded k -> forall u, 0 <= f u <= 1).
Proof.
  intros [_ Hk]. unfold _ease_fn, ease_bounded.
  destruct (type (ease k)) eqn:Ety.
  - exists Easing.linear. repeat split.
    + intros u Hu. unfold Easing.linear. destruct (leb_reflect u 0); [reflexivity|lra].
    + intros u Hu. unfold Easing.linear.
      destruct (leb_reflect u 0); [lra|]. destruct (leb_reflect 1 u); [reflexivity|lra].
    + apply linear_range.
    + apply linear_range.
  - destruct (p (ease k)) as [[|x1 [|y1 [|x2 [|y2 [|z r]]]]]|] eqn:Ep;
      try (exfalso; apply Hk; split; [reflexivity | simpl; lia]).
    eexists. split; [reflexivity|].
    set (cb := {| Easing.p1x := x1; Easing.p1y := y1;
                  Easing.p2x := x2; Easing.p2y := y2 |}).
    repeat split.
    + intros u Hu. now apply (sample_at_ends cb u).
    + intros u Hu. now apply (sample_at_ends cb u).
    + apply (sample_range cb u); simpl; tauto.
    + apply (sample_range cb u); simpl; tauto.
Qed.

(** The normalised time of a sample in the segment from [a] to [b]. *)
Lemma normalised_time (a b t_ : Q) :
  a < b ->
  let u := if Py.eqb b a then 0 else (t_ - a) / (b - a) in
  let u := if Py.ltb u 0 then 0 else if Py.ltb 1 u then 1 else u in
  0 <= u <= 1 /\ (t_ <= a -> u <= 0) /\ (b <= t_ -> 1 <= u).
Proof.
  intros Hab. cbv zeta.
  destruct (eqb_reflect b a) as [E|_]; [lra|].
  set (r := (t_ - a) / (b - a)).
  assert (Hr : r * (b - a) == t_ - a).
  { unfold r. field. lra. }
  assert (Hd : 0 < b - a) by lra.
  destruct (ltb_reflect r 0) as [H0|H0]; [repeat split; try lra|].
  - intros H. nra.
  - destruct (ltb_reflect 1 r) as [H1|H1]; repeat split; try lra.
    + intros H. nra.
    + intros H. nra.
    + intros H. nra.
Qed.

End PlannerFacts.

Section SamplingLoop.
Import Models Spec Planner.
Variable kfs : list Keyframe.
Hypothesis enough : (2 <= List.length kfs)%nat.
Hypothesis increasing : strictly_increasing (map t kfs).
Hypothesis fields : Forall keyframe_fields_ok kfs.

Lemma advance_seg_eq (t_ : Q) (n seg : nat) :
  advance_seg kfs t_ n seg =
  if (seg <? List.length kfs - 2)%nat
  then
    (k <- getitem kfs (seg + 1) ;;
     if Py.ltb (t k) t_
     then match n with
          | O => Diverge
          | S n' => advance_seg kfs t_ n' (seg + 1)
          end
     else Ok seg)%outcome
  else Ok seg.
Proof. destruct n; reflexivity. Qed.

(** The inner loop stops within its budget, on the segment to use. *)
Lemma advance_seg_ok (t_ : Q) :
  forall fuel seg,
  (seg + 2 <= List.length kfs)%nat ->
  (List.length kfs - 2 - seg <= fuel)%nat ->
  exists seg',
    advance_seg kfs t_ fuel seg = Ok seg' /\
    (seg <= seg')%nat /\ (seg' + 2 <= List.length kfs)%nat /\
    ((seg' + 2 < List.length kfs)%nat ->
     forall k1, nth_error kfs (S seg') = Some k1 -> t_ <= t k1) /\
    (seg' = seg \/ forall k0, nth_error kfs seg' = Some k0 -> t k0 < t_).
Proof.
  induction fuel as [|fuel IH]; intros seg Hseg Hfuel; rewrite advance_seg_eq.
  - destruct (Nat.ltb_spec seg (List.length kfs - 2)); [lia|].
    exists seg. repeat split; auto; lia.
  - destruct (Nat.ltb_spec seg (List.length kfs - 2)) as [Hlt|Hge].
    2:{ exists seg. repeat split; auto; lia. }
    destruct (nth_error_in_range kfs (seg + 1)) as [k Hk]; [lia|].
    rewrite (getitem_Ok _ _ _ Hk). cbn [obind].
    destruct (ltb_reflect (t k) t_) as [Hadv|Hstay].
    + destruct (IH (seg + 1)%nat) as [seg' [E [H1 [H2 [H3 H4]]]]]; try lia.
      exists seg'. repeat split; auto; try lia.
      right. destruct H4 as [->|H4]; auto.
      intros k0 Hk0. congruence.
    + exists seg. repeat split; auto; try lia.
      intros _ k1 Hk1. replace (S seg) with (seg + 1)%nat in Hk1 by lia.
      assert (k1 = k) by congruence. subst. lra.
Qed.

Lemma stepped_increasing (dt bound : Q) (times : list Q) :
  0 < dt ->
  forall t_ last, last < t_ -> stepped dt bound t_ times ->
  increasing_from last times /\ Forall (fun x => t_ <= x <= bound) times.
Proof.
  intros Hdt. induction times as [|x r IH]; intros t_ last Hl H; simpl in *.
  - auto.
  - destruct H as [-> [Hb H]].
    destruct (IH (t_ + dt) t_) as [Hi Hf]; auto; try lra.
    repeat split; auto. constructor; [lra|].
    eapply Forall_impl; [|exact Hf]. simpl. intros a Ha. lra.
Qed.

(** The sampling loop with enough fuel: it returns, the times advance by
    [dt], and every sample is computed in the segment reached. *)
Lemma sample_loop_ok (total_t dt : Q) :
  0 < dt ->
  forall fuel seg t_,
  (seg + 2 <= List.length kfs)%nat ->
  (seg = 0%nat \/ forall k0, nth_error kfs seg = Some k0 -> t k0 < t_) ->
  total_t + (1 # 1000000000) < t_ + inject_Z (Z.of_nat fuel) * dt ->
  exists times pos,
    sample_loop kfs fuel total_t dt seg t_ = Ok (times, pos) /\
    stepped dt (total_t + (1 # 1000000000)) t_ times /\
    Forall2 (sample_at kfs) times pos.
Proof.
  intros Hdt. induction fuel as [|fuel IH]; intros seg t_ Hseg Hinv Hfuel.
  - exists [], []. cbn [sample_loop stepped].
    change (inject_Z (Z.of_nat 0)) with 0 in Hfuel.
    destruct (leb_reflect t_ (total_t + (1 # 1000000000))); [lra|].
    repeat split; auto. lra.
  - cbn [sample_loop].
    destruct (leb_reflect t_ (total_t + (1 # 1000000000))) as [Hle|Hgt].
    2:{ exists [], []. repeat split; auto. simpl. lra. }
    destruct (advance_seg_ok t_ (List.length kfs) seg)
      as [seg' [E [H1 [H2 [H3 H4]]]]]; auto; try lia.
    rewrite E. cbn [obind].
    destruct (nth_error_in_range kfs seg') as [k0 Hk0]; [lia|].
    destruct (nth_error_in_range kfs (seg' + 1)) as [k1 Hk1]; [lia|].
    rewrite (getitem_Ok _ _ _ Hk0), (getitem_Ok _ _ _ Hk1). cbn [obind].
    assert (Hk1' : nth_error kfs (S seg') = Some k1).
    { replace (S seg') with (seg' + 1)%nat by lia. exact Hk1. }
    assert (Ht01 : t k0 < t k1).
    { apply (keyframes_increasing kfs seg' (S seg')); auto. }
    assert (Hf1 : keyframe_fields_ok k1).
    { rewrite Forall_forall in fields. apply fields.
      eapply nth_error_In; eauto. }
    destruct (ease_fn_ok k1 Hf1) as [f [Ef [Hf0 [Hfone Hfb]]]].
    rewrite Ef. cbn [obind].
    destruct (normalised_time (t k0) (t k1) t_ Ht01) as [Hu [Hu0 Hu1]].
    cbv zeta in Hu, Hu0, Hu1.
    set (u := if Py.ltb (if Py.eqb (t k1) (t k0) then 0
                         else (t_ - t k0) / (t k1 - t k0)) 0 then 0
              else if Py.ltb 1 (if Py.eqb (t k1) (t k0) then 0
                                else (t_ - t k0) / (t k1 - t k0)) then 1
              else (if Py.eqb (t k1) (t k0) then 0
                    else (t_ - t k0) / (t k1 - t k0))) in *.
    destruct (IH seg' (t_ + dt)) as [times [pos [El [Hst Hall]]]]; auto.
    { destruct H4 as [->|H4].
      - destruct Hinv as [Hinv|Hinv]; auto. right. intros k Hk.
        specialize (Hinv k Hk). lra.
      - right. intros k Hk. specialize (H4 k Hk). lra. }
    { rewrite Nat2Z.inj_succ, <- Z.add_1_r, inject_Z_plus in Hfuel.
      change (inject_Z 1) with 1 in Hfuel. lra. }
    rewrite El. cbn [obind].
    exists (t_ :: times), (pos_mm k0 + (pos_mm k1 - pos_mm k0) * f u :: pos).
    split; [reflexivity|]. split; [simpl; auto|].
    constructor; auto.
    exists seg', k0, k1, (f u).
    split; [exact Hk0|]. split; [exact Hk1'|]. split; [reflexivity|].
    split.
    { destruct H4 as [->|H4].
      - destruct Hinv as [Hinv|Hinv]; auto.
      - right. auto. }
    split; [intros Hlt; apply H3; auto|].
    split; [intros H; apply Hf0; auto|].
    split; [intros H; apply Hfone; auto|].
    intros H. apply Hfb; auto.
Qed.

(** More fuel does not change a result. *)
Lemma sample_loop_fuel_mono (total_t dt : Q) :
  forall fuel fuel' seg t_ r,
  (fuel <= fuel')%nat ->
  sample_loop kfs fuel total_t dt seg t_ = Ok r ->
  sample_loop kfs fuel' total_t dt seg t_ = Ok r.
Proof using Type.
  clear enough increasing fields.
  induction fuel as [|fuel IH]; intros fuel' seg t_ r Hle H.
  - simpl in H. destruct fuel'; simpl;
      destruct (Py.leb t_ (total_t + (1 # 1000000000))); congruence.
  - destruct fuel' as [|fuel']; [lia|]. cbn [sample_loop] in *.
    destruct (Py.leb t_ (total_t + (1 # 1000000000))); [|exact H].
    destruct (advance_seg kfs t_ (List.length kfs) seg) as [seg'| |];
      cbn [obind] in *; try discriminate.
    destruct (getitem kfs seg') as [k0| |]; cbn [obind] in *; try discriminate.
    destruct (getitem kfs (seg' + 1)) as [k1| |]; cbn [obind] in *; try discriminate.
    destruct (_ease_fn k1) as [f| |]; cbn [obind] in *; try discriminate.
    destruct (sample_loop kfs fuel total_t dt seg' (t_ + dt)) as [[ts ps]| |] eqn:E;
      cbn [obind] in *; try discriminate.
    rewrite (IH fuel' seg' (t_ + dt) (ts, ps)); auto. lia.
Qed.

End SamplingLoop.

Section SamplingResult.
Import Models Spec Planner.

Lemma nth_error_last {A : Type} (l : list A) (d : A) :
  l <> [] -> nth_error l (List.length l - 1) = Some (last l d).
Proof.
  induction l as [|x r IH]; [congruence|]. intros _.
  destruct r as [|y r']; [reflexivity|].
  change (last (x :: y :: r') d) with (last (y :: r') d).
  rewrite <- IH by discriminate. simpl. rewrite Nat.sub_0_r. reflexivity.
Qed.

Lemma getlast_last {A : Type} (l : list A) (d : A) :
  l <> [] -> getlast l = Ok (last l d).
Proof. intros H. apply getlast_Ok; auto. now apply nth_error_last. Qed.

Lemma Forall2_last {A B : Type} (P : A -> B -> Prop) (l1 : list A) (l2 : list B)
      (d1 : A) (d2 : B) :
  Forall2 P l1 l2 -> l1 <> [] -> P (last l1 d1) (last l2 d2).
Proof.
  induction 1 as [|x y r1 r2 Hxy Hr IH]; [congruence|]. intros _.
  destruct Hr as [|x' y' r1' r2' Hxy' Hr']; [exact Hxy|].
  change (P (last (x' :: r1') d1) (last (y' :: r2') d2)).
  apply IH. discriminate.
Qed.

Lemma last_default {A : Type} (l : list A) (d1 d2 : A) :
  l <> [] -> last l d1 = last l d2.
Proof.
  induction l as [|x r IH]; [congruence|]. intros _.
  destruct r as [|y r']; [reflexivity|].
  change (last (y :: r') d1 = last (y :: r') d2). apply IH. discriminate.
Qed.

Lemma increasing_from_snoc (ts : list Q) (x : Q) :
  forall lo, increasing_from lo ts -> last ts lo < x ->
  increasing_from lo (ts ++ [x]).
Proof.
  induction ts as [|y r IH]; intros lo H Hx.
  - simpl in *. auto.
  - destruct H as [H1 H2]. cbn [app increasing_from]. split; auto. apply IH; auto.
    destruct r as [|z r']; [exact Hx|].
    rewrite (last_default (z :: r') y lo) by discriminate. exact Hx.
Qed.

Lemma between_eased (a b v : Q) :
  0 <= v <= 1 ->
  Py.min a b <= a + (b - a) * v <= Py.max a b.
Proof.
  intros Hv.
  destruct (min_cases a b) as [[H1 ->]|[H1 ->]];
    destruct (max_cases a b) as [[H2 ->]|[H2 ->]]; split; nra.
Qed.

Lemma between_endpoint (a b : Q) :
  Py.min a b <= b <= Py.max a b /\ Py.min a b <= a <= Py.max a b.
Proof.
  destruct (min_cases a b) as [[H1 ->]|[H1 ->]];
    destruct (max_cases a b) as [[H2 ->]|[H2 ->]]; repeat split; lra.
Qed.

Lemma inside_between (len a b y : Q) :
  0 <= a <= len -> 0 <= b <= len ->
  Py.min a b <= y <= Py.max a b -> 0 <= y <= len.
Proof.
  intros Ha Hb.
  destruct (min_cases a b) as [[H1 ->]|[H1 ->]];
    destruct (max_cases a b) as [[H2 ->]|[H2 ->]]; lra.
Qed.

Variable profile : MotionProfile.
Hypothesis Hvalid : valid profile.

Let kfs := keyframes profile.

Lemma position_inside_nth (i : nat) (k : Keyframe) :
  nth_error kfs i = Some k -> 0 <= pos_mm k <= length_mm profile.
Proof.
  intros H. destruct (valid_facts profile Hvalid) as [_ [_ [_ Hp]]].
  rewrite Forall_forall in Hp. apply (Hp k). eapply nth_error_In; eauto.
Qed.

(** The last keyframe, and the total time. *)
Lemma last_keyframe :
  exists klast,
    nth_error kfs (List.length kfs - 1) = Some klast /\
    getlast kfs = Ok klast /\ 0 < t klast /\
    total_time kfs = Ok (t klast).
Proof.
  destruct (valid_facts profile Hvalid) as [Hn [Hi [Hf _]]]. fold kfs in Hn, Hi, Hf.
  destruct (nth_error_in_range kfs (List.length kfs - 1)%nat) as [kl Hkl]; [lia|].
  destruct (nth_error_in_range kfs 0%nat) as [k0 Hk0]; [lia|].
  assert (H0 : 0 <= t k0).
  { rewrite Forall_forall in Hf. apply (Hf k0). eapply nth_error_In; eauto. }
  assert (Hlt : t k0 < t kl).
  { apply (keyframes_increasing kfs 0%nat (List.length kfs - 1)%nat); auto. lia. }
  assert (El : getlast kfs = Ok kl).
  { apply getlast_Ok; auto. intros E. rewrite E in Hn. simpl in Hn. lia. }
  exists kl. repeat split; auto; try lra.
  unfold total_time. rewrite El. cbn [obind].
  destruct (leb_reflect (t kl) 0); [lra | reflexivity].
Qed.

(** A sample taken at or after the last keyframe's time is at its
    position. *)
Lemma sample_at_end (klast : Keyframe) (t_ y : Q) :
  nth_error kfs (List.length kfs - 1) = Some klast ->
  sample_at kfs t_ y -> t klast <= t_ -> y == pos_mm klast.
Proof.
  intros Hkl [seg [k0 [k1 [v [Hk0 [Hk1 [Hy [_ [Hsel [_ [Hv1 _]]]]]]]]]]] Ht.
  destruct (valid_facts profile Hvalid) as [Hn [Hi _]]. fold kfs in Hn, Hi.
  assert (Hs : (S seg < List.length kfs)%nat).
  { apply nth_error_Some. congruence. }
  destruct (Nat.eq_dec (seg + 2)%nat (List.length kfs)) as [E|E].
  - replace (List.length kfs - 1)%nat with (S seg) in Hkl by lia.
    assert (k1 = klast) by congruence. subst k1.
    rewrite Hy, (Hv1 Ht). ring.
  - assert (Hlt : t k1 < t klast).
    { apply (keyframes_increasing kfs (S seg) (List.length kfs - 1)%nat); auto. lia. }
    assert (t_ <= t k1) by (apply Hsel; lia). lra.
Qed.

(** A sample computed with a bounded ease lies within every segment that
    contains its time. *)
Lemma sample_at_within (t_ y : Q) :
  Forall ease_bounded kfs -> sample_at kfs t_ y -> sample_within profile t_ y.
Proof.
  intros Hb [seg [k0 [k1 [v [Hk0 [Hk1 [Hy [Hsel0 [Hsel1 [Hv0 [Hv1 Hvb]]]]]]]]]]].
  destruct (valid_facts profile Hvalid) as [Hn [Hi _]]. fold kfs in Hn, Hi.
  assert (Hb1 : ease_bounded k1).
  { rewrite Forall_forall in Hb. apply Hb. eapply nth_error_In; eauto. }
  specialize (Hvb Hb1).
  assert (Hseg : Py.min (pos_mm k0) (pos_mm k1) <= y <= Py.max (pos_mm k0) (pos_mm k1)).
  { rewrite Hy. now apply between_eased. }
  split.
  - intros i ka kb Hka Hkb Ht.
    change (nth_error kfs i = Some ka) in Hka.
    change (nth_error kfs (S i) = Some kb) in Hkb.
    destruct (lt_eq_lt_dec i seg) as [[Hlt|Heq]|Hgt].
    + exfalso. destruct Hsel0 as [->|Hsel0]; [lia|].
      assert (t kb <= t k0).
      { destruct (Nat.eq_dec (S i) seg) as [E|E].
        - rewrite E in Hkb. assert (kb = k0) by congruence. subst. lra.
        - apply Qlt_le_weak.
          apply (keyframes_increasing kfs (S i) seg); auto. lia. }
      lra.
    + subst i. assert (ka = k0) by congruence. assert (kb = k1) by congruence.
      subst. exact Hseg.
    + assert (Hi1 : (S i < List.length kfs)%nat).
      { apply nth_error_Some. congruence. }
      assert (H1 : t_ <= t k1) by (apply Hsel1; lia).
      destruct (Nat.eq_dec i (S seg)) as [E|E].
      * subst i. assert (ka = k1) by congruence. subst ka.
        assert (Hv : v = 1) by (apply Hv1; lra).
        assert (Ey : y == pos_mm k1) by (rewrite Hy, Hv; ring).
        rewrite Ey. apply between_endpoint.
      * exfalso.
        assert (t k1 < t ka).
        { apply (keyframes_increasing kfs (S seg) i); auto. lia. }
        lra.
  - apply (inside_between _ (pos_mm k0) (pos_mm k1)); auto.
    + apply (position_inside_nth seg); auto.
    + apply (position_inside_nth (S seg)); auto.
Qed.

(** The sample appended at the last keyframe. *)
Lemma last_keyframe_within (klast : Keyframe) :
  nth_error kfs (List.length kfs - 1) = Some klast ->
  sample_within profile (t klast) (pos_mm klast).
Proof.
  intros Hkl.
  destruct (valid_facts profile Hvalid) as [Hn [Hi _]]. fold kfs in Hn, Hi.
  split.
  - intros i ka kb Hka Hkb Ht.
    change (nth_error kfs i = Some ka) in Hka.
    change (nth_error kfs (S i) = Some kb) in Hkb.
    assert (Hi1 : (S i < List.length kfs)%nat).
    { apply nth_error_Some. congruence. }
    destruct (Nat.eq_dec (S i) (List.length kfs - 1)%nat) as [E|E].
    + rewrite E in Hkb. assert (kb = klast) by congruence.
      subst kb. apply between_endpoint.
    + exfalso.
      assert (t kb < t klast).
      { apply (keyframes_increasing kfs (S i) (List.length kfs - 1)%nat); auto. lia. }
      lra.
  - apply (position_inside_nth (List.length kfs - 1)%nat); auto.
Qed.

Variable dt : Q.
Hypothesis Hdt : 0 < dt.

Lemma sample_fuel_enough (klast : Keyframe) :
  total_time kfs = Ok (t klast) -> 0 < t klast ->
  t klast + (1 # 1000000000)
  < 0 + inject_Z (Z.of_nat (sample_fuel profile dt)) * dt.
Proof.
  intros Et Hpos. unfold sample_fuel. fold kfs. rewrite Et.
  set (x := (t klast + (1 # 1000000000)) / dt).
  assert (Hx : 0 <= x).
  { unfold x. apply Qle_shift_div_l; lra. }
  assert (Hfl : (0 <= Qfloor x)%Z).
  { change 0%Z with (Qfloor 0). now apply Qfloor_resp_le. }
  rewrite Z.max_r by lia. rewrite Z2Nat.id by lia.
  pose proof (Qlt_floor x) as Hlt.
  assert (Hm : x * dt == t klast + (1 # 1000000000)).
  { unfold x. field. lra. }
  nra.
Qed.

(** The loop of [sample_profile] and what it returns. *)
Lemma sample_profile_ok :
  exists klast times pos tl,
    nth_error kfs (List.length kfs - 1) = Some klast /\
    getlast kfs = Ok klast /\
    sample_loop kfs (sample_fuel profile dt) (t klast) dt 0 0 = Ok (times, pos) /\
    stepped dt (t klast + (1 # 1000000000)) 0 times /\
    Forall2 (sample_at kfs) times pos /\
    times <> [] /\ tl = last times 0 /\
    sample_profile profile dt =
    Ok (if Py.ltb tl (t klast)
        then (times ++ [t klast], pos ++ [pos_mm klast])
        else (times, pos)).
Proof.
  destruct last_keyframe as [klast [Hkl [El [Hpos Et]]]].
  destruct (valid_facts profile Hvalid) as [Hn [Hi [Hf _]]]. fold kfs in Hn, Hi, Hf.
  destruct (sample_loop_ok kfs Hn Hi Hf (t klast) dt Hdt
              (sample_fuel profile dt) 0%nat 0)
    as [times [pos [E [Hst Hall]]]]; auto; try lia.
  { now apply sample_fuel_enough. }
  assert (Hne : times <> []).
  { intros ->. simpl in Hst. lra. }
  exists klast, times, pos, (last times 0).
  repeat split; auto.
  unfold sample_profile, sample_profile_fuel. fold kfs.
  rewrite Et. cbn [obind]. rewrite E. cbn [obind].
  rewrite (getlast_last times 0 Hne). cbn [obind]. rewrite El. cbn [obind].
  destruct (Py.ltb (last times 0) (t klast)); reflexivity.
Qed.

End SamplingResult.

Section PlannerClaims.
Import Models Spec Planner.

(** The last sample of [sample_profile] on a valid profile. *)
Lemma sample_profile_last (profile : MotionProfile) (dt : Q) :
  valid profile -> 0 < dt ->
  exists times pos klast tl pl,
    sample_profile profile dt = Ok (times, pos) /\
    List.length times = List.length pos /\
    getlast (keyframes profile) = Ok klast /\
    getlast times = Ok tl /\ getlast pos = Ok pl /\
    t klast <= tl /\ pl == pos_mm klast.
Proof.
  intros Hv Hdt.
  destruct (sample_profile_ok profile Hv dt Hdt)
    as [klast [times [pos [tl [Hkl [El [E [Hst [Hall [Hne [Htl Es]]]]]]]]]]].
  assert (Hlen : List.length times = List.length pos).
  { eapply Forall2_length; eauto. }
  assert (Hpne : pos <> []).
  { intros ->. destruct times; [congruence | discriminate]. }
  destruct (ltb_reflect tl (t klast)) as [Hlt|Hge].
  - exists (times ++ [t klast]), (pos ++ [pos_mm klast]), klast,
           (t klast), (pos_mm klast).
    split; [exact Es|].
    split; [rewrite !length_app, Hlen; reflexivity|].
    split; [exact El|].
    split; [apply getlast_app|]. split; [apply getlast_app|].
    split; [lra | reflexivity].
  - exists times, pos, klast, tl, (last pos 0).
    split; [exact Es|]. split; [exact Hlen|]. split; [exact El|].
    split; [rewrite Htl; now apply getlast_last|].
    split; [now apply getlast_last|].
    split; [lra|].
    apply (sample_at_end profile Hv klast tl); auto; try lra.
    rewrite Htl. apply Forall2_last; auto.
Qed.

(** With exact arithmetic in place of binary64: for every valid profile
    and every [dt > 0], [sample_profile] returns (its loop ends, and
    more fuel gives the same result) two lists of equal length, the
    times strictly increasing, the last time at least the last
    keyframe's time and the last position equal to the last keyframe's
    position.  In binary64 the last position is that keyframe's only up
    to rounding, as the runs of [Planner64] on [Doubles.rise] show. *)
Lemma exact_sample_profile_shape (profile : MotionProfile) (dt : Q) :
  valid profile -> 0 < dt ->
  exists times pos klast tl pl,
    sample_profile profile dt = Ok (times, pos) /\
    (forall fuel, (sample_fuel profile dt <= fuel)%nat ->
                  sample_profile_fuel fuel profile dt = Ok (times, pos)) /\
    List.length times = List.length pos /\
    strictly_increasing times /\
    getlast (keyframes profile) = Ok klast /\
    getlast times = Ok tl /\ getlast pos = Ok pl /\
    t klast <= tl /\ pl == pos_mm klast.
Proof.
  intros Hv Hdt.
  destruct (sample_profile_last profile dt Hv Hdt)
    as [times [pos [klast [tl [pl [Es [Hlen [El [Etl [Epl [Hge Hpl]]]]]]]]]]].
  exists times, pos, klast, tl, pl.
  split; [exact Es|].
  destruct (sample_profile_ok profile Hv dt Hdt)
    as [klast' [times0 [pos0 [tl0 [Hkl [El' [E [Hst [Hall [Hne [Htl Es']]]]]]]]]]].
  assert (klast' = klast) by congruence. subst klast'.
  destruct (last_keyframe profile Hv) as [kl' [Hkl' [El'' [Hpos Et]]]].
  assert (kl' = klast) by congruence. subst kl'.
  split.
  { intros fuel Hle. unfold sample_profile_fuel. rewrite Et. cbn [obind].
    rewrite (sample_loop_fuel_mono (keyframes profile) (t klast) dt
               (sample_fuel profile dt) fuel 0%nat 0 (times0, pos0) Hle E).
    rewrite <- Es. unfold sample_profile, sample_profile_fuel.
    rewrite Et. cbn [obind]. rewrite E. reflexivity. }
  split; [exact Hlen|].
  split; [|repeat split; auto].
  rewrite Es in Es'.
  destruct times0 as [|x r]; [congruence|].
  destruct Hst as [-> [_ Hst]].
  destruct (stepped_increasing dt (t klast + (1 # 1000000000)) r Hdt (0 + dt) 0)
    as [Hi _]; auto; try lra.
  destruct (ltb_reflect tl0 (t klast)) as [Hlt|Hnlt];
    injection Es' as -> _.
  - cbn [app strictly_increasing]. apply increasing_from_snoc; auto.
    rewrite Htl in Hlt. destruct r as [|y r']; exact Hlt.
  - exact Hi.
Qed.

Lemma exact_sample_profile_shape_sweep :
  valid Cases.sweep /\ 0 < (1 # 2) /\
  exists times pos klast tl pl,
    sample_profile Cases.sweep (1 # 2) = Ok (times, pos) /\
    (forall fuel, (sample_fuel Cases.sweep (1 # 2) <= fuel)%nat ->
                  sample_profile_fuel fuel Cases.sweep (1 # 2) = Ok (times, pos)) /\
    List.length times = List.length pos /\
    strictly_increasing times /\
    getlast (keyframes Cases.sweep) = Ok klast /\
    getlast times = Ok tl /\ getlast pos = Ok pl /\
    t klast <= tl /\ pl == pos_mm klast.
Proof.
  assert (Hv : valid Cases.sweep).
  { exists Cases.sweep. vm_compute. reflexivity. }
  assert (Hdt : 0 < (1 # 2)) by reflexivity.
  split; [exact Hv|]. split; [exact Hdt|].
  exact (exact_sample_profile_shape Cases.sweep (1 # 2) Hv Hdt).
Defined.

(** Scenario S1: the linear sweep sampled every 20 ms. *)
Example sweep_sampled :
  exists times pos,
    sample_profile Cases.sweep (1 # 50) = Ok (times, pos) /\
    List.length times = 101%nat /\
    (exists t0, nth_error times 0 = Some t0 /\ t0 == 0) /\
    (exists tl, getlast times = Ok tl /\ tl == 2) /\
    (exists pl, getlast pos = Ok pl /\ pl == 100) /\
    (exists pm, nth_error pos 50 = Some pm /\ pm == 50).
Proof.
  destruct (sample_profile Cases.sweep (1 # 50)) as [[times pos]| |] eqn:E;
    vm_compute in E; try discriminate.
  injection E as <- <-.
  eexists _, _. split; [reflexivity|].
  split; [reflexivity|].
  repeat split; eexists; (split; [vm_compute; reflexivity | reflexivity]).
Qed.

(** With exact arithmetic in place of binary64: for every valid profile
    whose eases are linear or cubic-bezier with [y1] and [y2] in
    [[0, 1]], and every [dt > 0], each sample lies, for every keyframe
    segment containing its time, between the positions of the segment's
    keyframes, and hence in [[0, length_mm]].  In binary64 the bound
    holds up to rounding ([sampled_positions_binary64] below). *)
Lemma exact_positions_within (profile : MotionProfile) (dt : Q) :
  valid profile -> 0 < dt -> Forall ease_bounded (keyframes profile) ->
  exists times pos,
    sample_profile profile dt = Ok (times, pos) /\
    Forall2 (sample_within profile) times pos.
Proof.
  intros Hv Hdt Hb.
  destruct (sample_profile_ok profile Hv dt Hdt)
    as [klast [times [pos [tl [Hkl [El [E [Hst [Hall [Hne [Htl Es]]]]]]]]]]].
  assert (Hw : Forall2 (sample_within profile) times pos).
  { eapply Forall2_impl; [|exact Hall]. intros a b Hab.
    now apply sample_at_within. }
  destruct (Py.ltb tl (t klast)).
  - eexists _, _. split; [exact Es|].
    apply Forall2_app; auto. constructor; auto.
    now apply last_keyframe_within.
  - eexists _, _. split; [exact Es | exact Hw].
Qed.

Lemma exact_positions_within_sweep :
  valid Cases.sweep /\ 0 < (1 # 2) /\
  Forall ease_bounded (keyframes Cases.sweep) /\
  exists times pos,
    sample_profile Cases.sweep (1 # 2) = Ok (times, pos) /\
    Forall2 (sample_within Cases.sweep) times pos.
Proof.
  assert (Hv : valid Cases.sweep).
  { exists Cases.sweep. vm_compute. reflexivity. }
  assert (Hdt : 0 < (1 # 2)) by reflexivity.
  assert (Hb : Forall ease_bounded (keyframes Cases.sweep)).
  { repeat constructor. }
  split; [exact Hv|]. split; [exact Hdt|]. split; [exact Hb|].
  exact (exact_positions_within Cases.sweep (1 # 2) Hv Hdt Hb).
Defined.


Example dip_sampled :
  exists times pos y,
    sample_profile Cases.dip (1 # 2) = Ok (times, pos) /\
    nth_error pos 1 = Some y /\ y == -25.
Proof.
  destruct (sample_profile Cases.dip (1 # 2)) as [[times pos]| |] eqn:E;
    vm_compute in E; try discriminate.
  injection E as <- <-.
  eexists _, _, _. split; [reflexivity|]. split; reflexivity.
Qed.

End PlannerClaims.

(** ** The worker *)

Section WorkerRules.
Import Controller Logic.
Variable cfg : Config.SliderConfig.
Variable env : Env.

Lemma returns_eval {A : Type} (m : M A) (w w' : World) (a : A)
      (post : A -> World -> Prop) :
  m w = (Ok a, w') -> post a w' -> returns m w post.
Proof. intros E H. exists a, w'. auto. Qed.

Lemma returns_ret {A : Type} (a : A) (w : World) (post : A -> World -> Prop) :
  post a w -> returns (ret a) w post.
Proof. intros H. exists a, w. auto. Qed.

Lemma returns_bind {A B : Type} (m : M A) (k : A -> M B) (w : World)
      (post : B -> World -> Prop) :
  returns m w (fun a w' => returns (k a) w' post) ->
  returns (bind m k) w post.
Proof.
  intros [a [w' [E [b [w'' [E' H]]]]]]. exists b, w''. split; auto.
  unfold bind. rewrite E. exact E'.
Qed.

Lemma returns_weaken {A : Type} (m : M A) (w : World)
      (post post' : A -> World -> Prop) :
  returns m w post -> (forall a w', post a w' -> post' a w') ->
  returns m w post'.
Proof. intros [a [w' [E H]]] Himp. exists a, w'. auto. Qed.

Lemma returns_modify (f : World -> World) (w : World)
      (post : unit -> World -> Prop) :
  post tt (f w) -> returns (modify f) w post.
Proof. intros H. exists tt, (f w). auto. Qed.

Lemma returns_get {A : Type} (f : World -> A) (w : World)
      (post : A -> World -> Prop) :
  post (f w) w -> returns (get f) w post.
Proof. intros H. exists (f w), w. auto. Qed.

Lemma returns_lift {A : Type} (o : outcome A) (a : A) (w : World)
      (post : A -> World -> Prop) :
  o = Ok a -> post a w -> returns (lift o) w post.
Proof. intros -> H. exists a, w. auto. Qed.

Lemma returns_external (op : Op) (w : World) (post : unit -> World -> Prop) :
  fault env (tick w) op = None ->
  post tt (elapse env w) -> returns (external env op) w post.
Proof.
  intros Hf H. exists tt, (elapse env w). split; auto.
  unfold external. rewrite Hf. reflexivity.
Qed.

Lemma returns_is_set (w : World) (post : bool -> World -> Prop) :
  post (stop_event (elapse env w)) (elapse env w) ->
  returns (is_set env) w post.
Proof. intros H. eexists _, _. split; [reflexivity | exact H]. Qed.

Lemma returns_perf_counter (w : World) (post : Q -> World -> Prop) :
  post (clock env (tick w)) (elapse env w) ->
  returns (perf_counter env) w post.
Proof. intros H. eexists _, _. split; [reflexivity | exact H]. Qed.

Lemma returns_sleep (secs : Q) (w : World) (post : unit -> World -> Prop) :
  0 <= secs -> fault env (tick w) OpSleep = None ->
  post tt (elapse env w) -> returns (sleep env secs) w post.
Proof.
  intros Hs Hf H. unfold sleep.
  destruct (ltb_reflect secs 0); [lra|]. now apply returns_external.
Qed.

Lemma returns_driver_enable (on : bool) (w : World)
      (post : unit -> World -> Prop) :
  fault env (tick w) (OpEnable on) = None ->
  post tt (with_enabled on (elapse env w)) ->
  returns (driver_enable env on) w post.
Proof.
  intros Hf H. unfold driver_enable. apply returns_bind.
  apply returns_external; auto. now apply returns_modify.
Qed.

Lemma returns_driver_set_dir (positive : bool) (w : World)
      (post : unit -> World -> Prop) :
  fault env (tick w) OpSetDir = None ->
  post tt (with_dir_positive positive (elapse env w)) ->
  returns (driver_set_dir env positive) w post.
Proof.
  intros Hf H. unfold driver_set_dir. apply returns_bind.
  apply returns_external; auto. now apply returns_modify.
Qed.

Lemma returns_driver_pulse_step (pulse_us : Z) (w : World)
      (post : unit -> World -> Prop) :
  fault env (tick w) OpPulse = None ->
  post tt (if enabled w
           then with_pulses (dir_positive w :: pulses w) (elapse env w)
           else elapse env w) ->
  returns (driver_pulse_step env pulse_us) w post.
Proof.
  intros Hf H. unfold driver_pulse_step. apply returns_bind.
  apply returns_external; auto. apply returns_modify. exact H.
Qed.

Lemma returns_read_min (w : World) (post : bool -> World -> Prop) :
  fault env (tick w) OpReadMin = None ->
  post (min_pressed env (tick w)) (elapse env w) ->
  returns (driver_read_min_endstop env) w post.
Proof.
  intros Hf H. unfold driver_read_min_endstop.
  apply returns_bind, returns_get, returns_bind, returns_external; auto.
  now apply returns_ret.
Qed.

Lemma returns_read_max (w : World) (post : bool -> World -> Prop) :
  fault env (tick w) OpReadMax = None ->
  post (max_pressed env (tick w)) (elapse env w) ->
  returns (driver_read_max_endstop env) w post.
Proof.
  intros Hf H. unfold driver_read_max_endstop.
  apply returns_bind, returns_get, returns_bind, returns_external; auto.
  now apply returns_ret.
Qed.

(** A loop with an invariant indexed by the number of completed
    iterations; [break] and exhaustion both establish [final]. *)
Lemma returns_for_each {A : Type} (body : A -> M bool)
      (inv : nat -> World -> Prop) (final : World -> Prop) :
  forall (xs : list A) (done : nat),
  (forall i x w, nth_error xs i = Some x -> inv (done + i)%nat w ->
     returns (body x) w
       (fun stop w' => if stop then final w' else inv (S (done + i)) w')) ->
  (forall w, inv (done + List.length xs)%nat w -> final w) ->
  forall w, inv done w ->
  returns (for_each xs body) w (fun _ w' => final w').
Proof.
  induction xs as [|x rest IH]; intros done Hbody Hend w Hinv.
  - apply returns_ret. apply Hend. simpl. now rewrite Nat.add_0_r.
  - cbn [for_each]. apply returns_bind.
    eapply returns_weaken.
    + apply (Hbody 0%nat x w); [reflexivity|]. now rewrite Nat.add_0_r.
    + intros [|] w' H; cbv beta in *.
      * now apply returns_ret.
      * apply (IH (S done)).
        -- intros i y w'' Hy Hi. rewrite Nat.add_0_r in H.
           replace (S done + i)%nat with (done + S i)%nat by lia.
           apply (Hbody (S i) y w''); auto.
           now replace (done + S i)%nat with (S done + i)%nat by lia.
        -- intros w'' Hi. apply Hend. simpl.
           now replace (done + S (List.length rest))%nat
             with (S done + List.length rest)%nat by lia.
        -- now rewrite Nat.add_0_r in H.
Qed.

End WorkerRules.

(** ** Termination *)

Section Termination.
Import Models Planner Controller Logic.

Lemma advance_seg_terminates (kfs : list Keyframe) (t_ : Q) :
  forall fuel seg,
  (List.length kfs - 2 - seg <= fuel)%nat ->
  advance_seg kfs t_ fuel seg <> Diverge.
Proof.
  induction fuel as [|fuel IH]; intros seg Hfuel; rewrite advance_seg_eq.
  - destruct (Nat.ltb_spec seg (List.length kfs - 2)); [lia | discriminate].
  - destruct (Nat.ltb_spec seg (List.length kfs - 2)); [|discriminate].
    destruct (getitem kfs (seg + 1)) as [k| |] eqn:E; cbn [obind];
      try discriminate.
    + destruct (Py.ltb (t k) t_); [|discriminate]. apply IH. lia.
    + unfold getitem in E. destruct (nth_error kfs (seg + 1)); discriminate.
Qed.

Lemma getitem_terminates {A : Type} (l : list A) (i : nat) : getitem l i <> Diverge.
Proof. unfold getitem. destruct (nth_error l i); discriminate. Qed.

Lemma getlast_terminates {A : Type} (l : list A) : getlast l <> Diverge.
Proof. destruct l; [discriminate|]. apply getitem_terminates. Qed.

Lemma ease_fn_terminates (k : Keyframe) : _ease_fn k <> Diverge.
Proof.
  unfold _ease_fn. destruct (type (ease k)); [discriminate|].
  destruct (p (ease k)) as [[|x1 [|y1 [|x2 [|y2 [|z r]]]]]|]; discriminate.
Qed.

Lemma sample_loop_terminates (kfs : list Keyframe) (total_t dt : Q) :
  0 < dt ->
  forall fuel seg t_,
  total_t + (1 # 1000000000) < t_ + inject_Z (Z.of_nat fuel) * dt ->
  sample_loop kfs fuel total_t dt seg t_ <> Diverge.
Proof.
  intros Hdt. induction fuel as [|fuel IH]; intros seg t_ Hfuel.
  - cbn [sample_loop]. change (inject_Z (Z.of_nat 0)) with 0 in Hfuel.
    destruct (leb_reflect t_ (total_t + (1 # 1000000000))); [lra | discriminate].
  - cbn [sample_loop].
    destruct (leb_reflect t_ (total_t + (1 # 1000000000))); [|discriminate].
    pose proof (advance_seg_terminates kfs t_ (List.length kfs) seg) as Ha.
    destruct (advance_seg kfs t_ (List.length kfs) seg) as [seg'| |];
      cbn [obind]; try discriminate; [|exfalso; apply Ha; [lia | reflexivity]].
    pose proof (getitem_terminates kfs seg') as H0.
    destruct (getitem kfs seg') as [k0| |]; cbn [obind]; try discriminate;
      [|congruence].
    pose proof (getitem_terminates kfs (seg' + 1)) as H1.
    destruct (getitem kfs (seg' + 1)) as [k1| |]; cbn [obind];
      try discriminate; [|congruence].
    pose proof (ease_fn_terminates k1) as He.
    destruct (_ease_fn k1) as [f| |]; cbn [obind]; try discriminate;
      [|congruence].
    specialize (IH seg' (t_ + dt)).
    destruct (sample_loop kfs fuel total_t dt seg' (t_ + dt)) as [[ts ps]| |];
      cbn [obind]; try discriminate.
    apply IH.
    rewrite Nat2Z.inj_succ, <- Z.add_1_r, inject_Z_plus in Hfuel.
    change (inject_Z 1) with 1 in Hfuel. lra.
Qed.

Lemma total_time_positive (kfs : list Keyframe) (total_t : Q) :
  total_time kfs = Ok total_t -> 0 < total_t.
Proof.
  unfold total_time. destruct (getlast kfs) as [kl| |]; cbn [obind]; try discriminate.
  destruct (leb_reflect (t kl) 0); intros E; injection E as <-; lra.
Qed.

Lemma sample_fuel_bound (profile : MotionProfile) (dt total_t : Q) :
  0 < dt -> total_time (keyframes profile) = Ok total_t ->
  total_t + (1 # 1000000000)
  < 0 + inject_Z (Z.of_nat (sample_fuel profile dt)) * dt.
Proof.
  intros Hdt Et. pose proof (total_time_positive _ _ Et) as Hpos.
  unfold sample_fuel. rewrite Et.
  set (x := (total_t + (1 # 1000000000)) / dt).
  assert (Hx : 0 <= x).
  { unfold x. apply Qle_shift_div_l; lra. }
  assert (Hfl : (0 <= Qfloor x)%Z).
  { change 0%Z with (Qfloor 0). now apply Qfloor_resp_le. }
  rewrite Z.max_r by lia. rewrite Z2Nat.id by lia.
  pose proof (Qlt_floor x) as Hlt.
  assert (Hm : x * dt == total_t + (1 # 1000000000)).
  { unfold x. field. lra. }
  nra.
Qed.

(** [sample_profile] returns or raises for every profile when [dt > 0]. *)
Lemma sample_profile_terminates (profile : MotionProfile) (dt : Q) :
  0 < dt -> sample_profile profile dt <> Diverge.
Proof.
  intros Hdt. unfold sample_profile, sample_profile_fuel.
  destruct (total_time (keyframes profile)) as [total_t| |] eqn:Et;
    cbn [obind]; try discriminate.
  2:{ unfold total_time in Et. pose proof (getlast_terminates (keyframes profile)).
      destruct (getlast (keyframes profile)); cbn [obind] in Et; congruence. }
  pose proof (sample_loop_terminates (keyframes profile) total_t dt Hdt
                (sample_fuel profile dt) 0%nat 0
                (sample_fuel_bound profile dt total_t Hdt Et)) as Hl.
  destruct (sample_loop (keyframes profile) (sample_fuel profile dt) total_t dt 0 0)
    as [[times pos]| |]; cbn [obind]; try discriminate; [|congruence].
  pose proof (getlast_terminates times) as Ht.
  destruct (getlast times) as [tl| |]; cbn [obind]; try discriminate; [|congruence].
  pose proof (getlast_terminates (keyframes profile)) as Hk.
  destruct (getlast (keyframes profile)) as [kl| |]; cbn [obind];
    try discriminate; [|congruence].
  destruct (Py.ltb tl (t kl)); discriminate.
Qed.

End Termination.

Section WorkerTermination.
Import Controller Logic.
Variable cfg : Config.SliderConfig.
Variable env : Env.

Lemma terminates_ret {A : Type} (a : A) : terminates (ret a).
Proof. intros w. discriminate. Qed.

Lemma terminates_modify (f : World -> World) : terminates (modify f).
Proof. intros w. discriminate. Qed.

Lemma terminates_get {A : Type} (f : World -> A) : terminates (get f).
Proof. intros w. discriminate. Qed.

Lemma terminates_lift {A : Type} (o : outcome A) :
  o <> Diverge -> terminates (lift o).
Proof. intros H w. exact H. Qed.

Lemma terminates_truediv (a b : Q) : terminates (lift (truediv a b)).
Proof. apply terminates_lift. unfold truediv. destruct (Py.eqb b 0); discriminate. Qed.

Lemma terminates_getitem {A : Type} (l : list A) (i : nat) :
  terminates (lift (getitem l i)).
Proof. apply terminates_lift, getitem_terminates. Qed.

Lemma terminates_getlast {A : Type} (l : list A) : terminates (lift (getlast l)).
Proof. apply terminates_lift, getlast_terminates. Qed.

Lemma terminates_external (op : Op) : terminates (external env op).
Proof. intros w. unfold external. destruct (fault env (tick w) op); discriminate. Qed.

Lemma terminates_bind {A B : Type} (m : M A) (k : A -> M B) :
  terminates m -> (forall a, terminates (k a)) -> terminates (bind m k).
Proof.
  intros Hm Hk w. unfold bind. specialize (Hm w).
  destruct (m w) as [[a| |] w']; simpl in *; try discriminate; auto.
  apply Hk.
Qed.

Lemma terminates_if {A : Type} (b : bool) (m1 m2 : M A) :
  terminates m1 -> terminates m2 -> terminates (if b then m1 else m2).
Proof. destruct b; auto. Qed.

Lemma terminates_for_each {A : Type} (xs : list A) (body : A -> M bool) :
  (forall x, terminates (body x)) -> terminates (for_each xs body).
Proof.
  intros Hb. induction xs as [|x rest IH]; cbn [for_each].
  - apply terminates_ret.
  - apply terminates_bind; auto. intros [|]; auto using terminates_ret.
Qed.

Lemma terminates_try_finally {A : Type} (m : M A) (cleanup : M unit) :
  terminates m -> terminates cleanup -> terminates (try_finally m cleanup).
Proof.
  intros Hm Hc w. unfold try_finally. specialize (Hm w).
  destruct (m w) as [[a| |] w']; simpl in *.
  - specialize (Hc w'). destruct (cleanup w') as [[u| |] w'']; simpl in *;
      congruence.
  - specialize (Hc w'). destruct (cleanup w') as [[u| |] w'']; simpl in *;
      congruence.
  - congruence.
Qed.

Lemma terminates_try_except {A : Type} (m : M A) (handler : exn -> M A) :
  terminates m -> (forall e, terminates (handler e)) ->
  terminates (try_except m handler).
Proof.
  intros Hm Hh w. unfold try_except. specialize (Hm w).
  destruct (m w) as [[a| |] w']; simpl in *; try congruence; apply Hh.
Qed.

Ltac terminates_step :=
  first
    [ apply terminates_ret | apply terminates_modify | apply terminates_get
    | apply terminates_truediv | apply terminates_getitem
    | apply terminates_getlast | apply terminates_external
    | apply terminates_bind; [|intro]
    | apply terminates_for_each; intro
    | apply terminates_try_finally
    | apply terminates_if ].

Ltac terminates_auto := repeat terminates_step.

Lemma terminates_is_set : terminates (is_set env).
Proof. unfold is_set. terminates_auto. Qed.

Lemma terminates_perf_counter : terminates (perf_counter env).
Proof. unfold perf_counter. terminates_auto. Qed.

Lemma terminates_sleep (secs : Q) : terminates (sleep env secs).
Proof.
  unfold sleep. apply terminates_if; [|apply terminates_external].
  apply terminates_lift. discriminate.
Qed.

Lemma terminates_driver_enable (on : bool) : terminates (driver_enable env on).
Proof. unfold driver_enable. terminates_auto. Qed.

Lemma terminates_driver_set_dir (b : bool) : terminates (driver_set_dir env b).
Proof. unfold driver_set_dir. terminates_auto. Qed.

Lemma terminates_driver_pulse_step (us : Z) : terminates (driver_pulse_step env us).
Proof. unfold driver_pulse_step. terminates_auto. Qed.

Lemma terminates_read_min : terminates (driver_read_min_endstop env).
Proof. unfold driver_read_min_endstop. terminates_auto. Qed.

Lemma terminates_read_max : terminates (driver_read_max_endstop env).
Proof. unfold driver_read_max_endstop. terminates_auto. Qed.

Ltac terminates_prim :=
  first
    [ apply terminates_is_set | apply terminates_perf_counter
    | apply terminates_sleep | apply terminates_driver_enable
    | apply terminates_driver_set_dir | apply terminates_driver_pulse_step
    | apply terminates_read_min | apply terminates_read_max
    | terminates_step ].

Ltac terminates_all :=
  repeat (unfold set_status, set_homed, set_current_pos_mm, set_progress,
          set_error, stop_event_clear, step_mm; terminates_prim).

Lemma terminates_relative_move (d s : Q) : terminates (_relative_move cfg env d s).
Proof. unfold _relative_move. terminates_all. Qed.

Lemma terminates_seek_endstop (b : bool) (s m : Q) :
  terminates (_seek_endstop cfg env b s m).
Proof. unfold _seek_endstop. terminates_all. Qed.

Lemma terminates_do_home : terminates (_do_home cfg env).
Proof.
  unfold _do_home.
  repeat first [ apply terminates_relative_move | apply terminates_seek_endstop
               | progress terminates_all ].
Qed.

Lemma terminates_do_jog (d s : Q) : terminates (_do_jog cfg env d s).
Proof.
  unfold _do_jog.
  repeat first [ apply terminates_relative_move | progress terminates_all ].
Qed.

Lemma terminates_do_prime (profile : Models.MotionProfile) :
  terminates (_do_prime cfg env profile).
Proof.
  unfold _do_prime, prime_move, _move_to_position.
  repeat first [ apply terminates_relative_move | apply terminates_do_home
               | progress terminates_all ].
Qed.

Lemma terminates_do_run_profile (profile : Models.MotionProfile) :
  terminates (_do_run_profile cfg env profile).
Proof.
  unfold _do_run_profile, run_segment, run_pulse.
  repeat first
    [ apply terminates_lift, sample_profile_terminates; reflexivity
    | match goal with
      | |- terminates (match ?o with Ok _ => _ | _ => _ end) => destruct o
      end
    | progress terminates_all ].
Qed.

Lemma terminates_dispatch (cmd : Command) : terminates (dispatch cfg env cmd).
Proof.
  destruct cmd; cbn [dispatch];
    auto using terminates_do_home, terminates_do_jog,
               terminates_do_prime, terminates_do_run_profile.
Qed.

End WorkerTermination.

Section WorkerLoop.
Import Controller Logic.
Variable cfg : Config.SliderConfig.
Variable env : Env.
Hypothesis Hsafe : disable_safe env.

(** One turn of the worker: the command's result, or the handler's. *)
Lemma worker_step_outcome (cmd : Command) (w : World) :
  match dispatch cfg env cmd (fresh w) with
  | (Ok _, w1) => worker_step cfg env cmd w = (Ok tt, w1)
  | (Raise e, w1) => worker_step cfg env cmd w = (Ok tt, handled env e w1)
  | (Diverge, _) => False
  end.
Proof.
  pose proof (terminates_dispatch cfg env cmd (fresh w)) as Ht.
  unfold worker_step, try_except, bind, stop_event_clear, set_error, modify.
  change (with_error None (with_stop_event false w)) with (fresh w).
  destruct (dispatch cfg env cmd (fresh w)) as [[[]| e|] w1]; simpl in Ht.
  - reflexivity.
  - unfold set_status, driver_enable, bind, modify, external. cbn [tick with_status with_error].
    rewrite (Hsafe (tick w1)). reflexivity.
  - congruence.
Qed.

(** The worker outlives every list of commands. *)
Lemma worker_loop_alive (cmds : list Command) :
  forall w, exists w', _worker_loop cfg env cmds w = (Ok tt, w').
Proof.
  induction cmds as [|cmd rest IH]; intros w; cbn [_worker_loop].
  - eexists. reflexivity.
  - pose proof (worker_step_outcome cmd w) as H. unfold bind.
    destruct (dispatch cfg env cmd (fresh w)) as [[[]| e|] w1];
      try contradiction; rewrite H; apply IH.
Qed.

End WorkerLoop.

Section WorkerClaims.
Import Controller Logic.

(** C8 (amended).  If a command raises an exception and [enable(False)]
    itself does not fail, the worker catches the exception, sets [error]
    to its message and [status] to ['error'], disables the driver and
    goes on with the commands that follow: the loop does not end in an
    exception. *)
Theorem worker_survives_exception
        (cfg : Config.SliderConfig) (env : Env)
        (cmd : Command) (rest : list Command) (w w1 : World) (e : exn) :
  disable_safe env ->
  dispatch cfg env cmd (fresh w) = (Raise e, w1) ->
  worker_step cfg env cmd w = (Ok tt, handled env e w1) /\
  error (handled env e w1) = Some (str e) /\
  status (handled env e w1) = Error /\
  enabled (handled env e w1) = false /\
  _worker_loop cfg env (cmd :: rest) w
  = _worker_loop cfg env rest (handled env e w1) /\
  exists w', _worker_loop cfg env (cmd :: rest) w = (Ok tt, w').
Proof.
  intros Hsafe Hd.
  pose proof (worker_step_outcome cfg env Hsafe cmd w) as H. rewrite Hd in H.
  split; [exact H|]. repeat split.
  - cbn [_worker_loop]. unfold bind. rewrite H. reflexivity.
  - apply worker_loop_alive, Hsafe.
Qed.

Lemma worker_survives_broken_step :
  disable_safe Cases.broken_step /\
  dispatch Config.default Cases.broken_step (Jog 10 10) (fresh init)
  = (Raise (DriverFault "step pin write failed"),
     snd (dispatch Config.default Cases.broken_step (Jog 10 10) (fresh init))) /\
  let w1 := snd (dispatch Config.default Cases.broken_step (Jog 10 10) (fresh init)) in
  let e := DriverFault "step pin write failed" in
  worker_step Config.default Cases.broken_step (Jog 10 10) init
  = (Ok tt, handled Cases.broken_step e w1) /\
  error (handled Cases.broken_step e w1) = Some (str e) /\
  status (handled Cases.broken_step e w1) = Error /\
  enabled (handled Cases.broken_step e w1) = false /\
  _worker_loop Config.default Cases.broken_step [Jog 10 10; Jog (-1) 10] init
  = _worker_loop Config.default Cases.broken_step [Jog (-1) 10]
                 (handled Cases.broken_step e w1) /\
  exists w', _worker_loop Config.default Cases.broken_step
                          [Jog 10 10; Jog (-1) 10] init = (Ok tt, w').
Proof.
  assert (Hs : disable_safe Cases.broken_step) by (intros n; reflexivity).
  assert (Hd : dispatch Config.default Cases.broken_step (Jog 10 10) (fresh init)
               = (Raise (DriverFault "step pin write failed"),
                  snd (dispatch Config.default Cases.broken_step (Jog 10 10)
                                (fresh init)))).
  { vm_compute. reflexivity. }
  split; [exact Hs|]. split; [exact Hd|].
  exact (worker_survives_exception Config.default Cases.broken_step (Jog 10 10)
           [Jog (-1) 10] init _ _ Hs Hd).
Defined.

(** C1, at a failing input.  With the default configuration, a jog of
    [-1] mm from [0.002] mm (inside the travel) makes one pulse of
    [1/400] mm: [_relative_move] does not clamp, and the position ends
    at [-0.0005] mm. *)
Theorem jog_leaves_travel :
  0 <= current_pos_mm (with_current_pos_mm (2 # 1000) init)
    <= Config.travel_mm Config.default /\
  exists w',
    worker_step Config.default quiet (Jog (-1) 10)
                (with_current_pos_mm (2 # 1000) init) = (Ok tt, w') /\
    current_pos_mm w' == - (1 # 2000) /\
    ~ (0 <= current_pos_mm w' <= Config.travel_mm Config.default).
Proof.
  split; [split; discriminate|].
  eexists. split; [vm_compute; reflexivity|].
  split; [reflexivity|]. intros [H _]. apply H. reflexivity.
Qed.

(** The same position is reached from the initial state: a profile that
    ends at [0.002] mm, then the jog. *)
Example travel_left_from_init :
  exists w',
    _worker_loop Config.default quiet
                 [RunProfile Cases.creep; Jog (-1) 10] init = (Ok tt, w') /\
    current_pos_mm w' < 0.
Proof. eexists. split; [vm_compute; reflexivity | reflexivity]. Qed.

(** C6, at a failing input.  The carriage rests on the min endstop, so
    the first seek ends at once; [stop()] is called right after the
    check that follows it.  The back-off and the re-approach stop at
    their first look at the event, and the command still records
    [homed = True] at position 0. *)
Theorem cancelled_home_marks_homed :
  homed init = false /\
  exists w',
    worker_step Config.default (Cases.at_min_stop_at 5) Home init = (Ok tt, w') /\
    stop_event w' = true /\ homed w' = true /\ current_pos_mm w' == 0 /\
    status w' = Idle /\ enabled w' = false.
Proof.
  split; [reflexivity|].
  eexists. split; [vm_compute; reflexivity|]. repeat split.
Qed.

(** A [stop()] that arrives before that check leaves [homed] as it was. *)
Example cancelled_first_seek :
  exists w',
    worker_step Config.default (Cases.at_min_stop_at 4) Home init = (Ok tt, w') /\
    stop_event w' = true /\ homed w' = false /\ status w' = Idle /\
    enabled w' = false.
Proof. eexists. split; [vm_compute; reflexivity|]. repeat split. Qed.

End WorkerClaims.

(** ** Moves *)

Section Moves.
Import Controller Logic.
Variable cfg : Config.SliderConfig.
Variable env : Env.
Hypothesis Hwf : well_formed cfg.
Hypothesis Hnf : no_faults env.

Lemma truediv_Ok (a b : Q) : ~ b == 0 -> truediv a b = Ok (a / b).
Proof. intros H. unfold truediv. destruct (eqb_reflect b 0); [contradiction | reflexivity]. Qed.

Lemma min_period_s_pos : 0 < min_period_s cfg.
Proof.
  unfold min_period_s.
  destruct (max_cases (inject_Z (Config.step_pulse_us cfg * 2) / 1000000) (1 / 20000))
    as [[H ->]|[H ->]]; [reflexivity|].
  assert (0 < 1 / 20000) by reflexivity. lra.
Qed.

Lemma max_ge_l (a b : Q) : a <= Py.max a b.
Proof. destruct (max_cases a b) as [[H ->]|[H ->]]; lra. Qed.

Lemma max_ge_r (a b : Q) : b <= Py.max a b.
Proof. destruct (max_cases a b) as [[H ->]|[H ->]]; lra. Qed.

Lemma moving_elapse (w0 : World) (st : Status) (dir : bool) (step : Q) (k : nat)
      (w : World) :
  moving env w0 st dir step k w -> moving env w0 st dir step k (elapse env w).
Proof.
  intros [H1 [H2 [H3 [H4 [H5 [H6 [H7 H8]]]]]]]. unfold moving. cbn.
  repeat split; auto. intros Hu. rewrite (H8 Hu).
  destruct (Hu (tick w)) as [-> _]. reflexivity.
Qed.

(** An endstop is read only in the direction of travel. *)
Lemma returns_guarded_max (g : bool) (w : World) (post : bool -> World -> Prop) :
  (g = true -> post (max_pressed env (tick w)) (elapse env w)) ->
  (g = false -> post false w) ->
  returns (if g then driver_read_max_endstop env else ret false) w post.
Proof.
  destruct g; intros H1 H2.
  - apply returns_read_max; auto.
  - apply returns_ret; auto.
Qed.

Lemma returns_guarded_min (g : bool) (w : World) (post : bool -> World -> Prop) :
  (g = true -> post (min_pressed env (tick w)) (elapse env w)) ->
  (g = false -> post false w) ->
  returns (if g then driver_read_min_endstop env else ret false) w post.
Proof.
  destruct g; intros H1 H2.
  - apply returns_read_min; auto.
  - apply returns_ret; auto.
Qed.

Lemma step_mm_Ok (dir : bool) :
  truediv (if dir then 1 else -1) (steps_per_mm cfg)
  = Ok ((if dir then 1 else -1) / steps_per_mm cfg).
Proof. apply truediv_Ok. destruct Hwf as [H _]. lra. Qed.

(** One pulse of [_relative_move] and the pause after it. *)
Lemma relative_pulse (w0 : World) (st : Status) (dir : bool) (period_s : Q)
      (i : nat) (w : World) :
  0 <= period_s ->
  moving env w0 st dir ((if dir then 1 else -1) / steps_per_mm cfg) i w ->
  returns
    (driver_pulse_step env (Config.step_pulse_us cfg) ;;
     d <- step_mm cfg dir ;;
     pos <- get current_pos_mm ;;
     set_current_pos_mm (pos + d) ;;
     sleep env period_s ;;
     ret false)
    w
    (fun stop w' =>
       stop = false /\
       moving env w0 st dir ((if dir then 1 else -1) / steps_per_mm cfg) (S i) w').
Proof.
  intros Hp [H1 [H2 [H3 [H4 [H5 [H6 [H7 H8]]]]]]].
  apply returns_bind, returns_driver_pulse_step; [apply Hnf|]. rewrite H4.
  apply returns_bind. unfold step_mm.
  eapply returns_lift; [apply step_mm_Ok|].
  apply returns_bind, returns_get. cbn [current_pos_mm with_pulses elapse].
  apply returns_bind. unfold set_current_pos_mm. apply returns_modify.
  apply returns_bind, returns_sleep; [exact Hp | apply Hnf |].
  apply returns_ret. split; [reflexivity|].
  unfold moving. cbn. rewrite H5, H6. repeat split; auto.
  - rewrite H7, Zpos_P_of_succ_nat, <- Z.add_1_r, inject_Z_plus.
    change (inject_Z 1) with 1.
    set (s := (if dir then 1 else -1) / steps_per_mm cfg). ring.
  - intros Hu. rewrite (H8 Hu).
    destruct (Hu (tick w)) as [-> _].
    destruct (Hu (S (tick w))) as [-> _]. reflexivity.
Qed.

(** The pulse loop of [_relative_move]: at most [n] pulses, and exactly
    [n] when nothing interrupts. *)
Lemma relative_move_loop (w0 : World) (st : Status) (dir : bool)
      (period_s : Q) (n : nat) :
  0 <= period_s ->
  forall w, moving env w0 st dir ((if dir then 1 else -1) / steps_per_mm cfg) 0 w ->
  returns
    (for_each (seq 0 n) (fun _ =>
       stop <- is_set env ;;
       if (stop : bool) then ret true
       else
         hit_max <- (if dir then driver_read_max_endstop env else ret false) ;;
         if (hit_max : bool) then ret true
         else
           hit_min <- (if negb dir then driver_read_min_endstop env
                       else ret false) ;;
           if (hit_min : bool) then ret true
           else
             driver_pulse_step env (Config.step_pulse_us cfg) ;;
             d <- step_mm cfg dir ;;
             pos <- get current_pos_mm ;;
             set_current_pos_mm (pos + d) ;;
             sleep env period_s ;;
             ret false))
    w
    (fun _ w' =>
       exists k, (k <= n)%nat /\
         moving env w0 st dir ((if dir then 1 else -1) / steps_per_mm cfg) k w' /\
         (uninterrupted env -> k = n)).
Proof.
  intros Hp w Hinv.
  set (step := (if dir then 1 else -1) / steps_per_mm cfg) in *.
  apply (returns_for_each _
           (fun i w' => (i <= n)%nat /\ moving env w0 st dir step i w')
           (fun w' => exists k, (k <= n)%nat /\ moving env w0 st dir step k w' /\
                                (uninterrupted env -> k = n))
           (seq 0 n) 0%nat).
  - intros i x w1 Hx [Hle Hm]. cbn [Nat.add] in *.
    assert (Hi : (i < n)%nat).
    { assert (Hs : nth_error (seq 0 n) i <> None) by congruence.
      apply nth_error_Some in Hs. rewrite length_seq in Hs. exact Hs. }
    apply returns_bind, returns_is_set.
    pose proof (moving_elapse _ _ _ _ _ _ Hm) as Hm1.
    destruct (stop_event (elapse env w1)) eqn:Es.
    { apply returns_ret. exists i. split; [lia|]. split; [exact Hm1|].
      intros Hu. destruct Hm1 as [_ [_ [_ [_ [_ [_ [_ H8]]]]]]].
      rewrite (H8 Hu) in Es. discriminate. }
    apply returns_bind, returns_guarded_max.
    + intros ->. pose proof (moving_elapse _ _ _ _ _ _ Hm1) as Hm2.
      destruct (max_pressed env (tick (elapse env w1))) eqn:Emax.
      { apply returns_ret. exists i. split; [lia|]. split; [exact Hm2|].
        intros Hu. destruct (Hu (tick (elapse env w1))) as [_ [_ H]]. congruence. }
      apply returns_bind, returns_guarded_min; [discriminate|]. intros _.
      cbv beta iota.
      eapply returns_weaken; [apply (relative_pulse w0 st true period_s i); auto|].
      intros stop w' [-> Hm3]. split; [lia | exact Hm3].
    + intros ->.
      apply returns_bind, returns_guarded_min; [|discriminate]. intros _.
      pose proof (moving_elapse _ _ _ _ _ _ Hm1) as Hm2.
      destruct (min_pressed env (tick (elapse env w1))) eqn:Emin.
      { apply returns_ret. exists i. split; [lia|]. split; [exact Hm2|].
        intros Hu. destruct (Hu (tick (elapse env w1))) as [_ [H _]]. congruence. }
      eapply returns_weaken; [apply (relative_pulse w0 st false period_s i); auto|].
      intros stop w' [-> Hm3]. split; [lia | exact Hm3].
  - intros w1 [Hle Hm]. exists n. rewrite length_seq in Hm. cbn [Nat.add] in Hm. auto.
  - split; [lia | exact Hinv].
Qed.

Lemma moving_moved (w0 : World) (st : Status) (dir : bool) (step : Q) (k : nat)
      (w : World) :
  moving env w0 st dir step k w -> moved env w0 st dir step k w.
Proof. unfold moving, moved. tauto. Qed.

(** [_relative_move] from a world where the driver is enabled. *)
Lemma relative_move_returns (st : Status) (distance_mm speed_mm_s : Q) (w : World) :
  status w = st -> enabled w = true ->
  (uninterrupted env -> stop_event w = false) ->
  returns (_relative_move cfg env distance_mm speed_mm_s) w
    (fun _ w' =>
       exists k,
         (k <= steps_of_move cfg (current_pos_mm w) distance_mm)%nat /\
         (uninterrupted env ->
          k = steps_of_move cfg (current_pos_mm w) distance_mm) /\
         moved env w st (direction_of_move cfg (current_pos_mm w) distance_mm)
               ((if direction_of_move cfg (current_pos_mm w) distance_mm
                 then 1 else -1) / steps_per_mm cfg) k w').
Proof.
  intros Hst Hen Hstop. unfold _relative_move, steps_of_move, direction_of_move.
  apply returns_bind, returns_get.
  set (target := clamp_travel cfg (current_pos_mm w + distance_mm)).
  set (dir := Py.ltb 0 (target - current_pos_mm w)).
  destruct (Py.ltb (Py.abs (target - current_pos_mm w)) (1 # 1000000)).
  - apply returns_ret. exists 0%nat. split; [lia|]. split; [auto|].
    unfold moved. cbn. repeat split; auto. ring.
  - apply returns_bind, returns_driver_set_dir; [apply Hnf|].
    apply returns_bind. eapply returns_lift.
    { apply truediv_Ok. destruct Hwf as [Hs _].
      pose proof (max_ge_l 1 (Py.min speed_mm_s (Config.max_speed_mm_s cfg))).
      intros E. nra. }
    eapply returns_weaken.
    + apply (relative_move_loop w st dir).
      * pose proof min_period_s_pos.
        pose proof (max_ge_r (1 / (Py.max 1 (Py.min speed_mm_s (Config.max_speed_mm_s cfg))
                                   * steps_per_mm cfg)) (min_period_s cfg)). lra.
      * unfold moving. cbn. repeat split; auto. { ring. }
        intros Hu. rewrite (Hstop Hu). destruct (Hu (tick w)) as [-> _]. reflexivity.
    + intros _ w' [k [Hk [Hm Hun]]]. exists k. split; [exact Hk|].
      split; [exact Hun|]. now apply moving_moved.
Qed.

End Moves.

Section JogClaim.
Import Controller Logic.



(** A jog of 5000 mm is cut to the travel of 1200 mm: 480000 pulses. *)
Example jog_beyond_travel :
  Z.of_nat (steps_of_move Config.default 0 5000) = 480000%Z /\
  direction_of_move Config.default 0 5000 = true.
Proof. split; vm_compute; reflexivity. Qed.


End JogClaim.

(** ** Running a profile *)

Section RunProfile.
Import Models Spec Planner Controller Logic.
Variable cfg : Config.SliderConfig.
Variable env : Env.
Hypothesis Hwf : well_formed cfg.
Hypothesis Hnf : no_faults env.

Lemma min_nonneg (a b : Q) : 0 <= a -> 0 <= b -> 0 <= Py.min a b.
Proof. intros Ha Hb. destruct (min_cases a b) as [[H ->]|[H ->]]; lra. Qed.

(** What follows the endstop checks in the pulse loop of
    [_do_run_profile]: it leaves [progress] alone. *)
Lemma run_pulse_tail (dir : bool) (seg_deadline period_s : Q) (w : World) :
  0 <= period_s ->
  returns
    (now <- perf_counter env ;;
     if Py.leb seg_deadline now then ret true
     else
       driver_pulse_step env (Config.step_pulse_us cfg) ;;
       d <- step_mm cfg dir ;;
       pos <- get current_pos_mm ;;
       set_current_pos_mm (pos + d) ;;
       pos <- get current_pos_mm ;;
       set_current_pos_mm (clamp_travel cfg pos) ;;
       now <- perf_counter env ;;
       (if Py.ltb now seg_deadline
        then sleep env (Py.min period_s (seg_deadline - now))
        else ret tt) ;;
       ret false)
    w (fun _ w' => progress w' = progress w).
Proof.
  intros Hp.
  apply returns_bind, returns_perf_counter.
  destruct (Py.leb seg_deadline (clock env (tick w))); [now apply returns_ret|].
  apply returns_bind, returns_driver_pulse_step; [apply Hnf|].
  apply returns_bind. unfold step_mm.
  eapply returns_lift; [apply (step_mm_Ok cfg Hwf)|].
  apply returns_bind, returns_get.
  apply returns_bind. unfold set_current_pos_mm. apply returns_modify.
  apply returns_bind, returns_get.
  apply returns_bind, returns_modify.
  apply returns_bind, returns_perf_counter.
  apply returns_bind.
  match goal with
  | |- returns (if Py.ltb ?now _ then _ else _) _ _ =>
    destruct (ltb_reflect now seg_deadline) as [Hlt|Hge]
  end.
  - apply returns_sleep; [apply min_nonneg; lra | apply Hnf |].
    apply returns_ret. destruct (enabled (elapse env w)); reflexivity.
  - apply returns_ret. apply returns_ret.
    destruct (enabled (elapse env w)); reflexivity.
Qed.

Lemma run_pulse_returns (dir : bool) (seg_deadline period_s : Q) (w : World) :
  0 <= period_s ->
  returns (run_pulse cfg env dir seg_deadline period_s) w
          (fun _ w' => progress w' = progress w).
Proof.
  intros Hp. unfold run_pulse.
  apply returns_bind, returns_is_set.
  destruct (stop_event (elapse env w)); [now apply returns_ret|].
  apply returns_bind, (returns_guarded_max env Hnf); intros Hd.
  - destruct (max_pressed env (tick (elapse env w))); [now apply returns_ret|].
    apply returns_bind, (returns_guarded_min env Hnf); [subst; discriminate|].
    intros _. cbv beta iota.
    eapply returns_weaken; [now apply run_pulse_tail|]. auto.
  - apply returns_bind, (returns_guarded_min env Hnf); [|subst; discriminate].
    intros _.
    destruct (min_pressed env (tick (elapse env w))); [now apply returns_ret|].
    eapply returns_weaken; [now apply run_pulse_tail|]. auto.
Qed.

(** One segment of the run: it returns, and [progress] is left alone (on
    cancellation) or set to [t1 / total_t]. *)
Lemma run_segment_returns (times pos : list Q) (total_t start_time : Q)
      (i : nat) (w : World) :
  List.length times = List.length pos ->
  (S i < List.length times)%nat ->
  0 < total_t ->
  returns (run_segment cfg env times pos total_t start_time i) w
    (fun _ w' => progress w' = progress w \/
                 exists t1, In t1 times /\ progress w' = t1 / total_t).
Proof.
  intros Hlen Hi Ht. unfold run_segment.
  apply returns_bind, returns_is_set.
  destruct (stop_event (elapse env w)); [apply returns_ret; now left|].
  destruct (nth_error_in_range times i) as [t0 E0]; [lia|].
  destruct (nth_error_in_range times (i + 1)) as [t1 E1]; [lia|].
  destruct (nth_error_in_range pos i) as [p0 P0]; [lia|].
  destruct (nth_error_in_range pos (i + 1)) as [p1 P1]; [lia|].
  apply returns_bind. eapply returns_lift; [apply getitem_Ok, E0|].
  apply returns_bind. eapply returns_lift; [apply getitem_Ok, E1|].
  apply returns_bind. eapply returns_lift; [apply getitem_Ok, P0|].
  apply returns_bind. eapply returns_lift; [apply getitem_Ok, P1|].
  cbv zeta.
  set (steps := Py.round (Py.abs (clamp_travel cfg p1 - clamp_travel cfg p0)
                          * steps_per_mm cfg)).
  set (dir := Py.ltb 0 (clamp_travel cfg p1 - clamp_travel cfg p0)).
  apply returns_bind, returns_driver_set_dir; [apply Hnf|].
  apply returns_bind.
  assert (Hper : exists period_s,
             (if (0 <? steps)%Z
              then lift (truediv (Py.max (1 # 10000) (t1 - t0)) (inject_Z steps))
              else ret (Py.max (1 # 10000) (t1 - t0)))
               (with_dir_positive dir (elapse env (elapse env w)))
             = (Ok period_s, with_dir_positive dir (elapse env (elapse env w)))).
  { destruct (Z.ltb_spec 0 steps) as [Hs|Hs].
    - eexists. unfold lift. rewrite truediv_Ok; [reflexivity|].
      intros E. assert (0 < inject_Z steps).
      { change 0 with (inject_Z 0). now rewrite <- Zlt_Qlt. }
      lra.
    - eexists. reflexivity. }
  destruct Hper as [period_s Eper].
  eapply returns_eval; [exact Eper|].
  apply returns_bind. eapply returns_lift.
  { apply truediv_Ok. destruct Hwf as [Hs [_ Hm]]. intros E. nra. }
  apply returns_bind. eapply returns_weaken.
  - apply returns_for_each
      with (inv := fun _ w' => progress w' = progress w)
           (final := fun w' => progress w' = progress w) (done := 0%nat).
    + intros j x w1 Hx Hw1. eapply returns_weaken.
      * apply run_pulse_returns.
        pose proof (min_period_s_pos cfg).
        match goal with
        | |- 0 <= Py.max (Py.max ?a ?b) ?c =>
          pose proof (max_ge_r a b); pose proof (max_ge_l (Py.max a b) c)
        end. lra.
      * intros [|] w2 H2; cbv beta; congruence.
    + auto.
    + reflexivity.
  - intros u w1 Hw1. cbv beta in Hw1 |- *.
    apply returns_bind, returns_perf_counter.
    apply returns_bind.
    + destruct (ltb_reflect (clock env (tick w1)) (start_time + t1)) as [Hlt|Hge].
      * apply returns_bind, returns_is_set.
        destruct (stop_event (elapse env (elapse env w1))); cbn [negb].
        -- apply returns_ret.
           apply returns_bind. eapply returns_lift; [apply truediv_Ok; lra|].
           apply returns_bind. unfold set_progress. apply returns_modify.
           apply returns_ret. right. exists t1. split; [|reflexivity].
           eapply nth_error_In; eauto.
        -- apply returns_sleep; [lra | apply Hnf|].
           apply returns_bind. eapply returns_lift; [apply truediv_Ok; lra|].
           apply returns_bind. unfold set_progress. apply returns_modify.
           apply returns_ret. right. exists t1. split; [|reflexivity].
           eapply nth_error_In; eauto.
      * apply returns_ret.
        apply returns_bind. eapply returns_lift; [apply truediv_Ok; lra|].
        apply returns_bind. unfold set_progress. apply returns_modify.
        apply returns_ret. right. exists t1. split; [|reflexivity].
        eapply nth_error_In; eauto.
Qed.

Lemma nth_error_seq_inv (m i x : nat) :
  nth_error (seq 0 m) i = Some x -> x = i /\ (i < m)%nat.
Proof.
  intros H.
  assert (Hi : (i < m)%nat).
  { assert (Hs : nth_error (seq 0 m) i <> None) by congruence.
    apply nth_error_Some in Hs. now rewrite length_seq in Hs. }
  split; [|exact Hi].
  apply (nth_error_nth _ _ 0%nat) in H. rewrite seq_nth in H by exact Hi. lia.
Qed.

Lemma clamp_travel_inside (x : Q) :
  0 <= x <= Config.travel_mm cfg -> clamp_travel cfg x == x.
Proof.
  intros Hx. unfold clamp_travel.
  destruct (min_cases x (Config.travel_mm cfg)) as [[H ->]|[H ->]];
    [lra|].
  destruct (max_cases 0 x) as [[H' ->]|[H' ->]]; lra.
Qed.

Lemma clamp_travel_range (x : Q) :
  0 <= clamp_travel cfg x <= Config.travel_mm cfg.
Proof.
  destruct Hwf as [_ [Ht _]]. unfold clamp_travel.
  destruct (min_cases x (Config.travel_mm cfg)) as [[H ->]|[H ->]];
    match goal with
    | |- _ <= Py.max 0 ?y <= _ => destruct (max_cases 0 y) as [[H' ->]|[H' ->]]
    end; lra.
Qed.

(** [_do_run_profile] on a valid profile. *)
Lemma run_profile_returns (profile : MotionProfile) (w : World) :
  valid profile ->
  exists times pos tl pl w',
    sample_profile profile (2 # 100) = Ok (times, pos) /\
    getlast times = Ok tl /\ getlast pos = Ok pl /\
    _do_run_profile cfg env profile w = (Ok tt, w') /\
    current_pos_mm w' = clamp_travel cfg pl /\
    enabled w' = false /\
    status w' = (if stop_event w' then Stopped else Idle) /\
    (stop_event w' = false -> progress w' = 1) /\
    (stop_event w' = true ->
     progress w' = progress w \/
     exists t1, In t1 times /\ progress w' = t1 / Py.max (1 # 1000000) tl).
Proof.
  intros Hv.
  destruct (sample_profile_last profile (2 # 100) Hv eq_refl)
    as [times [pos [klast [tl [pl [Es [Hlen [_ [Etl [Epl _]]]]]]]]]].
  exists times, pos, tl, pl.
  set (total_t := Py.max (1 # 1000000) tl).
  assert (Htot : 0 < total_t).
  { pose proof (max_ge_l (1 # 1000000) tl). fold total_t in H.
    assert (0 < 1 # 1000000) by reflexivity. lra. }
  set (Pr := fun q : Q => q = progress w \/
                          exists t1, In t1 times /\ q = t1 / total_t).
  assert (Hrun : returns (_do_run_profile cfg env profile) w
            (fun _ w' =>
               current_pos_mm w' = clamp_travel cfg pl /\
               enabled w' = false /\
               status w' = (if stop_event w' then Stopped else Idle) /\
               (stop_event w' = false -> progress w' = 1) /\
               (stop_event w' = true -> Pr (progress w')))).
  { unfold _do_run_profile.
    apply returns_bind. unfold set_status. apply returns_modify.
    apply returns_bind, returns_driver_enable; [apply Hnf|].
    apply returns_bind. eapply returns_lift; [exact Es|]. cbn [fst snd].
    apply returns_bind. eapply returns_lift; [exact Etl|].
    apply returns_bind, returns_perf_counter.
    apply returns_bind. eapply returns_weaken.
    - apply returns_for_each
        with (inv := fun _ w' => Pr (progress w'))
             (final := fun w' => Pr (progress w')) (done := 0%nat).
      + intros i x w1 Hx Hw1. unfold range in Hx.
        apply nth_error_seq_inv in Hx. destruct Hx as [-> Hi].
        eapply returns_weaken.
        * apply run_segment_returns; [exact Hlen | lia | exact Htot].
        * intros [|] w2 H2; cbv beta;
            (destruct H2 as [H2|H2]; [rewrite H2; exact Hw1 | right; exact H2]).
      + auto.
      + left. reflexivity.
    - intros u w1 Hw1. cbv beta in Hw1 |- *.
      rewrite Epl.
      apply returns_bind. unfold set_current_pos_mm. apply returns_modify.
      apply returns_bind, returns_driver_enable; [apply Hnf|].
      apply returns_bind, returns_is_set.
      apply returns_bind. unfold set_status. apply returns_modify.
      apply returns_bind, returns_get.
      apply returns_bind, returns_get.
      unfold set_progress. apply returns_modify.
      cbn.
      destruct (stop_event w1 || stop_called env (tick w1)
                || stop_called env (S (tick w1))); cbn.
      + repeat split; auto. discriminate.
      + repeat split; auto. discriminate. }
  destruct Hrun as [[] [w' [E H]]].
  exists w'. split; [exact Es|]. split; [exact Etl|]. split; [exact Epl|].
  split; [exact E|]. exact H.
Qed.

End RunProfile.

Section RunProfileClaim.
Import Models Spec Planner Controller Logic.





(** A profile may be longer than the travel: the run ends uncancelled at
    [travel_mm], not at the planner's last position. *)
Example overlong_run_is_clamped :
  valid Cases.overlong /\
  exists w',
    _do_run_profile Config.default quiet Cases.overlong init = (Ok tt, w') /\
    stop_event w' = false /\ status w' = Idle /\
    current_pos_mm w' == 1200 /\
    Planner.sample_profile Cases.overlong (2 # 100)
    = Ok ([0; 2 # 100], [1500 + (1500 - 1500) * 0; 1500 + (1500 - 1500) * 1]).
Proof.
  split; [exists Cases.overlong; vm_compute; reflexivity|].
  eexists. split; [vm_compute; reflexivity|]. repeat split.
Qed.

End RunProfileClaim.

(** ** Homing, and the travel bounds *)

Section Homing.
Import Controller Logic.
Variable cfg : Config.SliderConfig.
Variable env : Env.
Hypothesis Hwf : well_formed cfg.
Hypothesis Hnf : no_faults env.

(** One pulse of [_seek_endstop] and the pause after it: the position is
    clamped into the travel. *)
Lemma seek_pulse (dir : bool) (period_s : Q) (w : World) :
  0 <= period_s ->
  returns
    (driver_pulse_step env (Config.step_pulse_us cfg) ;;
     d <- step_mm cfg dir ;;
     pos <- get current_pos_mm ;;
     set_current_pos_mm (pos + d) ;;
     pos <- get current_pos_mm ;;
     set_current_pos_mm (clamp_travel cfg pos) ;;
     sleep env period_s ;;
     ret false)
    w
    (fun stop w' =>
       stop = false /\
       status w' = status w /\ homed w' = homed w /\ error w' = error w /\
       enabled w' = enabled w /\
       0 <= current_pos_mm w' <= Config.travel_mm cfg).
Proof.
  intros Hp.
  apply returns_bind, returns_driver_pulse_step; [apply Hnf|].
  apply returns_bind. unfold step_mm.
  eapply returns_lift; [apply (step_mm_Ok cfg Hwf)|].
  apply returns_bind, returns_get.
  apply returns_bind. unfold set_current_pos_mm. apply returns_modify.
  apply returns_bind, returns_get.
  apply returns_bind, returns_modify.
  apply returns_bind, returns_sleep; [exact Hp | apply Hnf |].
  apply returns_ret. split; [reflexivity|]. cbn.
  destruct (enabled w) eqn:Een; cbn; rewrite ?Een;
    (split; [reflexivity|]; split; [reflexivity|]; split; [reflexivity|];
     split; [reflexivity|]; apply (clamp_travel_range cfg Hwf)).
Qed.

(** [_seek_endstop] returns; every pulse leaves the position within the
    travel. *)
Lemma seek_endstop_returns (min_endstop : bool) (speed_mm_s max_travel_mm : Q)
      (w : World) :
  returns (_seek_endstop cfg env min_endstop speed_mm_s max_travel_mm) w
    (fun _ w' =>
       status w' = status w /\ homed w' = homed w /\ error w' = error w /\
       enabled w' = enabled w /\
       (current_pos_mm w' = current_pos_mm w \/
        0 <= current_pos_mm w' <= Config.travel_mm cfg)).
Proof.
  unfold _seek_endstop.
  apply returns_bind, returns_driver_set_dir; [apply Hnf|].
  apply returns_bind. eapply returns_lift.
  { apply truediv_Ok. pose proof (max_ge_l 1 (speed_mm_s * steps_per_mm cfg)).
    intros E. lra. }
  set (period_s := Py.max (1 / Py.max 1 (speed_mm_s * steps_per_mm cfg))
                          (min_period_s cfg)).
  assert (Hp : 0 <= period_s).
  { pose proof (min_period_s_pos cfg).
    pose proof (max_ge_r (1 / Py.max 1 (speed_mm_s * steps_per_mm cfg))
                         (min_period_s cfg)).
    unfold period_s. lra. }
  set (I := fun w' : World =>
              status w' = status w /\ homed w' = homed w /\ error w' = error w /\
              enabled w' = enabled w /\
              (current_pos_mm w' = current_pos_mm w \/
               0 <= current_pos_mm w' <= Config.travel_mm cfg)).
  apply returns_for_each with (inv := fun _ => I) (final := I) (done := 0%nat).
  - intros i x w1 Hx Hw1.
    apply returns_bind, returns_is_set.
    destruct (stop_event (elapse env w1)); [apply returns_ret; auto|].
    apply returns_bind, (returns_guarded_min env Hnf); intros Hd.
    + destruct (min_pressed env (tick (elapse env w1)));
        [apply returns_ret; auto|].
      apply returns_bind, (returns_guarded_max env Hnf); [subst; discriminate|].
      intros _. cbv beta iota.
      eapply returns_weaken; [apply seek_pulse, Hp|].
      intros stop w2 [-> [H1 [H2 [H3 [H4 H5]]]]].
      destruct Hw1 as [G1 [G2 [G3 [G4 _]]]]. unfold I. cbn in *.
      repeat split; try congruence; right; apply H5.
    + apply returns_bind, (returns_guarded_max env Hnf); [|subst; discriminate].
      intros _.
      destruct (max_pressed env (tick (elapse env w1)));
        [apply returns_ret; auto|].
      eapply returns_weaken; [apply seek_pulse, Hp|].
      intros stop w2 [-> [H1 [H2 [H3 [H4 H5]]]]].
      destruct Hw1 as [G1 [G2 [G3 [G4 _]]]]. unfold I. cbn in *.
      repeat split; try congruence; right; apply H5.
  - auto.
  - unfold I. cbn. repeat split; auto.
Qed.

(** The Home command, whatever interrupts it: it ends ['idle'] with the
    driver disabled; [homed] is either left as it was or set together
    with [current_pos_mm = 0]; and it is set when the event is still
    unset at the end. *)
Lemma do_home_returns (w : World) :
  returns (_do_home cfg env) w
    (fun _ w' =>
       status w' = Idle /\ enabled w' = false /\ error w' = error w /\
       (homed w' = homed w \/
        (homed w' = true /\ current_pos_mm w' = 0)) /\
       (stop_event w' = false -> homed w' = true /\ current_pos_mm w' = 0)).
Proof.
  unfold _do_home.
  apply returns_bind. unfold set_status. apply returns_modify.
  apply returns_bind, returns_driver_enable; [apply Hnf|].
  apply returns_bind. eapply returns_weaken; [apply seek_endstop_returns|].
  intros u w1 [H1 [H2 [H3 [H4 _]]]]. cbn in H1, H2, H3, H4.
  apply returns_bind, returns_is_set.
  destruct (stop_event (elapse env w1)) eqn:Es.
  - apply returns_bind, returns_driver_enable; [apply Hnf|].
    apply returns_modify. cbn. cbn in Es. rewrite Es. cbn.
    split; [reflexivity|]. split; [reflexivity|]. split; [exact H3|].
    split; [left; exact H2 | discriminate].
  - apply returns_bind. eapply returns_weaken.
    + apply (relative_move_returns cfg env Hwf Hnf Homing 5 30 (elapse env w1));
        auto.
    + intros u' w2 [k [_ [_ [G1 [G2 [G3 [G4 _]]]]]]]. cbn in G1, G2, G3, G4.
      apply returns_bind. eapply returns_weaken; [apply seek_endstop_returns|].
      intros u'' w3 [K1 [K2 [K3 [K4 _]]]].
      apply returns_bind. unfold set_current_pos_mm. apply returns_modify.
      apply returns_bind. unfold set_homed. apply returns_modify.
      apply returns_bind, returns_driver_enable; [apply Hnf|].
      apply returns_modify. cbn.
      split; [reflexivity|]. split; [reflexivity|]. split; [congruence|].
      split; [right|]; auto.
Qed.

(** After a profile run the position is within the travel. *)
Lemma run_profile_in_travel (profile : Models.MotionProfile) (w : World) :
  Spec.valid profile ->
  returns (_do_run_profile cfg env profile) w
    (fun _ w' => 0 <= current_pos_mm w' <= Config.travel_mm cfg).
Proof.
  intros Hv.
  destruct (run_profile_returns cfg env Hwf Hnf profile w Hv)
    as [times [pos [tl [pl [w' [_ [_ [_ [E [H _]]]]]]]]]].
  exists tt, w'. split; [exact E|]. rewrite H.
  apply (clamp_travel_range cfg Hwf).
Qed.

End Homing.

(** ** More about the easing curves *)

Section EasingCurves.
Import Easing.

(** X1.  [linear] clamps its argument to [[0, 1]]: it is the identity on
    [[0, 1]], it is non-decreasing, and applying it twice changes
    nothing. *)
Theorem linear_clamps (u v : Q) :
  (0 <= u <= 1 -> Easing.linear u == u) /\
  (u <= v -> Easing.linear u <= Easing.linear v) /\
  Easing.linear (Easing.linear u) == Easing.linear u.
Proof.
  split; [|split].
  - intros Hu. unfold Easing.linear.
    destruct (leb_reflect u 0); [lra|].
    destruct (leb_reflect 1 u); lra.
  - intros Huv. unfold Easing.linear.
    destruct (leb_reflect u 0); destruct (leb_reflect v 0);
      destruct (leb_reflect 1 u); destruct (leb_reflect 1 v); lra.
  - unfold Easing.linear.
    destruct (leb_reflect u 0) as [H0|H0].
    + destruct (leb_reflect 0 0); lra.
    + destruct (leb_reflect 1 u) as [H1|H1].
      * destruct (leb_reflect 1 0); [lra|]. destruct (leb_reflect 1 1); lra.
      * destruct (leb_reflect u 0); [lra|]. destruct (leb_reflect 1 u); lra.
Qed.

(** X2.  [dx] is the derivative of [bx]: at every [t], the increment
    [bx(t + h) - bx(t)] is [h * dx(t)] plus terms of order [h^2]. *)
Theorem dx_is_derivative (cb : CubicBezier) (t : Q) :
  exists c2 c3, forall h,
    bx cb (t + h) - bx cb t == h * dx cb t + h * h * (c2 + c3 * h).
Proof.
  exists (3 * (p2x cb - 2 * p1x cb) + 3 * (3 * p1x cb - 3 * p2x cb + 1) * t),
         (3 * p1x cb - 3 * p2x cb + 1).
  intros h. unfold bx, dx. cbv zeta. rewrite !pow3. ring.
Qed.

(** The increment of [bx], split over the four corners of the square of
    control abscissas. *)
Lemma bx_difference (cb : CubicBezier) (t1 t2 : Q) :
  bx cb t2 - bx cb t1 ==
  (t2 - t1) *
  ((1 - p1x cb) * (1 - p2x cb) * (t1 * t1 + t1 * t2 + t2 * t2)
   + p1x cb * (1 - p2x cb)
     * (3 * ((t1 + t2 - 1) * (t1 + t2 - 1)) + (t2 - t1) * (t2 - t1))
   + (1 - p1x cb) * p2x cb
     * (t1 * (3 - 2 * t1 - t2) + t2 * (3 - 2 * t2 - t1))
   + p1x cb * p2x cb
     * ((3 # 4) * ((t1 + t2 - 2) * (t1 + t2 - 2))
        + (1 # 4) * ((t2 - t1) * (t2 - t1)))).
Proof. unfold bx. cbv zeta. rewrite !pow3. ring. Qed.

Lemma square_nonneg (x : Q) : 0 <= x * x.
Proof. nra. Qed.

(** X3.  With both control abscissas in [[0, 1]], the curve runs from
    [bx(0) = 0] to [bx(1) = 1] without turning back: [bx] is
    non-decreasing on [[0, 1]] and [dx] is non-negative there. *)
Theorem bx_monotone (cb : CubicBezier) (t1 t2 : Q) :
  0 <= p1x cb <= 1 -> 0 <= p2x cb <= 1 ->
  0 <= t1 -> t1 <= t2 -> t2 <= 1 ->
  bx cb 0 == 0 /\ bx cb 1 == 1 /\ bx cb t1 <= bx cb t2 /\ 0 <= dx cb t2.
Proof.
  intros Ha Hb H1 H12 H2.
  assert (H00 : 0 <= (1 - p1x cb) * (1 - p2x cb)) by (apply Qmult_le_0_compat; lra).
  assert (H10 : 0 <= p1x cb * (1 - p2x cb)) by (apply Qmult_le_0_compat; lra).
  assert (H01 : 0 <= (1 - p1x cb) * p2x cb) by (apply Qmult_le_0_compat; lra).
  assert (H11 : 0 <= p1x cb * p2x cb) by (apply Qmult_le_0_compat; lra).
  split; [unfold bx; cbv zeta; rewrite pow3; ring|].
  split; [unfold bx; cbv zeta; rewrite pow3; ring|].
  split.
  - pose proof (bx_difference cb t1 t2) as E.
    set (G := (1 - p1x cb) * (1 - p2x cb) * (t1 * t1 + t1 * t2 + t2 * t2)
              + p1x cb * (1 - p2x cb)
                * (3 * ((t1 + t2 - 1) * (t1 + t2 - 1)) + (t2 - t1) * (t2 - t1))
              + (1 - p1x cb) * p2x cb
                * (t1 * (3 - 2 * t1 - t2) + t2 * (3 - 2 * t2 - t1))
              + p1x cb * p2x cb
                * ((3 # 4) * ((t1 + t2 - 2) * (t1 + t2 - 2))
                   + (1 # 4) * ((t2 - t1) * (t2 - t1)))) in E.
    assert (HG : 0 <= G).
    { unfold G.
      pose proof (square_nonneg (t1 + t2 - 1)).
      pose proof (square_nonneg (t2 - t1)).
      pose proof (square_nonneg (t1 + t2 - 2)).
      assert (0 <= t1 * t1 + t1 * t2 + t2 * t2) by nra.
      assert (0 <= t1 * (3 - 2 * t1 - t2) + t2 * (3 - 2 * t2 - t1)) by nra.
      nra. }
    assert (0 <= (t2 - t1) * G) by (apply Qmult_le_0_compat; lra).
    lra.
  - assert (E : dx cb t2 ==
                3 * ((1 - p1x cb) * (1 - p2x cb) * (t2 * t2)
                     + p1x cb * (1 - p2x cb) * ((1 - 2 * t2) * (1 - 2 * t2))
                     + (1 - p1x cb) * p2x cb * (2 * ((1 - t2) * t2))
                     + p1x cb * p2x cb * ((1 - t2) * (1 - t2)))).
    { unfold dx. ring. }
    rewrite E.
    pose proof (square_nonneg (1 - 2 * t2)).
    pose proof (square_nonneg (1 - t2)).
    pose proof (square_nonneg t2).
    assert (0 <= (1 - t2) * t2) by (apply Qmult_le_0_compat; lra).
    nra.
Qed.

Lemma bx_monotone_ease_in_out :
  0 <= p1x Cases.ease_in_out <= 1 /\ 0 <= p2x Cases.ease_in_out <= 1 /\
  0 <= (1 # 4) /\ (1 # 4) <= (1 # 2) /\ (1 # 2) <= 1 /\
  bx Cases.ease_in_out 0 == 0 /\ bx Cases.ease_in_out 1 == 1 /\
  bx Cases.ease_in_out (1 # 4) <= bx Cases.ease_in_out (1 # 2) /\
  0 <= dx Cases.ease_in_out (1 # 2).
Proof.
  assert (Ha : 0 <= p1x Cases.ease_in_out <= 1) by (split; discriminate).
  assert (Hb : 0 <= p2x Cases.ease_in_out <= 1) by (split; discriminate).
  assert (H1 : 0 <= (1 # 4)) by discriminate.
  assert (H12 : (1 # 4) <= (1 # 2)) by discriminate.
  assert (H2 : (1 # 2) <= 1) by discriminate.
  split; [exact Ha|]. split; [exact Hb|]. split; [exact H1|].
  split; [exact H12|]. split; [exact H2|].
  exact (bx_monotone Cases.ease_in_out (1 # 4) (1 # 2) Ha Hb H1 H12 H2).
Defined.

End EasingCurves.

(** ** The order of the keyframes *)

Section Sorting.
Import Models Spec Props.

Lemma insert_by_t_perm (k : Keyframe) (l : list Keyframe) :
  Permutation (k :: l) (insert_by_t k l).
Proof.
  induction l as [|h rest IH]; simpl; [reflexivity|].
  destruct (Py.leb (t k) (t h)); [reflexivity|].
  rewrite perm_swap. now apply perm_skip.
Qed.

Lemma sort_by_t_perm (l : list Keyframe) : Permutation l (sort_by_t l).
Proof.
  induction l as [|h rest IH]; simpl; [reflexivity|].
  rewrite <- insert_by_t_perm. now apply perm_skip.
Qed.

Lemma insert_by_t_ordered (k : Keyframe) (l : list Keyframe) :
  ordered l -> ordered (insert_by_t k l).
Proof.
  induction l as [|h rest IH]; intros Ho; simpl.
  - split; auto.
  - destruct Ho as [Hh Hr].
    destruct (leb_reflect (t k) (t h)) as [Hle|Hgt].
    + split; [|split; auto]. constructor; [exact Hle|].
      eapply Forall_impl; [|exact Hh]. simpl. intros a Ha. lra.
    + split; [|auto].
      apply (Permutation_Forall (insert_by_t_perm k rest)).
      constructor; [lra | exact Hh].
Qed.

Lemma sort_by_t_ordered (l : list Keyframe) : ordered (sort_by_t l).
Proof.
  induction l as [|h rest IH]; simpl; [exact I|].
  now apply insert_by_t_ordered.
Qed.

Lemma increasing_from_above (x : Q) (ts : list Q) :
  increasing_from x ts -> Forall (fun y => x < y) ts.
Proof.
  revert x. induction ts as [|y r IH]; intros x H; [constructor|].
  destruct H as [Hxy Hr]. constructor; [exact Hxy|].
  eapply Forall_impl; [|apply (IH y Hr)]. simpl. intros a Ha. lra.
Qed.

(** A list in strictly increasing order of time is the only ordered
    arrangement of its keyframes. *)
Lemma ordered_unique (a : list Keyframe) :
  forall b, strictly_increasing (map t a) -> ordered b -> Permutation a b -> a = b.
Proof.
  induction a as [|x ra IH]; intros b Ha Hb Hp.
  - apply Permutation_nil in Hp. now subst.
  - destruct b as [|y rb].
    { apply Permutation_sym, Permutation_nil in Hp. discriminate. }
    assert (Hx : Forall (fun k => t x < t k) ra).
    { simpl in Ha. apply increasing_from_above in Ha.
      rewrite Forall_map in Ha. exact Ha. }
    destruct Hb as [Hy Hrb].
    assert (E : x = y).
    { assert (Hin : In y (x :: ra)).
      { apply (Permutation_in y (Permutation_sym Hp)). now left. }
      destruct Hin as [E|Hin]; [exact E|].
      assert (Hin' : In x (y :: rb)).
      { apply (Permutation_in x Hp). now left. }
      destruct Hin' as [E|Hin']; [now symmetry|].
      rewrite Forall_forall in Hx, Hy.
      specialize (Hx y Hin). specialize (Hy x Hin'). simpl in Hx, Hy. lra. }
    subst y. f_equal. apply IH; auto.
    + apply (strictly_increasing_tail (t x)), Ha.
    + now apply Permutation_cons_inv in Hp.
Qed.

Lemma sort_by_t_same (a b : list Keyframe) :
  Permutation a b -> strictly_increasing (map t (sort_by_t a)) ->
  sort_by_t b = sort_by_t a.
Proof.
  intros Hp Ha. symmetry. apply ordered_unique; auto.
  - apply sort_by_t_ordered.
  - rewrite <- (sort_by_t_perm a), <- (sort_by_t_perm b). exact Hp.
Qed.

End Sorting.

Section ValidationOrder.
Import Models Spec Props.

(** X4.  An accepted profile is its input with the keyframes rearranged
    in strictly increasing order of time: the other fields are unchanged,
    the keyframes are a permutation of those given, every time is
    non-negative and every position within [[0, length_mm]], and
    validating the result again returns it unchanged. *)
Theorem accepted_profile_sorted (raw p : MotionProfile) :
  construct raw = Ok p ->
  length_mm p = length_mm raw /\
  max_speed_mm_s p = max_speed_mm_s raw /\
  max_accel_mm_s2 p = max_accel_mm_s2 raw /\
  Permutation (keyframes raw) (keyframes p) /\
  strictly_increasing (map t (keyframes p)) /\
  (forall k, In k (keyframes p) -> 0 <= t k /\ 0 <= pos_mm k <= length_mm p) /\
  construct p = Ok p.
Proof.
  intros H.
  destruct (construct_cases raw)
    as [[E [HL [HS [HA [Hf [Hn [Hi Hp]]]]]]]|[[e Hr] _]]; [|congruence].
  assert (Ep : p = sorted_profile raw) by congruence. subst p.
  cbn [sorted_profile length_mm max_speed_mm_s max_accel_mm_s2 keyframes].
  split; [reflexivity|]. split; [reflexivity|]. split; [reflexivity|].
  split; [apply sort_by_t_perm|]. split; [exact Hi|]. split.
  - intros k Hk. rewrite Forall_forall in Hf, Hp. split.
    + apply (Hf k). now apply (proj1 (sort_by_t_In _ _)).
    + apply (Hp k Hk).
  - apply construct_valid. now exists raw.
Qed.

Lemma accepted_profile_sorted_reversed :
  construct Inputs.sweep_reversed = Ok Cases.sweep /\
  length_mm Cases.sweep = length_mm Inputs.sweep_reversed /\
  max_speed_mm_s Cases.sweep = max_speed_mm_s Inputs.sweep_reversed /\
  max_accel_mm_s2 Cases.sweep = max_accel_mm_s2 Inputs.sweep_reversed /\
  Permutation (keyframes Inputs.sweep_reversed) (keyframes Cases.sweep) /\
  strictly_increasing (map t (keyframes Cases.sweep)) /\
  (forall k, In k (keyframes Cases.sweep) ->
             0 <= t k /\ 0 <= pos_mm k <= length_mm Cases.sweep) /\
  construct Cases.sweep = Ok Cases.sweep.
Proof.
  assert (H : construct Inputs.sweep_reversed = Ok Cases.sweep).
  { vm_compute. reflexivity. }
  split; [exact H|].
  exact (accepted_profile_sorted Inputs.sweep_reversed Cases.sweep H).
Defined.

(** X5.  The order in which the keyframes are given does not matter: a
    profile accepted with its keyframes in one order is accepted, with
    the same result, in every other order. *)
Theorem keyframe_order_irrelevant (raw raw' p : MotionProfile) :
  same_keyframes raw raw' -> construct raw = Ok p -> construct raw' = Ok p.
Proof.
  intros [Hperm [EL [ES EA]]] H.
  destruct (construct_cases raw)
    as [[E [HL [HS [HA [Hf [Hn [Hi Hp]]]]]]]|[[e Hr] _]]; [|congruence].
  assert (Ep : p = sorted_profile raw) by congruence. subst p.
  assert (Hs : sort_by_t (keyframes raw') = sort_by_t (keyframes raw)).
  { now apply sort_by_t_same. }
  assert (Esp : sorted_profile raw' = sorted_profile raw).
  { unfold sorted_profile. now rewrite Hs, EL, ES, EA. }
  destruct (construct_cases raw') as [[E' _]|[_ Hrej]].
  { now rewrite E', Esp. }
  exfalso. rewrite Forall_forall in Hf, Hp.
  assert (Hin : forall k, In k (keyframes raw') -> In k (keyframes raw)).
  { intros k Hk. apply (Permutation_in k (Permutation_sym Hperm) Hk). }
  destruct Hrej as [Hr|[Hr|[[k [Hk Hr]]|[[k [Hk Hr]]|Hr]]]].
  - unfold too_few in Hr. rewrite <- (Permutation_length Hperm) in Hr. lia.
  - unfold times_not_increasing in Hr. rewrite Hs in Hr. apply Hr, Hi.
  - assert (Hk' : In k (sort_by_t (keyframes raw))).
    { apply (proj2 (sort_by_t_In _ _)), Hin, Hk. }
    specialize (Hp k Hk'). unfold position_inside in Hp. rewrite <- EL in Hr. lra.
  - apply (Hf k (Hin k Hk)), Hr.
  - unfold field_constraint in Hr. rewrite <- EL, <- ES, <- EA in Hr.
    destruct Hr as [Hr|[[k [Hk Hr]]|[Hr|Hr]]]; try lra.
    destruct (Hf k (Hin k Hk)) as [H' _]. lra.
Qed.

Lemma keyframe_order_irrelevant_sweep :
  same_keyframes Cases.sweep Inputs.sweep_reversed /\
  construct Cases.sweep = Ok Cases.sweep /\
  construct Inputs.sweep_reversed = Ok Cases.sweep.
Proof.
  assert (Hs : same_keyframes Cases.sweep Inputs.sweep_reversed).
  { split; [apply perm_swap | repeat split]. }
  assert (H : construct Cases.sweep = Ok Cases.sweep).
  { vm_compute. reflexivity. }
  split; [exact Hs|]. split; [exact H|].
  exact (keyframe_order_irrelevant Cases.sweep Inputs.sweep_reversed Cases.sweep Hs H).
Defined.

End ValidationOrder.

(** ** The first sample *)

Section FirstSample.
Import Models Spec Planner.

(** X7.  On a valid profile with [dt > 0] the first sample is taken at
    time 0 and is the position of the first keyframe, also when that
    keyframe's time is later than 0. *)
Theorem sample_profile_starts (profile : MotionProfile) (dt : Q) :
  valid profile -> 0 < dt ->
  exists times pos k0 y0,
    sample_profile profile dt = Ok (0 :: times, y0 :: pos) /\
    nth_error (keyframes profile) 0 = Some k0 /\
    y0 == pos_mm k0.
Proof.
  intros Hv Hdt.
  destruct (sample_profile_ok profile Hv dt Hdt)
    as [klast [times [pos [tl [Hkl [El [E [Hst [Hall [Hne [Htl Es]]]]]]]]]]].
  destruct (valid_facts profile Hv) as [Hn [Hi [Hf _]]].
  destruct times as [|x times]; [congruence|].
  destruct Hst as [-> _].
  inversion Hall as [|a y0 ra pos' Hs Hrest]; subst.
  destruct Hs as [seg [k0 [k1 [v [Hk0 [Hk1 [Hy [Hsel [_ [Hv0 _]]]]]]]]]].
  assert (H0 : 0 <= t k0).
  { rewrite Forall_forall in Hf. apply (Hf k0). eapply nth_error_In; eauto. }
  assert (Hseg : seg = 0%nat) by (destruct Hsel as [Hs|Hs]; [exact Hs | lra]).
  subst seg.
  assert (Ey : y0 == pos_mm k0) by (rewrite Hy, (Hv0 H0); ring).
  destruct (Py.ltb (last (0 :: times) 0) (t klast)).
  - exists (times ++ [t klast]), (pos' ++ [pos_mm klast]), k0, y0.
    split; [exact Es|]. split; [exact Hk0 | exact Ey].
  - exists times, pos', k0, y0.
    split; [exact Es|]. split; [exact Hk0 | exact Ey].
Qed.

Lemma sample_profile_starts_sweep :
  valid Cases.sweep /\ 0 < (1 # 2) /\
  exists times pos k0 y0,
    sample_profile Cases.sweep (1 # 2) = Ok (0 :: times, y0 :: pos) /\
    nth_error (keyframes Cases.sweep) 0 = Some k0 /\
    y0 == pos_mm k0.
Proof.
  assert (Hv : valid Cases.sweep).
  { exists Cases.sweep. vm_compute. reflexivity. }
  assert (Hdt : 0 < (1 # 2)) by reflexivity.
  split; [exact Hv|]. split; [exact Hdt|].
  exact (sample_profile_starts Cases.sweep (1 # 2) Hv Hdt).
Defined.

End FirstSample.

(** ** The planner outside its domain *)

Section PlannerEdges.
Import Models Spec Planner Props.

Lemma sample_loop_backwards (kfs : list Keyframe) (total_t dt : Q) :
  (2 <= List.length kfs)%nat -> strictly_increasing (map t kfs) ->
  Forall keyframe_fields_ok kfs ->
  0 <= total_t -> dt <= 0 ->
  forall fuel t_, t_ <= 0 -> sample_loop kfs fuel total_t dt 0 t_ = Diverge.
Proof.
  intros Hn Hi Hf Ht Hdt.
  induction fuel as [|fuel IH]; intros t_ Ht_; cbn [sample_loop];
    (destruct (leb_reflect t_ (total_t + (1 # 1000000000))) as [_|Hgt]; [|lra]).
  - reflexivity.
  - destruct (advance_seg_ok kfs Hn t_ (List.length kfs) 0%nat)
      as [seg' [E [_ [H2 [_ H4]]]]]; try lia.
    destruct (nth_error_in_range kfs seg') as [k0 Hk0]; [lia|].
    assert (seg' = 0%nat).
    { destruct H4 as [H4|H4]; [exact H4|]. specialize (H4 k0 Hk0).
      rewrite Forall_forall in Hf. destruct (Hf k0) as [H0 _].
      - eapply nth_error_In; eauto.
      - lra. }
    subst seg'. rewrite E. cbn [obind].
    destruct (nth_error_in_range kfs (0 + 1)) as [k1 Hk1]; [simpl; lia|].
    rewrite (getitem_Ok _ _ _ Hk0), (getitem_Ok _ _ _ Hk1). cbn [obind].
    assert (Hf1 : keyframe_fields_ok k1).
    { rewrite Forall_forall in Hf. apply Hf. eapply nth_error_In; eauto. }
    destruct (ease_fn_ok k1 Hf1) as [f [Ef _]]. rewrite Ef. cbn [obind].
    rewrite IH by lra. reflexivity.
Qed.

(** X10.  With [dt <= 0] the sampling of a valid profile never ends:
    the time never passes the end, every turn of the loop succeeds, and no
    number of turns completes the loop. *)
Theorem sample_profile_never_ends (profile : MotionProfile) (dt : Q) :
  valid profile -> dt <= 0 ->
  forall fuel, sample_profile_fuel fuel profile dt = Diverge.
Proof.
  intros Hv Hdt fuel.
  destruct (valid_facts profile Hv) as [Hn [Hi [Hf _]]].
  destruct (last_keyframe profile Hv) as [klast [_ [_ [Hpos Et]]]].
  unfold sample_profile_fuel. rewrite Et. cbn [obind].
  rewrite (sample_loop_backwards (keyframes profile) (t klast) dt); auto; lra.
Qed.

Lemma sample_profile_never_ends_sweep :
  valid Cases.sweep /\ 0 <= 0 /\
  forall fuel, sample_profile_fuel fuel Cases.sweep 0 = Diverge.
Proof.
  assert (Hv : valid Cases.sweep).
  { exists Cases.sweep. vm_compute. reflexivity. }
  assert (Hdt : 0 <= 0) by discriminate.
  split; [exact Hv|]. split; [exact Hdt|].
  exact (sample_profile_never_ends Cases.sweep 0 Hv Hdt).
Defined.

(** X11.  A profile object left with fewer than two keyframes (the
    validator runs at construction only) makes [sample_profile] raise
    [IndexError]: at [kfs[-1]] when there is none, at [kfs[1]] in the
    first turn of the loop when there is one. *)
Theorem sample_profile_needs_two_keyframes (profile : MotionProfile) (dt : Q) :
  (List.length (keyframes profile) < 2)%nat ->
  (forall fuel, (0 < fuel)%nat ->
     sample_profile_fuel fuel profile dt = Raise IndexError) /\
  (0 < dt -> sample_profile profile dt = Raise IndexError).
Proof.
  intros Hlen.
  assert (Hfuel : forall fuel, (0 < fuel)%nat ->
            sample_profile_fuel fuel profile dt = Raise IndexError).
  { intros fuel Hf. unfold sample_profile_fuel, total_time.
    destruct (keyframes profile) as [|k [|k' r]] eqn:Ek; [reflexivity| |simpl in Hlen; lia].
    cbn [getlast getitem List.length Nat.sub nth_error obind].
    destruct fuel as [|fuel]; [lia|]. cbn [sample_loop].
    assert (Hpos : 0 < (if Py.leb (t k) 0 then 1 # 100 else t k)).
    { destruct (leb_reflect (t k) 0); [reflexivity | lra]. }
    destruct (leb_reflect 0 ((if Py.leb (t k) 0 then 1 # 100 else t k)
                             + (1 # 1000000000))) as [_|Hgt]; [|lra].
    destruct (List.length [k]) eqn:El; reflexivity. }
  split; [exact Hfuel|].
  intros Hdt. unfold sample_profile. 
  destruct (keyframes profile) as [|k [|k' r]] eqn:Ek; [| |simpl in Hlen; lia].
  - unfold sample_profile_fuel, total_time. rewrite Ek. reflexivity.
  - apply Hfuel. unfold sample_fuel, total_time. rewrite Ek.
    cbn [getlast getitem List.length Nat.sub nth_error obind].
    set (T := if Py.leb (t k) 0 then 1 # 100 else t k).
    assert (Hpos : 0 < T).
    { unfold T. destruct (leb_reflect (t k) 0); [reflexivity | lra]. }
    assert (Hq : 0 <= (T + (1 # 1000000000)) / dt).
    { apply Qle_shift_div_l; lra. }
    assert (Hfl : (0 <= Qfloor ((T + (1 # 1000000000)) / dt))%Z).
    { change 0%Z with (Qfloor 0). now apply Qfloor_resp_le. }
    lia.
Qed.

Lemma sample_profile_needs_two_keyframes_lone :
  (List.length (keyframes Inputs.lone) < 2)%nat /\
  (forall fuel, (0 < fuel)%nat ->
     sample_profile_fuel fuel Inputs.lone (1 # 2) = Raise IndexError) /\
  (0 < (1 # 2) -> sample_profile Inputs.lone (1 # 2) = Raise IndexError).
Proof.
  assert (H : (List.length (keyframes Inputs.lone) < 2)%nat) by (simpl; lia).
  split; [exact H|].
  exact (sample_profile_needs_two_keyframes Inputs.lone (1 # 2) H).
Defined.

End PlannerEdges.

(** ** Every outcome of a command *)

Section SafetyRules.
Import Controller Logic Safety.
Variable cfg : Config.SliderConfig.
Variable env : Env.

Lemma ensures_ret {A : Type} (a : A) (w : World) (post : A -> World -> Prop)
      (exc : World -> Prop) :
  post a w -> ensures (ret a) w post exc.
Proof. intros H. exact H. Qed.

Lemma ensures_bind {A B : Type} (m : M A) (k : A -> M B) (w : World)
      (post : B -> World -> Prop) (exc : World -> Prop) :
  ensures m w (fun a w' => ensures (k a) w' post exc) exc ->
  ensures (bind m k) w post exc.
Proof.
  unfold ensures, bind. destruct (m w) as [[a| e|] w']; auto.
Qed.

Lemma ensures_snd {A : Type} (m : M A) (w : World) (I : World -> Prop) :
  ensures m w (fun _ => I) I -> I (snd (m w)).
Proof. unfold ensures. destruct (m w) as [[a| e|] w']; auto. Qed.

Lemma ensures_weaken {A : Type} (m : M A) (w : World)
      (post post' : A -> World -> Prop) (exc exc' : World -> Prop) :
  ensures m w post exc ->
  (forall a w', post a w' -> post' a w') -> (forall w', exc w' -> exc' w') ->
  ensures m w post' exc'.
Proof.
  unfold ensures. destruct (m w) as [[a| e|] w']; auto.
Qed.

Lemma ensures_modify (f : World -> World) (w : World)
      (post : unit -> World -> Prop) (exc : World -> Prop) :
  post tt (f w) -> ensures (modify f) w post exc.
Proof. intros H. exact H. Qed.

Lemma ensures_get {A : Type} (f : World -> A) (w : World)
      (post : A -> World -> Prop) (exc : World -> Prop) :
  post (f w) w -> ensures (get f) w post exc.
Proof. intros H. exact H. Qed.

Lemma ensures_lift {A : Type} (o : outcome A) (w : World)
      (post : A -> World -> Prop) (exc : World -> Prop) :
  (forall a, o = Ok a -> post a w) -> exc w -> ensures (lift o) w post exc.
Proof. intros Hp He. unfold ensures, lift. destruct o; auto. Qed.

Lemma ensures_external (op : Op) (w : World) (post : unit -> World -> Prop)
      (exc : World -> Prop) :
  post tt (elapse env w) -> exc (elapse env w) ->
  ensures (external env op) w post exc.
Proof.
  intros Hp He. unfold ensures, external.
  destruct (fault env (tick w) op); auto.
Qed.

Lemma ensures_is_set (w : World) (post : bool -> World -> Prop)
      (exc : World -> Prop) :
  post (stop_event (elapse env w)) (elapse env w) ->
  ensures (is_set env) w post exc.
Proof. intros H. exact H. Qed.

Lemma ensures_perf_counter (w : World) (post : Q -> World -> Prop)
      (exc : World -> Prop) :
  post (clock env (tick w)) (elapse env w) ->
  ensures (perf_counter env) w post exc.
Proof. intros H. exact H. Qed.

Lemma ensures_sleep (secs : Q) (w : World) (post : unit -> World -> Prop)
      (exc : World -> Prop) :
  post tt (elapse env w) -> exc (elapse env w) -> exc w ->
  ensures (sleep env secs) w post exc.
Proof.
  intros Hp He Hw. unfold sleep. destruct (Py.ltb secs 0).
  - exact Hw.
  - now apply ensures_external.
Qed.

Lemma ensures_driver_enable (on : bool) (w : World)
      (post : unit -> World -> Prop) (exc : World -> Prop) :
  post tt (with_enabled on (elapse env w)) -> exc (elapse env w) ->
  ensures (driver_enable env on) w post exc.
Proof.
  intros Hp He. unfold driver_enable. apply ensures_bind.
  apply ensures_external; auto.
Qed.

Lemma ensures_driver_set_dir (positive : bool) (w : World)
      (post : unit -> World -> Prop) (exc : World -> Prop) :
  post tt (with_dir_positive positive (elapse env w)) -> exc (elapse env w) ->
  ensures (driver_set_dir env positive) w post exc.
Proof.
  intros Hp He. unfold driver_set_dir. apply ensures_bind.
  apply ensures_external; auto.
Qed.

Lemma ensures_driver_pulse_step (pulse_us : Z) (w : World)
      (post : unit -> World -> Prop) (exc : World -> Prop) :
  post tt (if enabled w
           then with_pulses (dir_positive w :: pulses w) (elapse env w)
           else elapse env w) ->
  exc (elapse env w) ->
  ensures (driver_pulse_step env pulse_us) w post exc.
Proof.
  intros Hp He. unfold driver_pulse_step. apply ensures_bind.
  apply ensures_external; auto.
Qed.

Lemma ensures_read_min (w : World) (post : bool -> World -> Prop)
      (exc : World -> Prop) :
  post (min_pressed env (tick w)) (elapse env w) -> exc (elapse env w) ->
  ensures (driver_read_min_endstop env) w post exc.
Proof.
  intros Hp He. unfold driver_read_min_endstop.
  apply ensures_bind, ensures_get, ensures_bind, ensures_external; auto.
Qed.

Lemma ensures_read_max (w : World) (post : bool -> World -> Prop)
      (exc : World -> Prop) :
  post (max_pressed env (tick w)) (elapse env w) -> exc (elapse env w) ->
  ensures (driver_read_max_endstop env) w post exc.
Proof.
  intros Hp He. unfold driver_read_max_endstop.
  apply ensures_bind, ensures_get, ensures_bind, ensures_external; auto.
Qed.

(** A loop with an invariant; [break] and exhaustion both establish
    [final]. *)
Lemma ensures_for_each {A : Type} (body : A -> M bool)
      (inv final exc : World -> Prop) :
  (forall x w, inv w ->
     ensures (body x) w (fun stop w' => if stop then final w' else inv w') exc) ->
  (forall w, inv w -> final w) ->
  forall (xs : list A) w, inv w ->
  ensures (for_each xs body) w (fun _ => final) exc.
Proof.
  intros Hbody Hend. induction xs as [|x rest IH]; intros w Hinv.
  - apply ensures_ret. auto.
  - cbn [for_each]. apply ensures_bind.
    eapply ensures_weaken; [apply (Hbody x w Hinv) | | auto].
    intros [|] w' H; cbv beta in *.
    + now apply ensures_ret.
    + now apply IH.
Qed.

Lemma ensures_try_finally {A : Type} (m : M A) (cleanup : M unit) (w : World)
      (post : A -> World -> Prop) (exc : World -> Prop) :
  ensures m w (fun a w1 => ensures cleanup w1 (fun _ => post a) exc)
              (fun w1 => exc w1 /\ ensures cleanup w1 (fun _ => exc) exc) ->
  ensures (try_finally m cleanup) w post exc.
Proof.
  unfold ensures, try_finally.
  destruct (m w) as [[a| e|] w1]; [| |tauto];
    destruct (cleanup w1) as [[u| e'|] w2]; tauto.
Qed.

(** *** Invariants *)

Lemma keeps_ret {A : Type} (I : World -> Prop) (a : A) : keeps I (ret a).
Proof. intros w H. exact H. Qed.

Lemma keeps_get {A : Type} (I : World -> Prop) (f : World -> A) : keeps I (get f).
Proof. intros w H. exact H. Qed.

Lemma keeps_lift {A : Type} (I : World -> Prop) (o : outcome A) : keeps I (lift o).
Proof. intros w H. unfold ensures, lift. destruct o; auto. Qed.

Lemma keeps_modify (I : World -> Prop) (f : World -> World) :
  (forall w, I w -> I (f w)) -> keeps I (modify f).
Proof. intros Hf w H. apply Hf, H. Qed.

Lemma keeps_external (I : World -> Prop) (op : Op) :
  (forall w, I w -> I (elapse env w)) -> keeps I (external env op).
Proof. intros He w H. apply ensures_external; auto. Qed.

Lemma keeps_bind {A B : Type} (I : World -> Prop) (m : M A) (k : A -> M B) :
  keeps I m -> (forall a, keeps I (k a)) -> keeps I (bind m k).
Proof.
  intros Hm Hk w H. apply ensures_bind.
  eapply ensures_weaken; [apply (Hm w H) | | auto].
  intros a w' H'. now apply Hk.
Qed.

Lemma keeps_if {A : Type} (I : World -> Prop) (b : bool) (m1 m2 : M A) :
  keeps I m1 -> keeps I m2 -> keeps I (if b then m1 else m2).
Proof. destruct b; auto. Qed.

Lemma keeps_for_each {A : Type} (I : World -> Prop) (xs : list A)
      (body : A -> M bool) :
  (forall x, keeps I (body x)) -> keeps I (for_each xs body).
Proof.
  intros Hb w H.
  apply (ensures_for_each body I I I); auto.
  intros x w' H'. eapply ensures_weaken; [apply (Hb x w' H') | | auto].
  intros [|] w'' H''; auto.
Qed.

Lemma keeps_try_finally {A : Type} (I : World -> Prop) (m : M A)
      (cleanup : M unit) :
  keeps I m -> keeps I cleanup -> keeps I (try_finally m cleanup).
Proof.
  intros Hm Hc w H. apply ensures_try_finally.
  eapply ensures_weaken; [apply (Hm w H) | |]; cbv beta; intros;
    try split; auto; now apply Hc.
Qed.

Lemma keeps_try_except {A : Type} (I : World -> Prop) (m : M A)
      (handler : exn -> M A) :
  keeps I m -> (forall e, keeps I (handler e)) -> keeps I (try_except m handler).
Proof.
  intros Hm Hh w H. specialize (Hm w H). unfold ensures, try_except in *.
  destruct (m w) as [[a| e|] w1]; auto. apply (Hh e w1 Hm).
Qed.

(** When the invariant makes the stop event read set, only the branch
    taken on a set event matters. *)
Lemma keeps_is_set_stopped {B : Type} (I : World -> Prop) (k : bool -> M B) :
  (forall w, I w -> I (elapse env w) /\ stop_event (elapse env w) = true) ->
  keeps I (k true) -> keeps I (bind (is_set env) k).
Proof.
  intros Hs Hk w H. apply ensures_bind, ensures_is_set.
  destruct (Hs w H) as [H1 ->]. now apply Hk.
Qed.

End SafetyRules.

Ltac keeps_step :=
  first
    [ apply keeps_ret | apply keeps_get | apply keeps_lift
    | apply keeps_bind; [|intro]
    | apply keeps_for_each; intro
    | apply keeps_try_finally
    | apply keeps_try_except; [|intro]
    | apply keeps_if
    | match goal with
      | |- Safety.keeps _ (match ?o with Ok _ => _ | _ => _ end) => destruct o
      end ].

Ltac keeps_unfold :=
  unfold Controller.dispatch, Controller._do_home, Controller._do_jog,
    Controller._do_prime, Controller.prime_move, Controller._do_run_profile,
    Controller.run_segment, Controller.run_pulse, Controller._move_to_position,
    Controller._relative_move, Controller._seek_endstop,
    Controller.driver_enable, Controller.driver_set_dir,
    Controller.driver_pulse_step, Controller.driver_read_min_endstop,
    Controller.driver_read_max_endstop, Controller.sleep,
    Controller.perf_counter, Controller.is_set, Controller.step_mm,
    Controller.set_status, Controller.set_homed, Controller.set_current_pos_mm,
    Controller.set_progress, Controller.set_error, Controller.stop_event_clear.

(** [keeps_all tac]: the invariant is kept by the whole term when [tac]
    shows that every update of the world keeps it. *)
Ltac keeps_all tac :=
  keeps_unfold;
  repeat first
    [ keeps_step
    | apply keeps_modify; tac
    | apply keeps_external; tac ].

Section Invariants.
Import Controller Logic Safety.
Variable cfg : Config.SliderConfig.
Variable env : Env.

Lemma dispatch_keeps_error (e0 : option string) (cmd : Command) :
  keeps (fun w => error w = e0) (dispatch cfg env cmd).
Proof.
  destruct cmd; keeps_all ltac:(intros w H; try destruct (enabled w); exact H).
Qed.

End Invariants.

Ltac keeps_unfold_commands :=
  unfold Controller.dispatch, Controller._do_home, Controller._do_jog,
    Controller._do_prime, Controller.prime_move, Controller._do_run_profile,
    Controller.run_segment, Controller.run_pulse, Controller._move_to_position,
    Controller._relative_move, Controller._seek_endstop,
    Controller.step_mm,
    Controller.set_status, Controller.set_homed, Controller.set_current_pos_mm,
    Controller.set_progress, Controller.set_error, Controller.stop_event_clear.

Ltac keeps_unfold_driver :=
  unfold Controller.driver_enable, Controller.driver_set_dir,
    Controller.driver_pulse_step, Controller.driver_read_min_endstop,
    Controller.driver_read_max_endstop, Controller.sleep,
    Controller.perf_counter.

(** [keeps_stopped stop tac]: as [keeps_all], where [stop] shows that the
    invariant makes the stop event read set, so that only the branches
    taken on a set event are followed. *)
Ltac keeps_stopped stop tac :=
  keeps_unfold_commands; keeps_unfold_driver;
  repeat first
    [ apply keeps_is_set_stopped; [stop | cbv beta iota]
    | keeps_step
    | apply keeps_modify; tac
    | apply keeps_external; tac ].

Section InvariantClaims.
Import Controller Logic Safety.

Lemma cancelled_elapse (env : Env) (w0 w : World) :
  stop_called env (tick w0) = true -> cancelled_since w0 w ->
  cancelled_since w0 (elapse env w) /\ stop_event (elapse env w) = true.
Proof.
  intros Hstop [Hc [Hp Hh]].
  assert (Hs : stop_event (elapse env w) = true).
  { cbn. destruct Hc as [Ht|Hs]; [rewrite Ht, Hstop; apply orb_true_r|].
    rewrite Hs. reflexivity. }
  split; [|exact Hs]. split; [right; exact Hs|]. split; assumption.
Qed.

Lemma unmoved_elapse (env : Env) (w0 w : World) :
  stop_called env (tick w0) = true -> unmoved_since w0 w ->
  unmoved_since w0 (elapse env w) /\ stop_event (elapse env w) = true.
Proof.
  intros Hstop [Hc Hpos].
  destruct (cancelled_elapse env w0 w Hstop Hc) as [H1 H2].
  split; [split|]; assumption.
Qed.

(** X13.  A [stop()] called while a command is making its first driver
    call cancels all of its motion: whatever the command, and whatever
    fails, no step pulse is emitted and [homed] is left as it was; and
    but for a profile run (which snaps to its last planned position even
    then) [current_pos_mm] is left as it was. *)
Theorem stop_at_start_prevents_motion (cfg : Config.SliderConfig) (env : Env)
        (cmd : Command) (w : World) :
  stop_called env (tick w) = true ->
  pulses (snd (worker_step cfg env cmd w)) = pulses w /\
  homed (snd (worker_step cfg env cmd w)) = homed w /\
  ((forall profile, cmd <> RunProfile profile) ->
   current_pos_mm (snd (worker_step cfg env cmd w)) = current_pos_mm w).
Proof.
  intros Hstop.
  set (handler := fun e : exn =>
         set_error (Some (str e)) ;; set_status Error ;; driver_enable env false).
  assert (Hc : keeps (cancelled_since w) (try_except (dispatch cfg env cmd) handler)).
  { unfold handler.
    destruct cmd;
      keeps_stopped
        ltac:(intros w1 H1; apply (cancelled_elapse env w w1 Hstop H1))
        ltac:(intros w1 H1;
              first [ apply (cancelled_elapse env w w1 Hstop H1)
                    | exact H1 ]). }
  assert (H0 : cancelled_since w (fresh w)).
  { split; [left; reflexivity | split; reflexivity]. }
  assert (Hw : forall I : World -> Prop,
            keeps I (try_except (dispatch cfg env cmd) handler) ->
            I (fresh w) -> I (snd (worker_step cfg env cmd w))).
  { intros I HI Hf. apply ensures_snd. unfold worker_step.
    apply ensures_bind, ensures_modify, ensures_bind, ensures_modify.
    apply (HI _ Hf). }
  destruct (Hw _ Hc H0) as [_ [Hp Hh]].
  split; [exact Hp|]. split; [exact Hh|].
  intros Hnot.
  assert (Hu : keeps (unmoved_since w) (try_except (dispatch cfg env cmd) handler)).
  { unfold handler.
    destruct cmd; try (exfalso; eapply Hnot; reflexivity);
      keeps_stopped
        ltac:(intros w1 H1; apply (unmoved_elapse env w w1 Hstop H1))
        ltac:(intros w1 H1;
              first [ apply (unmoved_elapse env w w1 Hstop H1)
                    | exact H1 ]). }
  assert (H1 : unmoved_since w (fresh w)) by (split; [exact H0 | reflexivity]).
  exact (proj2 (Hw _ Hu H1)).
Qed.


Lemma worker_loop_keeps (cfg : Config.SliderConfig) (env : Env)
      (I : World -> Prop) :
  (forall cmd, keeps I (worker_step cfg env cmd)) ->
  forall cmds, keeps I (_worker_loop cfg env cmds).
Proof.
  intros Hs. induction cmds as [|cmd rest IH]; cbn [_worker_loop].
  - apply keeps_ret.
  - apply keeps_bind; auto.
Qed.

(** X12.  [homed] is only ever set, never reset: once it is true it
    stays true through every list of commands, whatever fails, is
    cancelled or hits an endstop meanwhile; and a jog or a profile run
    leaves it as it was. *)
Theorem homed_is_never_reset (cfg : Config.SliderConfig) (env : Env) :
  (forall cmds w, homed w = true ->
     homed (snd (_worker_loop cfg env cmds w)) = true) /\
  (forall d s w, homed (snd (worker_step cfg env (Jog d s) w)) = homed w) /\
  (forall p w, homed (snd (worker_step cfg env (RunProfile p) w)) = homed w).
Proof.
  split; [|split].
  - intros cmds w H.
    apply (ensures_snd _ _ (fun w' => homed w' = true)).
    apply (worker_loop_keeps cfg env (fun w' => homed w' = true)); [|exact H].
    intros cmd. unfold worker_step.
    destruct cmd;
      keeps_all ltac:(intros w1 H1; try destruct (enabled w1);
                      first [exact H1 | reflexivity]).
  - intros d s w.
    apply (ensures_snd _ _ (fun w' => homed w' = homed w)).
    cut (keeps (fun w' => homed w' = homed w) (worker_step cfg env (Jog d s)));
      [intros K; now apply K|].
    unfold worker_step.
    keeps_all ltac:(intros w1 H1; try destruct (enabled w1); exact H1).
  - intros p w.
    apply (ensures_snd _ _ (fun w' => homed w' = homed w)).
    cut (keeps (fun w' => homed w' = homed w) (worker_step cfg env (RunProfile p)));
      [intros K; now apply K|].
    unfold worker_step.
    keeps_all ltac:(intros w1 H1; try destruct (enabled w1); exact H1).
Qed.

Lemma stop_at_start_prevents_motion_jog :
  stop_called (Cases.stop_at 0) (tick init) = true /\
  pulses (snd (worker_step Config.default (Cases.stop_at 0) (Jog 10 10) init))
  = pulses init /\
  homed (snd (worker_step Config.default (Cases.stop_at 0) (Jog 10 10) init))
  = homed init /\
  ((forall profile, Jog 10 10 <> RunProfile profile) ->
   current_pos_mm (snd (worker_step Config.default (Cases.stop_at 0) (Jog 10 10) init))
   = current_pos_mm init).
Proof.
  assert (H : stop_called (Cases.stop_at 0) (tick init) = true) by reflexivity.
  split; [exact H|].
  exact (stop_at_start_prevents_motion Config.default (Cases.stop_at 0)
           (Jog 10 10) init H).
Defined.

Lemma keeps_clamped_step (cfg : Config.SliderConfig) (d : Q) {B : Type}
      (rest : M B) :
  well_formed cfg -> keeps (in_travel cfg) rest ->
  keeps (in_travel cfg)
        (pos <- get current_pos_mm ;;
         modify (with_current_pos_mm (pos + d)) ;;
         pos <- get current_pos_mm ;;
         modify (with_current_pos_mm (clamp_travel cfg pos)) ;;
         rest).
Proof.
  intros Hwf Hrest w H.
  apply ensures_bind, ensures_get, ensures_bind, ensures_modify,
        ensures_bind, ensures_get, ensures_bind, ensures_modify.
  apply Hrest. apply (clamp_travel_range cfg Hwf).
Qed.

(** X14.  A profile run never takes [current_pos_mm] out of the travel:
    started within [[0, travel_mm]] it ends there, for every profile
    (valid or not) and whatever fails or is cancelled meanwhile, every
    pulse being followed by a clamp. *)
Theorem run_profile_keeps_travel (cfg : Config.SliderConfig) (env : Env)
        (profile : Models.MotionProfile) (w : World) :
  well_formed cfg -> in_travel cfg w ->
  in_travel cfg (snd (worker_step cfg env (RunProfile profile) w)).
Proof.
  intros Hwf Hin.
  apply (ensures_snd _ _ (in_travel cfg)).
  cut (keeps (in_travel cfg) (worker_step cfg env (RunProfile profile)));
    [intros K; now apply K|].
  unfold worker_step. keeps_unfold.
  repeat first
    [ apply (keeps_clamped_step cfg _ _ Hwf)
    | keeps_step
    | apply keeps_modify; intros w1 H1; try destruct (enabled w1);
      first [exact H1 | apply (clamp_travel_range cfg Hwf)]
    | apply keeps_external; intros w1 H1; exact H1 ].
Qed.

Lemma run_profile_keeps_travel_creep :
  well_formed Config.default /\ in_travel Config.default init /\
  in_travel Config.default
    (snd (worker_step Config.default quiet (RunProfile Cases.creep) init)).
Proof.
  assert (Hwf : well_formed Config.default) by (repeat split).
  assert (Hin : in_travel Config.default init) by (split; discriminate).
  split; [exact Hwf|]. split; [exact Hin|].
  exact (run_profile_keeps_travel Config.default quiet Cases.creep init Hwf Hin).
Defined.

End InvariantClaims.

Section Endings.
Import Controller Logic Safety.
Variable cfg : Config.SliderConfig.
Variable env : Env.

Lemma ensures_any {A : Type} (m : M A) (w : World)
      (post : A -> World -> Prop) (exc : World -> Prop) :
  (forall a w', post a w') -> (forall w', exc w') -> ensures m w post exc.
Proof. intros Hp He. unfold ensures. destruct (m w) as [[a| e|] w']; auto. Qed.

Lemma ends_in_skip {A B : Type} (m : M A) (k : A -> M B) (post : World -> Prop) :
  (forall a, ends_in (k a) post) -> ends_in (bind m k) post.
Proof.
  intros Hk w. apply ensures_bind, ensures_any; [|auto].
  intros a w'. apply Hk.
Qed.

Lemma ends_in_after {A B : Type} (m : M A) (k : A -> M B) (post : World -> Prop) :
  ends_in m post -> (forall a, keeps post (k a)) -> ends_in (bind m k) post.
Proof.
  intros Hm Hk w. apply ensures_bind.
  eapply ensures_weaken; [apply (Hm w) | | auto].
  intros a w' H. eapply ensures_weaken; [apply (Hk a w' H) | |]; auto.
Qed.

Lemma ends_in_if {A : Type} (b : bool) (m1 m2 : M A) (post : World -> Prop) :
  ends_in m1 post -> ends_in m2 post -> ends_in (if b then m1 else m2) post.
Proof. destruct b; auto. Qed.

Lemma ends_in_modify (f : World -> World) (post : World -> Prop) :
  (forall w, post (f w)) -> ends_in (modify f) post.
Proof. intros H w. apply H. Qed.

(** *** The driver after a command that returned *)

Lemma disable_ends_disabled :
  ends_in (driver_enable env false) (fun w => enabled w = false).
Proof. intros w. apply ensures_driver_enable; [reflexivity | exact I]. Qed.

Ltac keeps_disabled :=
  keeps_all ltac:(intros w1 H1; exact H1).

Lemma home_ends_disabled :
  ends_in (_do_home cfg env) (fun w => enabled w = false).
Proof.
  unfold _do_home. do 3 (apply ends_in_skip; intro).
  apply ends_in_skip. intros stop. destruct stop.
  - apply ends_in_after; [apply disable_ends_disabled|]. intro. keeps_disabled.
  - do 4 (apply ends_in_skip; intro).
    apply ends_in_after; [apply disable_ends_disabled|]. intro. keeps_disabled.
Qed.

Lemma jog_ends_disabled (d s : Q) :
  ends_in (_do_jog cfg env d s) (fun w => enabled w = false).
Proof.
  unfold _do_jog. do 3 (apply ends_in_skip; intro).
  apply ends_in_after; [apply disable_ends_disabled|]. intro. keeps_disabled.
Qed.

Lemma run_profile_ends_disabled (profile : Models.MotionProfile) :
  ends_in (_do_run_profile cfg env profile) (fun w => enabled w = false).
Proof.
  unfold _do_run_profile. do 7 (apply ends_in_skip; intro).
  apply ends_in_after; [apply disable_ends_disabled|]. intro. keeps_disabled.
Qed.

Lemma prime_move_ends_disabled (profile : Models.MotionProfile) (w : World) :
  enabled w = false ->
  ensures (prime_move cfg env profile) w
          (fun _ w' => enabled w' = false) (fun _ => True).
Proof.
  intros Hd. unfold prime_move. apply ensures_bind, ensures_get.
  match goal with |- ensures (if ?b then _ else _) _ _ _ => destruct b end.
  - apply ensures_modify. exact Hd.
  - apply ensures_bind, ensures_driver_enable; [|exact I].
    apply ensures_bind, ensures_try_finally, ensures_any.
    + intros a w1. eapply ensures_weaken; [apply disable_ends_disabled | |]; auto.
    + intros w1. split; [exact I|]. apply ensures_any; auto.
Qed.

Lemma dispatch_ends_disabled (cmd : Command) (w : World) :
  enabled w = false ->
  ensures (dispatch cfg env cmd) w (fun _ w' => enabled w' = false) (fun _ => True).
Proof.
  intros Hd. destruct cmd; cbn [dispatch].
  - apply home_ends_disabled.
  - apply jog_ends_disabled.
  - apply run_profile_ends_disabled.
  - unfold _do_prime. apply ensures_bind, ensures_modify, ensures_bind, ensures_get.
    destruct (homed (with_status Priming w)); cbn [negb].
    + now apply prime_move_ends_disabled.
    + apply ensures_bind.
      eapply ensures_weaken; [apply home_ends_disabled | | auto].
      intros u w1 H1. cbv beta.
      apply ensures_bind, ensures_is_set.
      destruct (stop_event (elapse env w1)).
      * apply ensures_modify. exact H1.
      * apply prime_move_ends_disabled. exact H1.
Qed.

(** *** The status after a command that returned *)

Lemma idle_at_rest : ends_in (set_status Idle) at_rest.
Proof. apply ends_in_modify. intros w. left. reflexivity. Qed.

Lemma home_ends_at_rest : ends_in (_do_home cfg env) at_rest.
Proof.
  unfold _do_home. do 3 (apply ends_in_skip; intro).
  apply ends_in_skip. intros stop. destruct stop.
  - apply ends_in_skip. intro. apply idle_at_rest.
  - do 5 (apply ends_in_skip; intro). apply idle_at_rest.
Qed.

Lemma jog_ends_at_rest (d s : Q) : ends_in (_do_jog cfg env d s) at_rest.
Proof.
  unfold _do_jog. do 4 (apply ends_in_skip; intro). apply idle_at_rest.
Qed.

Lemma run_profile_ends_at_rest (profile : Models.MotionProfile) :
  ends_in (_do_run_profile cfg env profile) at_rest.
Proof.
  unfold _do_run_profile. do 8 (apply ends_in_skip; intro).
  intros w. apply ensures_bind, ensures_is_set.
  apply ensures_bind. unfold set_status. apply ensures_modify.
  apply ensures_bind, ensures_get, ensures_bind, ensures_get.
  unfold set_progress. apply ensures_modify.
  unfold at_rest. cbn.
  destruct (stop_event w || stop_called env (tick w)); cbn; auto.
Qed.

Lemma prime_move_ends_at_rest (profile : Models.MotionProfile) :
  ends_in (prime_move cfg env profile) at_rest.
Proof.
  unfold prime_move. apply ends_in_skip. intros cur.
  apply ends_in_if; [apply idle_at_rest|].
  do 2 (apply ends_in_skip; intro). apply idle_at_rest.
Qed.

Lemma dispatch_ends_at_rest (cmd : Command) : ends_in (dispatch cfg env cmd) at_rest.
Proof.
  destruct cmd; cbn [dispatch].
  - apply home_ends_at_rest.
  - apply jog_ends_at_rest.
  - apply run_profile_ends_at_rest.
  - unfold _do_prime. do 2 (apply ends_in_skip; intro).
    apply ends_in_if; [|apply prime_move_ends_at_rest].
    apply ends_in_skip. intro. intros w.
    apply ensures_bind, ensures_is_set.
    destruct (stop_event (elapse env w)) eqn:Es.
    + apply ensures_modify. right. split; [reflexivity | exact Es].
    + apply prime_move_ends_at_rest.
Qed.

End Endings.

Section EndingClaims.
Import Controller Logic Safety.

(** X15.  The worker never leaves the driver enabled: if the driver is
    disabled when a list of commands starts and [enable(False)] itself
    does not fail, the worker gets through the whole list and the driver
    is disabled at its end, whatever else fails or is cancelled. *)
Theorem driver_is_left_disabled (cfg : Config.SliderConfig) (env : Env)
        (cmds : list Command) (w : World) :
  disable_safe env -> enabled w = false ->
  exists w', _worker_loop cfg env cmds w = (Ok tt, w') /\ enabled w' = false.
Proof.
  intros Hsafe. revert w.
  induction cmds as [|cmd rest IH]; intros w Hd; cbn [_worker_loop].
  - exists w. split; [reflexivity | exact Hd].
  - pose proof (worker_step_outcome cfg env Hsafe cmd w) as Hstep.
    pose proof (dispatch_ends_disabled cfg env cmd (fresh w) Hd) as He.
    unfold ensures in He. unfold bind.
    destruct (dispatch cfg env cmd (fresh w)) as [[[]| e|] w1];
      try contradiction; rewrite Hstep; apply IH.
    + exact He.
    + reflexivity.
Qed.

Lemma driver_is_left_disabled_broken_step :
  disable_safe Cases.broken_step /\ enabled init = false /\
  exists w',
    _worker_loop Config.default Cases.broken_step [Jog 10 10; Home] init
    = (Ok tt, w') /\ enabled w' = false.
Proof.
  assert (Hs : disable_safe Cases.broken_step) by (intros n; reflexivity).
  assert (Hd : enabled init = false) by reflexivity.
  split; [exact Hs|]. split; [exact Hd|].
  exact (driver_is_left_disabled Config.default Cases.broken_step
           [Jog 10 10; Home] init Hs Hd).
Defined.

(** X16.  What a command leaves in [status] and [error]: when it
    returns, [error] is [None] and [status] is ['idle'], or ['stopped']
    with the stop event set (never a busy status); when it raises [e],
    [error] is [str(e)] and [status] is ['error']. *)
Theorem command_report (cfg : Config.SliderConfig) (env : Env)
        (cmd : Command) (w : World) :
  disable_safe env ->
  exists w',
    worker_step cfg env cmd w = (Ok tt, w') /\
    match fst (dispatch cfg env cmd (fresh w)) with
    | Ok _ => error w' = None /\ at_rest w'
    | Raise e => error w' = Some (str e) /\ status w' = Error
    | Diverge => False
    end.
Proof.
  intros Hsafe.
  pose proof (worker_step_outcome cfg env Hsafe cmd w) as Hstep.
  pose proof (dispatch_ends_at_rest cfg env cmd (fresh w)) as Hr.
  pose proof (dispatch_keeps_error cfg env None cmd (fresh w) eq_refl) as He.
  unfold ensures in Hr, He.
  destruct (dispatch cfg env cmd (fresh w)) as [[[]| e|] w1]; cbn [fst].
  - exists w1. auto.
  - exists (handled env e w1). split; [exact Hstep|]. split; reflexivity.
  - contradiction.
Qed.

Lemma command_report_broken_step :
  disable_safe Cases.broken_step /\
  exists w',
    worker_step Config.default Cases.broken_step (Jog 10 10) init = (Ok tt, w') /\
    match fst (dispatch Config.default Cases.broken_step (Jog 10 10) (fresh init)) with
    | Ok _ => error w' = None /\ at_rest w'
    | Raise e => error w' = Some (str e) /\ status w' = Error
    | Diverge => False
    end.
Proof.
  assert (Hs : disable_safe Cases.broken_step) by (intros n; reflexivity).
  split; [exact Hs|].
  exact (command_report Config.default Cases.broken_step (Jog 10 10) init Hs).
Defined.

End EndingClaims.

(** ** Where the commands end *)

Section Rounding.
Import Controller Logic Safety.

Lemma round_error (x : Q) :
  - (1 # 2) <= inject_Z (Py.round x) - x <= 1 # 2.
Proof.
  unfold Py.round. cbv zeta.
  pose proof (Qfloor_le x) as Hl. pose proof (Qlt_floor x) as Hu.
  rewrite inject_Z_plus in Hu. change (inject_Z 1) with 1 in Hu.
  destruct (Qcompare (x - inject_Z (Qfloor x)) (1 # 2)) eqn:E.
  - apply Qeq_alt in E. destruct (Z.even (Qfloor x)).
    + lra.
    + rewrite inject_Z_plus. change (inject_Z 1) with 1. lra.
  - apply Qlt_alt in E. lra.
  - apply Qgt_alt in E. rewrite inject_Z_plus. change (inject_Z 1) with 1. lra.
Qed.

Lemma round_nonneg (x : Q) : 0 <= x -> (0 <= Py.round x)%Z.
Proof.
  intros Hx. unfold Py.round. cbv zeta.
  assert (Hf : (0 <= Qfloor x)%Z).
  { change 0%Z with (Qfloor 0). now apply Qfloor_resp_le. }
  destruct (Qcompare (x - inject_Z (Qfloor x)) (1 # 2)); [|lia|lia].
  destruct (Z.even (Qfloor x)); lia.
Qed.

(** Where a relative move that nothing interrupts ends: within half a
    step of its target, or where it started when the target is less than
    [1e-6] mm away. *)
Lemma move_error (cfg : Config.SliderConfig) (cur d : Q) :
  well_formed cfg ->
  let target := clamp_travel cfg (cur + d) in
  let k := steps_of_move cfg cur d in
  let step := (if direction_of_move cfg cur d then 1 else -1) / steps_per_mm cfg in
  Py.abs (cur + inject_Z (Z.of_nat k) * step - target) < 1 # 1000000 \/
  Py.abs (cur + inject_Z (Z.of_nat k) * step - target)
  <= (1 # 2) / steps_per_mm cfg.
Proof.
  intros [Hs _]. cbv zeta. unfold steps_of_move, direction_of_move.
  set (target := clamp_travel cfg (cur + d)).
  set (spm := steps_per_mm cfg) in *.
  destruct (ltb_reflect (Py.abs (target - cur)) (1 # 1000000)) as [Hnear|Hfar].
  - left. change (inject_Z (Z.of_nat 0)) with 0.
    unfold Py.abs in *.
    assert (E : cur + 0 * ((if Py.ltb 0 (target - cur) then 1 else -1) / spm) - target
                == - (target - cur)) by ring.
    rewrite E, Qabs_opp. exact Hnear.
  - right.
    set (X := Py.abs (target - cur) * spm).
    assert (HX : 0 <= X).
    { unfold X, Py.abs. apply Qmult_le_0_compat; [apply Qabs_nonneg | lra]. }
    rewrite Z2Nat.id by (apply round_nonneg, HX).
    pose proof (round_error X) as Hr.
    set (R := inject_Z (Py.round X)) in *.
    assert (Hinv : 0 < / spm) by (apply Qinv_lt_0_compat, Hs).
    assert (Hspm : spm * / spm == 1) by (field; lra).
    unfold Py.abs. apply Qabs_Qle_condition.
    destruct (ltb_reflect 0 (target - cur)) as [Hpos|Hneg].
    + assert (EX : X == (target - cur) * spm).
      { unfold X. destruct (abs_cases (target - cur)) as [[_ ->]|[H _]]; [reflexivity | lra]. }
      assert (E : cur + R * (1 / spm) - target == (R - X) * / spm).
      { rewrite EX. field. lra. }
      rewrite E. unfold Qdiv. split; nra.
    + assert (EX : X == - (target - cur) * spm).
      { unfold X. destruct (abs_cases (target - cur)) as [[H E]|[_ ->]]; [|reflexivity].
        rewrite E. assert (target - cur == 0) by lra. rewrite H0. ring. }
      assert (E : cur + R * (-1 / spm) - target == - (R - X) * / spm).
      { rewrite EX. field. lra. }
      rewrite E. unfold Qdiv. split; nra.
Qed.

End Rounding.

Section Outcomes.
Import Controller Logic Safety.
Variable cfg : Config.SliderConfig.
Variable env : Env.
Hypothesis Hwf : well_formed cfg.
Hypothesis Hnf : no_faults env.

Lemma no_faults_disable_safe : disable_safe env.
Proof. intros n. apply Hnf. Qed.

(** What the worker leaves when the command returns. *)
Lemma worker_step_returns (cmd : Command) (w : World) (post : World -> Prop) :
  returns (dispatch cfg env cmd) (fresh w) (fun _ => post) ->
  exists w', worker_step cfg env cmd w = (Ok tt, w') /\ post w'.
Proof.
  intros [[] [w' [E H]]].
  pose proof (worker_step_outcome cfg env no_faults_disable_safe cmd w) as Hs.
  rewrite E in Hs. exists w'. auto.
Qed.

Lemma quiet_stop_event (w : World) :
  uninterrupted env -> stop_event w = false -> stop_event (elapse env w) = false.
Proof. intros Hu Hs. cbn. rewrite Hs. destruct (Hu (tick w)) as [-> _]. reflexivity. Qed.

(** [_do_home], with the position: a cancelled homing leaves it within
    the travel if it was, a completed one at 0. *)
Lemma do_home_ends (w : World) :
  returns (_do_home cfg env) w
    (fun _ w' =>
       status w' = Idle /\ enabled w' = false /\ error w' = error w /\
       (homed w' = homed w \/ (homed w' = true /\ current_pos_mm w' = 0)) /\
       (stop_event w' = false -> homed w' = true /\ current_pos_mm w' = 0) /\
       (in_travel cfg w -> in_travel cfg w')).
Proof.
  unfold _do_home.
  apply returns_bind. unfold set_status. apply returns_modify.
  apply returns_bind, returns_driver_enable; [apply Hnf|].
  apply returns_bind. eapply returns_weaken;
    [apply (seek_endstop_returns cfg env Hwf Hnf)|].
  intros u w1 [H1 [H2 [H3 [H4 H5]]]]. cbn in H1, H2, H3, H4, H5.
  apply returns_bind, returns_is_set.
  destruct (stop_event (elapse env w1)) eqn:Es.
  - apply returns_bind, returns_driver_enable; [apply Hnf|].
    apply returns_modify. cbn. cbn in Es. rewrite Es. cbn.
    split; [reflexivity|]. split; [reflexivity|]. split; [exact H3|].
    split; [left; exact H2|]. split; [discriminate|].
    unfold in_travel. cbn. intros Hin.
    destruct H5 as [E5|H5]; [rewrite E5|]; assumption.
  - apply returns_bind. eapply returns_weaken.
    + apply (relative_move_returns cfg env Hwf Hnf Homing 5 30 (elapse env w1));
        auto.
    + intros u' w2 [k [_ [_ [G1 [G2 [G3 [G4 _]]]]]]]. cbn in G1, G2, G3, G4.
      apply returns_bind. eapply returns_weaken;
        [apply (seek_endstop_returns cfg env Hwf Hnf)|].
      intros u'' w3 [K1 [K2 [K3 [K4 _]]]].
      apply returns_bind. unfold set_current_pos_mm. apply returns_modify.
      apply returns_bind. unfold set_homed. apply returns_modify.
      apply returns_bind, returns_driver_enable; [apply Hnf|].
      apply returns_modify. cbn.
      split; [reflexivity|]. split; [reflexivity|]. split; [congruence|].
      split; [right; auto|]. split; [auto|].
      intros _. unfold in_travel. cbn. destruct Hwf as [_ [Ht _]]. lra.
Qed.

(** With no [stop()] at all the event stays unset. *)
Lemma dispatch_keeps_unset (cmd : Command) :
  (forall n, stop_called env n = false) ->
  keeps (fun w => stop_event w = false) (dispatch cfg env cmd).
Proof.
  intros Hq.
  destruct cmd;
    keeps_all ltac:(intros w1 H1; try destruct (enabled w1); cbn;
                    rewrite ?H1, ?Hq; first [reflexivity | exact H1]).
Qed.

Lemma returns_try_finally {A : Type} (m : M A) (cleanup : M unit) (w : World)
      (post : A -> World -> Prop) :
  returns m w (fun a w1 => returns cleanup w1 (fun _ => post a)) ->
  returns (try_finally m cleanup) w post.
Proof.
  intros [a [w1 [E [u [w2 [E' H]]]]]]. exists a, w2. split; [|exact H].
  unfold try_finally. rewrite E, E'. reflexivity.
Qed.

Lemma clamp_travel_wd (x y : Q) :
  x == y -> clamp_travel cfg x == clamp_travel cfg y.
Proof.
  intros E. unfold clamp_travel.
  destruct (min_cases x (Config.travel_mm cfg)) as [[H1 ->]|[H1 ->]];
    destruct (min_cases y (Config.travel_mm cfg)) as [[H2 ->]|[H2 ->]];
    try lra;
    repeat match goal with
    | |- context [Py.max 0 ?z] =>
      let H := fresh in destruct (max_cases 0 z) as [[H ->]|[H ->]]
    end; lra.
Qed.

Lemma prime_target_fixed (profile : Models.MotionProfile) (cur : Q) :
  clamp_travel cfg (cur + (prime_target cfg profile - cur))
  == prime_target cfg profile.
Proof.
  rewrite (clamp_travel_wd _ (prime_target cfg profile)) by ring.
  apply clamp_travel_inside. unfold prime_target.
  apply (clamp_travel_range cfg Hwf).
Qed.

(** The part of [_do_prime] after the automatic home, when nothing
    interrupts. *)
Lemma prime_move_returns (profile : Models.MotionProfile) (w : World) :
  uninterrupted env -> stop_event w = false ->
  returns (prime_move cfg env profile) w
    (fun _ w' =>
       status w' = Idle /\ error w' = error w /\ homed w' = homed w /\
       (Py.abs (current_pos_mm w' - prime_target cfg profile) <= 1 # 2 \/
        Py.abs (current_pos_mm w' - prime_target cfg profile)
        <= (1 # 2) / steps_per_mm cfg)).
Proof.
  intros Hu Hs. unfold prime_move. cbv zeta.
  change (clamp_travel cfg
            match getitem (Models.keyframes profile) 0 with
            | Ok k => Models.pos_mm k
            | _ => 0
            end) with (prime_target cfg profile).
  assert (ET : forall cur, clamp_travel cfg (cur + (prime_target cfg profile - cur))
                           == prime_target cfg profile).
  { intros cur. apply prime_target_fixed. }
  remember (prime_target cfg profile) as start eqn:Estart. clear Estart.
  apply returns_bind, returns_get.
  destruct (leb_reflect (Py.abs (current_pos_mm w - start)) (1 # 2)) as [Hnear|Hfar].
  - unfold set_status. apply returns_modify. cbn. auto.
  - apply returns_bind, returns_driver_enable; [apply Hnf|].
    apply returns_bind, returns_try_finally.
    unfold _move_to_position. apply returns_bind, returns_get.
    cbn [current_pos_mm with_enabled elapse].
    destruct (ltb_reflect (Py.abs (start - current_pos_mm w)) (1 # 1000)) as [Hn|Hf].
    { exfalso. apply Hfar. unfold Py.abs in *.
      assert (E : current_pos_mm w - start == - (start - current_pos_mm w)) by ring.
      rewrite E, Qabs_opp. lra. }
    eapply returns_weaken.
    + apply (relative_move_returns cfg env Hwf Hnf (status w)); try reflexivity.
      intros _. apply quiet_stop_event; auto.
    + cbn [current_pos_mm with_enabled elapse].
      intros u w1 [k [_ [Hk [H1 [H2 [H3 [H4 [H5 [H6 _]]]]]]]]].
      cbn in H2, H3, H6.
      apply returns_driver_enable; [apply Hnf|].
      unfold set_status. apply returns_modify.
      cbn [status error homed current_pos_mm with_status with_enabled elapse].
      split; [reflexivity|]. split; [exact H2|]. split; [exact H3|].
      rewrite (Hk Hu) in H6.
      pose proof (move_error cfg (current_pos_mm w) (start - current_pos_mm w) Hwf) as Hm.
      cbv zeta in Hm. unfold Py.abs in *.
      specialize (ET (current_pos_mm w)).
      set (T' := clamp_travel cfg (current_pos_mm w + (start - current_pos_mm w))) in *.
      assert (EQ : current_pos_mm w1 - start
                   == current_pos_mm w
                      + inject_Z (Z.of_nat (steps_of_move cfg (current_pos_mm w)
                                              (start - current_pos_mm w)))
                        * ((if direction_of_move cfg (current_pos_mm w)
                                 (start - current_pos_mm w)
                            then 1 else -1) / steps_per_mm cfg)
                      - T').
      { rewrite H6, ET. reflexivity. }
      rewrite EQ.
      destruct Hm as [Hm|Hm]; [left; lra | right; exact Hm].
Qed.

End Outcomes.

Section OutcomeClaims.
Import Controller Logic Safety.

(** X18.  Homing, when no call fails: the command returns with status
    ['idle'], the driver disabled and no error; [homed] is left as it was
    or set together with [current_pos_mm = 0]; it is set whenever the
    stop event is unset at the end, and so whenever nobody calls
    [stop()], whether or not the min endstop was ever read pressed; and
    a position within the travel stays within it. *)
Theorem home_outcome (cfg : Config.SliderConfig) (env : Env) (w : World) :
  well_formed cfg -> no_faults env ->
  exists w',
    worker_step cfg env Home w = (Ok tt, w') /\
    status w' = Idle /\ enabled w' = false /\ error w' = None /\
    (homed w' = homed w \/ (homed w' = true /\ current_pos_mm w' = 0)) /\
    (stop_event w' = false -> homed w' = true /\ current_pos_mm w' = 0) /\
    ((forall n, stop_called env n = false) ->
     homed w' = true /\ current_pos_mm w' = 0) /\
    (in_travel cfg w -> in_travel cfg w').
Proof.
  intros Hwf Hnf.
  destruct (worker_step_returns cfg env Hnf Home w
              (fun w' =>
                 status w' = Idle /\ enabled w' = false /\ error w' = None /\
                 (homed w' = homed w \/
                  (homed w' = true /\ current_pos_mm w' = 0)) /\
                 (stop_event w' = false ->
                  homed w' = true /\ current_pos_mm w' = 0) /\
                 (in_travel cfg w -> in_travel cfg w')))
    as [w' [E H]].
  { cbn [dispatch]. eapply returns_weaken; [apply (do_home_ends cfg env Hwf Hnf)|].
    intros u w' H. exact H. }
  destruct H as [H1 [H2 [H3 [H4 [H5 H6]]]]].
  exists w'. repeat (split; [assumption|]). split; [|exact H6].
  intros Hq. apply H5.
  pose proof (dispatch_keeps_unset cfg env Home Hq (fresh w) eq_refl) as Hk.
  pose proof (worker_step_outcome cfg env (no_faults_disable_safe env Hnf) Home w) as Hs.
  unfold ensures in Hk.
  destruct (dispatch cfg env Home (fresh w)) as [[[]| e|] w1]; try contradiction.
  - rewrite E in Hs. injection Hs as <-. exact Hk.
  - rewrite E in Hs. injection Hs as ->.
    cbn in H1. discriminate.
Qed.

Lemma home_outcome_quiet :
  well_formed Config.default /\ no_faults quiet /\
  exists w',
    worker_step Config.default quiet Home init = (Ok tt, w') /\
    status w' = Idle /\ enabled w' = false /\ error w' = None /\
    (homed w' = homed init \/ (homed w' = true /\ current_pos_mm w' = 0)) /\
    (stop_event w' = false -> homed w' = true /\ current_pos_mm w' = 0) /\
    ((forall n, stop_called quiet n = false) ->
     homed w' = true /\ current_pos_mm w' = 0) /\
    (in_travel Config.default init -> in_travel Config.default w').
Proof.
  assert (Hwf : well_formed Config.default) by (repeat split).
  assert (Hnf : no_faults quiet) by (intros n op; reflexivity).
  split; [exact Hwf|]. split; [exact Hnf|].
  exact (home_outcome Config.default quiet init Hwf Hnf).
Defined.

(** X19.  Priming a homed slider that is already within 0.5 mm of the
    profile's start does nothing but report: no call leaves the worker
    (so nothing can fail and no instant passes), and the only change is
    [status = 'idle'] on top of the cleared event and error. *)
Theorem prime_at_start_is_idle (cfg : Config.SliderConfig) (env : Env)
        (profile : Models.MotionProfile) (w : World) :
  homed w = true ->
  Py.abs (current_pos_mm w - prime_target cfg profile) <= 1 # 2 ->
  worker_step cfg env (Prime profile) w = (Ok tt, with_status Idle (fresh w)).
Proof.
  intros Hh Hnear.
  unfold worker_step, try_except, bind, stop_event_clear, set_error, modify.
  change (with_error None (with_stop_event false w)) with (fresh w).
  cbn [dispatch]. unfold _do_prime, bind, set_status, modify, get.
  replace (homed (with_status Priming (fresh w))) with true by (symmetry; exact Hh).
  cbn [negb]. unfold prime_move, bind, get, set_status, modify. cbv zeta.
  change (current_pos_mm (with_status Priming (fresh w))) with (current_pos_mm w).
  change (clamp_travel cfg
            match getitem (Models.keyframes profile) 0 with
            | Ok k => Models.pos_mm k
            | _ => 0
            end) with (prime_target cfg profile).
  destruct (leb_reflect (Py.abs (current_pos_mm w - prime_target cfg profile)) (1 # 2));
    [reflexivity | contradiction].
Qed.

Lemma prime_at_start_is_idle_sweep :
  homed (with_homed true init) = true /\
  Py.abs (current_pos_mm (with_homed true init)
          - prime_target Config.default Cases.sweep) <= 1 # 2 /\
  worker_step Config.default Cases.broken_step (Prime Cases.sweep)
              (with_homed true init)
  = (Ok tt, with_status Idle (fresh (with_homed true init))).
Proof.
  assert (Hh : homed (with_homed true init) = true) by reflexivity.
  assert (Hn : Py.abs (current_pos_mm (with_homed true init)
                       - prime_target Config.default Cases.sweep) <= 1 # 2).
  { vm_compute. discriminate. }
  split; [exact Hh|]. split; [exact Hn|].
  exact (prime_at_start_is_idle Config.default Cases.broken_step Cases.sweep
           (with_homed true init) Hh Hn).
Defined.



(** X21.  While the endstop that a jog runs towards reads pressed, the
    jog emits no step pulse and leaves [current_pos_mm] as it was,
    whatever else happens: the endstop is read before every pulse. *)
Theorem jog_against_pressed_endstop (cfg : Config.SliderConfig) (env : Env)
        (distance_mm speed_mm_s : Q) (w : World) :
  facing_endstop_pressed env
    (direction_of_move cfg (current_pos_mm w) distance_mm) ->
  pulses (snd (worker_step cfg env (Jog distance_mm speed_mm_s) w)) = pulses w /\
  current_pos_mm (snd (worker_step cfg env (Jog distance_mm speed_mm_s) w))
  = current_pos_mm w.
Proof.
  intros Hf.
  set (I := fun w' : World =>
              pulses w' = pulses w /\ current_pos_mm w' = current_pos_mm w).
  assert (Hmove : forall s, keeps I (_relative_move cfg env distance_mm s)).
  { intros s w1 [Hp Hc]. unfold _relative_move.
    apply ensures_bind, ensures_get. rewrite Hc.
    fold (direction_of_move cfg (current_pos_mm w) distance_mm).
    destruct (Py.ltb (Py.abs (clamp_travel cfg (current_pos_mm w + distance_mm)
                              - current_pos_mm w)) (1 # 1000000)).
    { apply ensures_ret. split; assumption. }
    assert (HI : I w1) by (split; assumption).
    apply ensures_bind, ensures_driver_set_dir; [|exact HI].
    apply ensures_bind, ensures_lift; [|exact HI]. intros inv _.
    apply (ensures_for_each _ I I I); [| auto | exact HI].
    intros x w2 H2.
    apply ensures_bind, ensures_is_set.
    destruct (stop_event (elapse env w2)); [apply ensures_ret; exact H2|].
    unfold facing_endstop_pressed in Hf.
    destruct (direction_of_move cfg (current_pos_mm w) distance_mm); cbn [negb].
    - apply ensures_bind, ensures_read_max; [|exact H2].
      rewrite Hf. apply ensures_ret. exact H2.
    - apply ensures_bind, ensures_ret.
      apply ensures_bind, ensures_read_min; [|exact H2].
      rewrite Hf. apply ensures_ret. exact H2. }
  apply (ensures_snd _ _ I).
  unfold worker_step.
  apply ensures_bind, ensures_modify, ensures_bind, ensures_modify.
  assert (H0 : I (with_error None (with_stop_event false w))) by (split; reflexivity).
  revert H0. generalize (with_error None (with_stop_event false w)).
  change (keeps I (try_except (dispatch cfg env (Jog distance_mm speed_mm_s))
                     (fun e => set_error (Some (str e)) ;; set_status Error ;;
                               driver_enable env false))).
  apply keeps_try_except.
  - cbn [dispatch]. unfold _do_jog.
    apply keeps_bind; [|intro]. { keeps_all ltac:(intros w1 H1; exact H1). }
    apply keeps_bind; [|intro]. { keeps_all ltac:(intros w1 H1; exact H1). }
    apply keeps_bind; [apply Hmove|intro].
    keeps_all ltac:(intros w1 H1; exact H1).
  - intro e. keeps_all ltac:(intros w1 H1; exact H1).
Qed.

Lemma jog_against_pressed_endstop_at_max :
  facing_endstop_pressed Cases.at_max
    (direction_of_move Config.default (current_pos_mm init) 10) /\
  pulses (snd (worker_step Config.default Cases.at_max (Jog 10 10) init))
  = pulses init /\
  current_pos_mm (snd (worker_step Config.default Cases.at_max (Jog 10 10) init))
  = current_pos_mm init.
Proof.
  assert (Hf : facing_endstop_pressed Cases.at_max
                 (direction_of_move Config.default (current_pos_mm init) 10)).
  { intros n. vm_compute. reflexivity. }
  split; [exact Hf|].
  exact (jog_against_pressed_endstop Config.default Cases.at_max 10 10 init Hf).
Defined.

End OutcomeClaims.

(** ** Presets *)

Section PresetFacts.
Import Models Presets.

Lemma dict_get_app (key : string) (a b : dict) :
  dict_get key (a ++ b)
  = match dict_get key b with
    | Some v => Some v
    | None => dict_get key a
    end.
Proof.
  induction a as [|[k x] rest IH]; simpl.
  - destruct (dict_get key b); reflexivity.
  - rewrite IH. destruct (dict_get key b); reflexivity.
Qed.

Lemma dict_get_replace_same (key : string) (v : json) (d : dict) :
  dict_get key (replace key v d)
  = match dict_get key d with
    | Some _ => Some v
    | None => None
    end.
Proof.
  induction d as [|[k x] rest IH]; simpl; [reflexivity|].
  rewrite IH. destruct (dict_get key rest); [reflexivity|].
  destruct (String.eqb k key); reflexivity.
Qed.

Lemma dict_get_replace_other (key other : string) (v : json) (d : dict) :
  other <> key -> dict_get other (replace key v d) = dict_get other d.
Proof.
  intros Hne. induction d as [|[k x] rest IH]; simpl; [reflexivity|].
  rewrite IH. destruct (dict_get other rest); [reflexivity|].
  destruct (String.eqb_spec k other) as [->|_]; [|reflexivity].
  destruct (String.eqb_spec other key); [contradiction | reflexivity].
Qed.

Lemma dict_get_setitem_same (key : string) (v : json) (d : dict) :
  dict_get key (setitem key v d) = Some v.
Proof.
  unfold setitem, contains. destruct (dict_get key d) eqn:E.
  - rewrite dict_get_replace_same, E. reflexivity.
  - rewrite dict_get_app. simpl. rewrite String.eqb_refl. reflexivity.
Qed.

Lemma dict_get_setitem_other (key other : string) (v : json) (d : dict) :
  other <> key -> dict_get other (setitem key v d) = dict_get other d.
Proof.
  intros Hne. unfold setitem. destruct (contains key d).
  - now apply dict_get_replace_other.
  - rewrite dict_get_app. simpl.
    destruct (String.eqb_spec key other) as [E|_]; [|reflexivity].
    symmetry in E. contradiction.
Qed.

Lemma dict_get_pop_same (key : string) (d : dict) :
  dict_get key (pop key d) = None.
Proof.
  induction d as [|[k x] rest IH]; simpl; [reflexivity|].
  destruct (String.eqb_spec k key) as [->|Hne]; simpl; [exact IH|].
  rewrite IH. destruct (String.eqb_spec k key); [contradiction | reflexivity].
Qed.

Lemma dict_get_pop_other (key other : string) (d : dict) :
  other <> key -> dict_get other (pop key d) = dict_get other d.
Proof.
  intros Hne. induction d as [|[k x] rest IH]; simpl; [reflexivity|].
  destruct (String.eqb_spec k key) as [->|Hk]; simpl.
  - rewrite IH. destruct (dict_get other rest); [reflexivity|].
    destruct (String.eqb_spec key other) as [E|_]; [|reflexivity].
    symmetry in E. contradiction.
  - rewrite IH. reflexivity.
Qed.

(** Validating the stored form of a profile is constructing it. *)
Lemma model_validate_dump (profile : MotionProfile) :
  Forall Spec.keyframe_fields_ok (keyframes profile) ->
  model_validate (model_dump_json profile) = construct profile.
Proof.
  intros Hf. unfold model_validate, model_dump_json.
  cbn [dict_get String.eqb Ascii.eqb Bool.eqb parse_float obind].
  rewrite parse_dump_keyframes by exact Hf.
  cbn [obind]. destruct profile as [len kfs spd acc]. reflexivity.
Qed.

End PresetFacts.

Section PresetClaims.
Import Models Presets Api Controller.

(** X22.  A saved preset runs as it was saved: after [api_preset_save]
    of a valid profile under a name, when the presets file held a JSON
    object (other presets, an older one of that name) or nothing
    readable, [api_run_preset] and [api_prime_preset] of that name
    answer ok and put at the end of the queue a command for exactly that
    profile. *)
Theorem saved_preset_runs (name : string) (profile : MotionProfile) (s : Server) :
  Spec.valid profile ->
  api_run_preset name (fst (api_preset_save name profile s))
  = ({| presets := save_preset name profile (presets s);
        queue := queue s ++ [RunProfile profile] |}, Done) /\
  api_prime_preset name (fst (api_preset_save name profile s))
  = ({| presets := save_preset name profile (presets s);
        queue := queue s ++ [Prime profile] |}, Done).
Proof.
  intros Hv.
  assert (Hget : dict_get name (list_presets (save_preset name profile (presets s)))
                 = Some (model_dump_json profile)).
  { unfold save_preset. cbn [list_presets]. apply dict_get_setitem_same. }
  assert (Hparse : model_validate (model_dump_json profile) = Ok profile).
  { rewrite model_validate_dump by (apply valid_fields, Hv).
    now apply construct_valid. }
  unfold api_run_preset, api_prime_preset, with_preset, api_preset_save.
  cbn [fst presets queue]. rewrite Hget, Hparse. split; reflexivity.
Qed.

Lemma saved_preset_runs_sweep :
  Spec.valid Cases.sweep /\
  api_run_preset "sweep"
    (fst (api_preset_save "sweep" Cases.sweep
            {| presets := Unreadable; queue := [Home] |}))
  = ({| presets := save_preset "sweep" Cases.sweep Unreadable;
        queue := [Home] ++ [RunProfile Cases.sweep] |}, Done) /\
  api_prime_preset "sweep"
    (fst (api_preset_save "sweep" Cases.sweep
            {| presets := Unreadable; queue := [Home] |}))
  = ({| presets := save_preset "sweep" Cases.sweep Unreadable;
        queue := [Home] ++ [Prime Cases.sweep] |}, Done).
Proof.
  assert (Hv : Spec.valid Cases.sweep).
  { exists Cases.sweep. vm_compute. reflexivity. }
  split; [exact Hv|].
  exact (saved_preset_runs "sweep" Cases.sweep
           {| presets := Unreadable; queue := [Home] |} Hv).
Defined.

(** X23.  Presets do not interfere: saving or deleting a preset leaves
    what is stored under every other name as it was. *)
Theorem presets_are_independent (name other : string) (profile : MotionProfile)
        (f : File) :
  other <> name ->
  dict_get other (list_presets (save_preset name profile f))
  = dict_get other (list_presets f) /\
  dict_get other (list_presets (delete_preset name f))
  = dict_get other (list_presets f).
Proof.
  intros Hne. split.
  - unfold save_preset. cbn [list_presets]. now apply dict_get_setitem_other.
  - unfold delete_preset. destruct (contains name (list_presets f)); [|reflexivity].
    cbn [list_presets]. now apply dict_get_pop_other.
Qed.

Lemma presets_are_independent_sweep :
  "dip"%string <> "sweep"%string /\
  dict_get "dip" (list_presets (save_preset "sweep" Cases.sweep
                                  (Holds [("dip"%string, model_dump_json Cases.dip)])))
  = dict_get "dip" (list_presets (Holds [("dip"%string, model_dump_json Cases.dip)])) /\
  dict_get "dip" (list_presets (delete_preset "sweep"
                                  (Holds [("dip"%string, model_dump_json Cases.dip)])))
  = dict_get "dip" (list_presets (Holds [("dip"%string, model_dump_json Cases.dip)])).
Proof.
  assert (Hne : "dip"%string <> "sweep"%string) by discriminate.
  split; [exact Hne|].
  exact (presets_are_independent "sweep" "dip" Cases.sweep
           (Holds [("dip"%string, model_dump_json Cases.dip)]) Hne).
Defined.

(** X24.  A deleted preset is gone: after [api_preset_delete] of a name,
    [api_run_preset] of that name answers 404 and queues nothing; and
    deleting a name that is not stored does not write the file, which is
    left as it was even when it is unreadable. *)
Theorem deleted_preset_is_gone (name : string) (s : Server) :
  api_run_preset name (fst (api_preset_delete name s))
  = (fst (api_preset_delete name s), NotFound) /\
  queue (fst (api_preset_delete name s)) = queue s /\
  (dict_get name (list_presets (presets s)) = None ->
   delete_preset name (presets s) = presets s).
Proof.
  assert (Hget : dict_get name (list_presets (delete_preset name (presets s))) = None).
  { unfold delete_preset, contains.
    destruct (dict_get name (list_presets (presets s))) eqn:E.
    - cbn [list_presets]. apply dict_get_pop_same.
    - exact E. }
  split; [|split].
  - unfold api_run_preset, with_preset, api_preset_delete. cbn [fst presets].
    rewrite Hget. reflexivity.
  - reflexivity.
  - intros E. unfold delete_preset, contains. rewrite E. reflexivity.
Qed.

End PresetClaims.

(** ** The progress reported *)

Section SampleTimes.
Import Models Spec Planner.

Lemma sample_loop_stepped (kfs : list Keyframe) (total_t dt : Q) :
  forall fuel seg t_ times pos,
  sample_loop kfs fuel total_t dt seg t_ = Ok (times, pos) ->
  stepped dt (total_t + (1 # 1000000000)) t_ times.
Proof.
  induction fuel as [|fuel IH]; intros seg t_ times pos H; cbn [sample_loop] in H;
    destruct (leb_reflect t_ (total_t + (1 # 1000000000))) as [Hle|Hgt];
    try discriminate.
  - injection H as <- <-. simpl. lra.
  - destruct (advance_seg kfs t_ (List.length kfs) seg) as [seg'| |];
      cbn [obind] in H; try discriminate.
    destruct (getitem kfs seg') as [k0| |]; cbn [obind] in H; try discriminate.
    destruct (getitem kfs (seg' + 1)) as [k1| |]; cbn [obind] in H; try discriminate.
    destruct (_ease_fn k1) as [f| |]; cbn [obind] in H; try discriminate.
    destruct (sample_loop kfs fuel total_t dt seg' (t_ + dt)) as [[ts ps]| |] eqn:E;
      cbn [obind] in H; try discriminate.
    injection H as <- <-. simpl. split; [reflexivity|]. split; [exact Hle|].
    apply (IH seg' (t_ + dt) ts ps E).
  - injection H as <- <-. simpl. lra.
Qed.

Lemma increasing_below_last (ts : list Q) :
  forall lo, increasing_from lo ts -> Forall (fun x => x <= last ts lo) ts.
Proof.
  induction ts as [|y r IH]; intros lo H; [constructor|].
  destruct H as [Hlo Hr]. specialize (IH y Hr).
  destruct r as [|z r'].
  - constructor; [simpl; lra | constructor].
  - change (last (y :: z :: r') lo) with (last (z :: r') lo).
    rewrite (last_default (z :: r') lo y) by discriminate.
    constructor; [|exact IH].
    inversion IH as [|a l Hz _]; subst.
    destruct Hr as [Hyz _]. lra.
Qed.

(** Whatever the profile, the times that [sample_profile] returns lie
    between 0 and the last of them. *)
Lemma sample_times_bounds (profile : MotionProfile) (dt : Q)
      (times pos : list Q) (tl : Q) :
  0 < dt -> sample_profile profile dt = Ok (times, pos) ->
  getlast times = Ok tl ->
  Forall (fun x => 0 <= x <= tl) times.
Proof.
  intros Hdt H Htl. unfold sample_profile, sample_profile_fuel in H.
  destruct (total_time (keyframes profile)) as [T| |] eqn:ET;
    cbn [obind] in H; try discriminate.
  pose proof (total_time_positive _ _ ET) as HT.
  destruct (sample_loop (keyframes profile) (sample_fuel profile dt) T dt 0 0)
    as [[ts ps]| |] eqn:El; cbn [obind] in H; try discriminate.
  pose proof (sample_loop_stepped _ _ _ _ _ _ _ _ El) as Hst.
  destruct ts as [|x r]; [simpl in Hst; lra|].
  assert (Hne : x :: r <> []) by discriminate.
  rewrite (getlast_last (x :: r) 0 Hne) in H. cbn [obind] in H.
  destruct (getlast (keyframes profile)) as [kl| |]; cbn [obind] in H;
    try discriminate.
  destruct (stepped_increasing dt (T + (1 # 1000000000)) (x :: r) Hdt 0 (-1))
    as [Hinc Hrange]; [lra | exact Hst |].
  pose proof (increasing_below_last (x :: r) (-1) Hinc) as Hbelow.
  rewrite (last_default (x :: r) (-1) 0 Hne) in Hbelow.
  assert (Hboth : Forall (fun y => 0 <= y <= last (x :: r) 0) (x :: r)).
  { rewrite Forall_forall in *. intros y Hy.
    specialize (Hrange y Hy). specialize (Hbelow y Hy). cbv beta in Hrange. lra. }
  destruct (ltb_reflect (last (x :: r) 0) (t kl)) as [Hlt|Hge];
    injection H as <- <-.
  - change (getlast ((x :: r) ++ [t kl]) = Ok tl) in Htl.
    rewrite getlast_app in Htl. injection Htl as <-.
    change (Forall (fun y => 0 <= y <= t kl) ((x :: r) ++ [t kl])).
    apply Forall_app. split.
    + eapply Forall_impl; [|exact Hboth]. cbv beta. intros y Hy. lra.
    + constructor; [|constructor].
      rewrite Forall_forall in Hboth.
      assert (0 <= last (x :: r) 0).
      { apply (Hboth (last (x :: r) 0)).
        apply (nth_error_In (x :: r) (List.length (x :: r) - 1)).
        now apply nth_error_last. }
      lra.
  - rewrite (getlast_last (x :: r) 0 Hne) in Htl. injection Htl as <-.
    exact Hboth.
Qed.

End SampleTimes.

Section Progress.
Import Controller Logic Safety.
Variable cfg : Config.SliderConfig.
Variable env : Env.

Lemma keeps_bind_lift {A B : Type} (I : World -> Prop) (o : outcome A)
      (k : A -> M B) :
  (forall a, o = Ok a -> keeps I (k a)) -> keeps I (bind (lift o) k).
Proof.
  intros Hk w H. apply ensures_bind, ensures_lift; [|exact H].
  intros a E. now apply Hk.
Qed.

Lemma progress_ratio (times : list Q) (tl : Q) (j : nat) (t1 q : Q) :
  Forall (fun x => 0 <= x <= tl) times ->
  getitem times j = Ok t1 ->
  truediv t1 (Py.max (1 # 1000000) tl) = Ok q ->
  0 <= q <= 1.
Proof.
  intros Hb Ht Hq. unfold getitem in Ht.
  destruct (nth_error times j) as [x|] eqn:E; [|discriminate].
  injection Ht as ->. apply nth_error_In in E.
  rewrite Forall_forall in Hb. specialize (Hb t1 E). cbv beta in Hb.
  pose proof (max_ge_l (1 # 1000000) tl) as H1.
  pose proof (max_ge_r (1 # 1000000) tl) as H2.
  set (M := Py.max (1 # 1000000) tl) in *.
  assert (HM : 0 < M) by (assert (0 < 1 # 1000000) by reflexivity; lra).
  unfold truediv in Hq. destruct (eqb_reflect M 0); [discriminate|].
  injection Hq as <-. split.
  - apply Qle_shift_div_l; lra.
  - apply Qle_shift_div_r; lra.
Qed.

Ltac frame_progress :=
  let wz := fresh "w" in
  let Hz := fresh "Hw" in
  intros wz Hz; try destruct (enabled wz); exact Hz.

Lemma run_segment_keeps_progress (times pos : list Q) (tl start_time : Q) (i : nat) :
  Forall (fun x => 0 <= x <= tl) times ->
  keeps progress_in_unit
        (run_segment cfg env times pos (Py.max (1 # 1000000) tl) start_time i).
Proof.
  intros Hb. unfold run_segment, run_pulse. keeps_unfold.
  repeat first
    [ apply keeps_bind_lift; intros ? ?
    | keeps_step
    | apply keeps_modify; intros wz Hz; try destruct (enabled wz);
      first [ exact Hz
            | match goal with
              | Ht : getitem times _ = Ok ?t1,
                Hq : truediv ?t1 _ = Ok ?q |- progress_in_unit (with_progress ?q _) =>
                exact (progress_ratio times tl _ t1 q Hb Ht Hq)
              end ]
    | apply keeps_external; frame_progress ].
Qed.

Lemma run_profile_keeps_progress (profile : Models.MotionProfile) :
  keeps progress_in_unit (_do_run_profile cfg env profile).
Proof.
  unfold _do_run_profile.
  apply keeps_bind; [keeps_all frame_progress | intro].
  apply keeps_bind; [keeps_all frame_progress | intro].
  apply keeps_bind_lift. intros [times pos] Hs. cbn [fst snd].
  apply keeps_bind_lift. intros tl Htl.
  assert (Hb : Forall (fun x => 0 <= x <= tl) times).
  { apply (sample_times_bounds profile (2 # 100) times pos tl); auto. reflexivity. }
  apply keeps_bind; [keeps_all frame_progress | intro start_time].
  apply keeps_bind;
    [apply keeps_for_each; intro i; now apply run_segment_keeps_progress | intro].
  apply keeps_bind; [destruct (getlast pos); keeps_all frame_progress | intro].
  apply keeps_bind; [keeps_all frame_progress | intro].
  intros w H.
  apply ensures_bind, ensures_is_set.
  apply ensures_bind. unfold set_status. apply ensures_modify.
  apply ensures_bind, ensures_get, ensures_bind, ensures_get.
  unfold set_progress. apply ensures_modify.
  unfold progress_in_unit in *. cbn [progress with_progress with_status elapse status].
  destruct (status_eqb _ Idle); [split; discriminate | exact H].
Qed.

End Progress.

Section ProgressClaim.
Import Controller Logic Safety.

(** X25.  [progress] stays a fraction: if it lies in [[0, 1]] when the
    worker starts a list of commands, it lies in [[0, 1]] at the end,
    for every profile (valid or not) and whatever fails or is cancelled:
    it is only ever set to [t1 / total_t] for a sampled time [t1], which
    lies between 0 and the last sampled time, or to 1. *)
Theorem progress_is_a_fraction (cfg : Config.SliderConfig) (env : Env)
        (cmds : list Command) (w : World) :
  progress_in_unit w ->
  progress_in_unit (snd (_worker_loop cfg env cmds w)).
Proof.
  intros H.
  apply (ensures_snd _ _ progress_in_unit).
  apply (worker_loop_keeps cfg env progress_in_unit); [|exact H].
  intros cmd. unfold worker_step.
  apply keeps_bind; [keeps_all ltac:(intros w1 H1; exact H1) | intro].
  apply keeps_bind; [keeps_all ltac:(intros w1 H1; exact H1) | intro].
  apply keeps_try_except.
  - destruct cmd; cbn [dispatch];
      [ | | apply run_profile_keeps_progress | ];
      keeps_all ltac:(intros w1 H1; try destruct (enabled w1); exact H1).
  - intro e. keeps_all ltac:(intros w1 H1; exact H1).
Qed.

Lemma progress_is_a_fraction_creep :
  progress_in_unit init /\
  progress_in_unit
    (snd (_worker_loop Config.default (Cases.stop_at 13)
                       [RunProfile Cases.creep; Home] init)).
Proof.
  assert (H : progress_in_unit init) by (split; discriminate).
  split; [exact H|].
  exact (progress_is_a_fraction Config.default (Cases.stop_at 13)
           [RunProfile Cases.creep; Home] init H).
Defined.

End ProgressClaim.

(** ** From a preset to the end of its run *)

Section Workflow.
Import Models Spec Planner Controller Logic Safety.
Variable cfg : Config.SliderConfig.
Variable env : Env.
Hypothesis Hwf : well_formed cfg.
Hypothesis Hnf : no_faults env.

(** A run of a valid profile, as the worker executes it. *)
Lemma run_step_returns (profile : MotionProfile) (w : World) :
  valid profile ->
  exists w' times pos pl,
    worker_step cfg env (RunProfile profile) w = (Ok tt, w') /\
    sample_profile profile (2 # 100) = Ok (times, pos) /\
    getlast pos = Ok pl /\
    current_pos_mm w' = clamp_travel cfg pl /\
    error w' = None /\ enabled w' = false /\ homed w' = homed w /\
    status w' = (if stop_event w' then Stopped else Idle) /\
    (stop_event w' = false -> progress w' = 1).
Proof.
  intros Hv.
  destruct (run_profile_returns cfg env Hwf Hnf profile (fresh w) Hv)
    as [times [pos [tl [pl [w' [Es [Etl [Epl [E [H1 [H2 [H3 [H4 _]]]]]]]]]]]]].
  pose proof (worker_step_outcome cfg env (no_faults_disable_safe env Hnf)
                (RunProfile profile) w) as Hs.
  pose proof (dispatch_keeps_error cfg env None (RunProfile profile) (fresh w) eq_refl)
    as He.
  assert (Hh : keeps (fun w1 => homed w1 = homed w) (dispatch cfg env (RunProfile profile))).
  { keeps_all ltac:(let wz := fresh "w" in let Hz := fresh "Hw" in
                    intros wz Hz; try destruct (enabled wz); exact Hz). }
  specialize (Hh (fresh w) eq_refl).
  cbn [dispatch] in Hs, He, Hh. unfold ensures in He, Hh.
  rewrite E in Hs, He, Hh.
  exists w', times, pos, pl. split; [exact Hs|]. split; [exact Es|].
  split; [exact Epl|]. split; [exact H1|].
  repeat split; auto.
Qed.

(** With no [stop()] at all, the event is unset after a command. *)
Lemma worker_step_unset (cmd : Command) (w w' : World) :
  uninterrupted env -> worker_step cfg env cmd w = (Ok tt, w') ->
  status w' <> Error -> stop_event w' = false.
Proof.
  intros Hu E Hst.
  assert (Hq : forall n, stop_called env n = false) by (intros n; apply (Hu n)).
  pose proof (dispatch_keeps_unset cfg env cmd Hq (fresh w) eq_refl) as Hk.
  pose proof (worker_step_outcome cfg env (no_faults_disable_safe env Hnf) cmd w) as Hs.
  unfold ensures in Hk.
  destruct (dispatch cfg env cmd (fresh w)) as [[[]| e|] w1]; try contradiction.
  - rewrite E in Hs. injection Hs as <-. exact Hk.
  - rewrite E in Hs. injection Hs as ->. exfalso. apply Hst. reflexivity.
Qed.

Lemma home_step_quiet (w : World) :
  uninterrupted env ->
  exists w', worker_step cfg env Home w = (Ok tt, w') /\ homed w' = true.
Proof.
  intros Hu.
  destruct (worker_step_returns cfg env Hnf Home w
              (fun w' => status w' = Idle /\
                         (stop_event w' = false -> homed w' = true)))
    as [w' [E [Hst Hh]]].
  { cbn [dispatch]. eapply returns_weaken; [apply (do_home_ends cfg env Hwf Hnf)|].
    intros u w' [H1 [_ [_ [_ [H5 _]]]]]. split; [exact H1|].
    intros Hs. apply (H5 Hs). }
  exists w'. split; [exact E|]. apply Hh.
  apply (worker_step_unset Home w w' Hu E). rewrite Hst. discriminate.
Qed.

Lemma prime_step_quiet (profile : MotionProfile) (w : World) :
  uninterrupted env -> homed w = true ->
  exists w', worker_step cfg env (Prime profile) w = (Ok tt, w') /\ homed w' = true.
Proof.
  intros Hu Hh.
  apply (worker_step_returns cfg env Hnf (Prime profile) w (fun w' => homed w' = true)).
  cbn [dispatch]. unfold _do_prime.
  apply returns_bind. unfold set_status. apply returns_modify.
  apply returns_bind, returns_get.
  replace (homed (with_status Priming (fresh w))) with true by (symmetry; exact Hh).
  cbn [negb]. eapply returns_weaken.
  - apply (prime_move_returns cfg env Hwf Hnf profile); [exact Hu | reflexivity].
  - intros u w' [_ [_ [H3 _]]]. rewrite H3. exact Hh.
Qed.

End Workflow.

Section WorkflowClaims.
Import Models Spec Planner Controller Logic Safety.

(** X27.  The usual session, end to end.  Saving a valid profile as a
    preset (the presets file holding a JSON object or nothing
    readable), then asking for a home, a prime of the preset and a run
    of the preset, leaves the queue [home; prime profile; run profile];
    and when no call fails, nobody calls [stop()] and no endstop reads
    pressed, the worker executes it all and ends homed and ['idle'],
    with [progress = 1], no error, the driver disabled and
    [current_pos_mm] at the last position the planner gave for the
    profile, clamped to the travel. *)
Theorem preset_workflow (cfg : Config.SliderConfig) (env : Env)
        (name : string) (profile : MotionProfile) (s : Api.Server) (w : World) :
  well_formed cfg -> no_faults env -> uninterrupted env ->
  valid profile -> Api.queue s = [] ->
  let s1 := fst (Api.api_preset_save name profile s) in
  let s2 := fst (Api.api_home s1) in
  let s3 := fst (Api.api_prime_preset name s2) in
  let s4 := fst (Api.api_run_preset name s3) in
  Api.queue s4 = [Home; Prime profile; RunProfile profile] /\
  exists w' times pos pl,
    _worker_loop cfg env (Api.queue s4) w = (Ok tt, w') /\
    sample_profile profile (2 # 100) = Ok (times, pos) /\
    getlast pos = Ok pl /\
    current_pos_mm w' = clamp_travel cfg pl /\
    in_travel cfg w' /\
    homed w' = true /\ status w' = Idle /\ progress w' = 1 /\
    error w' = None /\ enabled w' = false.
Proof.
  intros Hwf Hnf Hu Hv Hq. cbv zeta.
  assert (Hget : forall q,
            dict_get name
              (Presets.list_presets
                 (Api.presets {| Api.presets := Presets.save_preset name profile (Api.presets s);
                                 Api.queue := q |}))
            = Some (model_dump_json profile)).
  { intros q. cbn [Api.presets]. unfold Presets.save_preset.
    cbn [Presets.list_presets]. apply dict_get_setitem_same. }
  assert (Hparse : model_validate (model_dump_json profile) = Ok profile).
  { rewrite model_validate_dump by (apply valid_fields, Hv).
    now apply construct_valid. }
  assert (Hqueue : Api.queue
                     (fst (Api.api_run_preset name
                        (fst (Api.api_prime_preset name
                           (fst (Api.api_home
                              (fst (Api.api_preset_save name profile s))))))))
                   = [Home; Prime profile; RunProfile profile]).
  { unfold Api.api_preset_save, Api.api_home, Api.enqueue. cbn [fst Api.presets Api.queue].
    rewrite Hq. cbn [app].
    unfold Api.api_prime_preset, Api.with_preset. rewrite Hget, Hparse.
    unfold Api.enqueue. cbn [fst Api.presets Api.queue app].
    unfold Api.api_run_preset, Api.with_preset. rewrite Hget, Hparse.
    reflexivity. }
  split; [exact Hqueue|]. rewrite Hqueue.
  destruct (home_step_quiet cfg env Hwf Hnf w Hu) as [w1 [E1 Hh1]].
  destruct (prime_step_quiet cfg env Hwf Hnf profile w1 Hu Hh1) as [w2 [E2 Hh2]].
  destruct (run_step_returns cfg env Hwf Hnf profile w2 Hv)
    as [w3 [times [pos [pl [E3 [Es [Epl [Hpos [Her [Hen [Hh3 [Hst Hpr]]]]]]]]]]]].
  assert (Hs3 : stop_event w3 = false).
  { apply (worker_step_unset cfg env Hnf (RunProfile profile) w2 w3 Hu E3).
    rewrite Hst. destruct (stop_event w3); discriminate. }
  exists w3, times, pos, pl.
  split.
  { cbn [_worker_loop]. unfold bind. rewrite E1, E2, E3. reflexivity. }
  split; [exact Es|]. split; [exact Epl|]. split; [exact Hpos|].
  split.
  { unfold in_travel. rewrite Hpos. apply clamp_travel_range. apply Hwf. }
  split; [congruence|].
  split; [rewrite Hst, Hs3; reflexivity|].
  split; [apply Hpr, Hs3|]. split; assumption.
Qed.

Lemma preset_workflow_sweep :
  well_formed Config.default /\ no_faults quiet /\ uninterrupted quiet /\
  valid Cases.sweep /\
  Api.queue {| Api.presets := Presets.Unreadable; Api.queue := [] |} = [] /\
  let s1 := fst (Api.api_preset_save "sweep" Cases.sweep
                   {| Api.presets := Presets.Unreadable; Api.queue := [] |}) in
  let s2 := fst (Api.api_home s1) in
  let s3 := fst (Api.api_prime_preset "sweep" s2) in
  let s4 := fst (Api.api_run_preset "sweep" s3) in
  Api.queue s4 = [Home; Prime Cases.sweep; RunProfile Cases.sweep] /\
  exists w' times pos pl,
    _worker_loop Config.default quiet (Api.queue s4) init = (Ok tt, w') /\
    sample_profile Cases.sweep (2 # 100) = Ok (times, pos) /\
    getlast pos = Ok pl /\
    current_pos_mm w' = clamp_travel Config.default pl /\
    in_travel Config.default w' /\
    homed w' = true /\ status w' = Idle /\ progress w' = 1 /\
    error w' = None /\ enabled w' = false.
Proof.
  assert (Hwf : well_formed Config.default) by (repeat split).
  assert (Hnf : no_faults quiet) by (intros n op; reflexivity).
  assert (Hu : uninterrupted quiet) by (intros n; repeat split).
  assert (Hv : valid Cases.sweep).
  { exists Cases.sweep. vm_compute. reflexivity. }
  assert (Hq : Api.queue {| Api.presets := Presets.Unreadable; Api.queue := [] |} = [])
    by reflexivity.
  split; [exact Hwf|]. split; [exact Hnf|]. split; [exact Hu|].
  split; [exact Hv|]. split; [exact Hq|].
  exact (preset_workflow Config.default quiet "sweep" Cases.sweep
           {| Api.presets := Presets.Unreadable; Api.queue := [] |} init
           Hwf Hnf Hu Hv Hq).
Defined.

End WorkflowClaims.

(** ** The handler's own call *)

Section HandlerFault.
Import Controller Logic.

(** With [Inputs.dead_pins] the first pulse of a jog fails, the handler
    records the fault and calls [enable(False)], which fails too: that
    exception is raised inside the [except] block, nothing catches it,
    and the worker ends with the command that follows still queued. *)
Example dead_pins_end_worker :
  dispatch Config.default Inputs.dead_pins (Jog 10 10) (fresh init)
  = (Raise (DriverFault "step pin write failed"),
     snd (dispatch Config.default Inputs.dead_pins (Jog 10 10) (fresh init))) /\
  fst (worker_step Config.default Inputs.dead_pins (Jog 10 10) init)
  = Raise (DriverFault "enable pin write failed") /\
  fst (_worker_loop Config.default Inputs.dead_pins [Jog 10 10; Home] init)
  = Raise (DriverFault "enable pin write failed") /\
  pulses (snd (_worker_loop Config.default Inputs.dead_pins [Jog 10 10; Home] init))
  = [].
Proof. split; [|split; [|split]]; vm_compute; reflexivity. Qed.

(** C8 (as stated) fails: when [enable(False)] fails as well, the worker
    does not go on with the commands that follow. *)
Lemma failing_disable_ends_worker :
  ~ (forall (cfg : Config.SliderConfig) (env : Env) (cmd : Command)
            (rest : list Command) (w w1 : World) (e : exn),
       dispatch cfg env cmd (fresh w) = (Raise e, w1) ->
       exists w2,
         worker_step cfg env cmd w = (Ok tt, w2) /\
         error w2 = Some (str e) /\ status w2 = Error /\ enabled w2 = false /\
         exists w', _worker_loop cfg env (cmd :: rest) w = (Ok tt, w')).
Proof.
  intros H.
  destruct dead_pins_end_worker as [Hd [_ [Hl _]]].
  destruct (H Config.default Inputs.dead_pins (Jog 10 10) [Home] init _ _ Hd)
    as [w2 [_ [_ [_ [_ [w' E]]]]]].
  rewrite E in Hl. discriminate.
Qed.

End HandlerFault.

(** ** Binary64 rounding *)

Section NearestInteger.

Lemma round_proper (x y : Q) : x == y -> Py.round x = Py.round y.
Proof.
  intros E. unfold Py.round. cbv zeta.
  rewrite (Qfloor_comp x y E).
  assert (E' : x - inject_Z (Qfloor y) == y - inject_Z (Qfloor y))
    by (rewrite E; reflexivity).
  rewrite (Qcompare_comp _ _ E' (1 # 2) (1 # 2) (Qeq_refl _)). reflexivity.
Qed.

Lemma round_integer (n : Z) : Py.round (inject_Z n) = n.
Proof.
  unfold Py.round. cbv zeta. rewrite Qfloor_Z.
  assert (E : inject_Z n - inject_Z n == 0) by ring.
  rewrite (Qcompare_comp _ _ E (1 # 2) (1 # 2) (Qeq_refl _)). reflexivity.
Qed.

Lemma round_monotone (x y : Q) : x <= y -> (Py.round x <= Py.round y)%Z.
Proof.
  intros Hxy.
  pose proof (Qfloor_resp_le x y Hxy) as Hf.
  pose proof (Qfloor_le x) as Hlx. pose proof (Qlt_floor x) as Hux.
  pose proof (Qfloor_le y) as Hly. pose proof (Qlt_floor y) as Huy.
  rewrite inject_Z_plus in Hux, Huy. change (inject_Z 1) with 1 in Hux, Huy.
  unfold Py.round. cbv zeta.
  destruct (Z.eq_dec (Qfloor x) (Qfloor y)) as [E|N].
  - rewrite E in *.
    destruct (Qcompare (x - inject_Z (Qfloor y)) (1 # 2)) eqn:Ex;
      [apply Qeq_alt in Ex | apply Qlt_alt in Ex | apply Qgt_alt in Ex];
      (destruct (Qcompare (y - inject_Z (Qfloor y)) (1 # 2)) eqn:Ey;
       [apply Qeq_alt in Ey | apply Qlt_alt in Ey | apply Qgt_alt in Ey]);
      first [ destruct (Z.even (Qfloor y)); lia | exfalso; lra ].
  - assert (Hlt : (Qfloor x + 1 <= Qfloor y)%Z) by lia.
    destruct (Qcompare (x - inject_Z (Qfloor x)) (1 # 2));
      destruct (Qcompare (y - inject_Z (Qfloor y)) (1 # 2));
      repeat match goal with |- context [Z.even ?a] => destruct (Z.even a) end; lia.
Qed.

Lemma round_opp (x : Q) : Py.round (- x) = (- Py.round x)%Z.
Proof.
  pose proof (round_error x) as Hx. pose proof (round_error (- x)) as Hn.
  set (a := Py.round x) in *. set (b := Py.round (- x)) in *.
  (* both are within 1/2 of x and -x: they differ by at most one *)
  assert (H1 : inject_Z (a + b) <= 1 /\ -1 <= inject_Z (a + b)).
  { rewrite inject_Z_plus. lra. }
  destruct H1 as [H1 H2].
  change 1 with (inject_Z 1) in H1. change (-1) with (inject_Z (-1)) in H2.
  rewrite <- Zle_Qle in H1, H2.
  destruct (Z.eq_dec (a + b) 0) as [E|N]; [lia|exfalso].
  (* a tie: x is a half-integer, and both roundings are even *)
  assert (Hhalf : inject_Z a - x == 1 # 2 \/ inject_Z a - x == - (1 # 2)).
  { assert (C : (a + b = 1 \/ a + b = -1)%Z) by lia.
    destruct C as [C|C]; [left|right];
      assert (Eb : inject_Z b == inject_Z (a + b) - inject_Z a)
        by (rewrite inject_Z_plus; ring);
      rewrite C in Eb; [change (inject_Z 1) with 1 in Eb
                       | change (inject_Z (-1)) with (-1) in Eb]; lra. }
  assert (Heven : forall z, (1 # 2 == inject_Z (Py.round z) - z \/
                             - (1 # 2) == inject_Z (Py.round z) - z) ->
                            Z.even (Py.round z) = true).
  { clear. intros z Hz. unfold Py.round in *. cbv zeta in *.
    pose proof (Qfloor_le z) as Hl. pose proof (Qlt_floor z) as Hu.
    rewrite inject_Z_plus in Hu. change (inject_Z 1) with 1 in Hu.
    destruct (Qcompare (z - inject_Z (Qfloor z)) (1 # 2)) eqn:E.
    - destruct (Z.even (Qfloor z)) eqn:Ev; [exact Ev|].
      rewrite Z.even_add, Ev. reflexivity.
    - apply Qlt_alt in E. exfalso. destruct Hz; lra.
    - apply Qgt_alt in E. rewrite inject_Z_plus in Hz.
      change (inject_Z 1) with 1 in Hz. exfalso. destruct Hz; lra. }
  assert (Ha : Z.even a = true).
  { apply Heven. fold a. destruct Hhalf as [H|H]; [left|right]; lra. }
  assert (Hb : Z.even b = true).
  { apply Heven. fold b.
    assert (C : (a + b = 1 \/ a + b = -1)%Z) by lia.
    assert (Eb : inject_Z b == inject_Z (a + b) - inject_Z a)
      by (rewrite inject_Z_plus; ring).
    destruct C as [C|C]; rewrite C in Eb;
      [change (inject_Z 1) with 1 in Eb | change (inject_Z (-1)) with (-1) in Eb];
      destruct Hhalf as [H|H]; try (left; lra); try (right; lra); exfalso; lra. }
  assert (Hab : Z.even (a + b) = true) by (rewrite Z.even_add, Ha, Hb; reflexivity).
  assert (C : (a + b = 1 \/ a + b = -1)%Z) by lia.
  destruct C as [C|C]; rewrite C in Hab; discriminate.
Qed.

End NearestInteger.
Section PowersOfTwo.

Lemma pow2_pos (e : Z) : 0 < 2 ^ e.
Proof. now apply Qpower_0_lt. Qed.

Lemma pow2_le (a b : Z) : (a <= b)%Z -> 2 ^ a <= 2 ^ b.
Proof. intros H. apply Qpower_le_compat_l; [exact H | discriminate]. Qed.

Lemma pow2_lt (a b : Z) : (a < b)%Z -> 2 ^ a < 2 ^ b.
Proof. intros H. apply Qpower_lt_compat_l; [exact H | reflexivity]. Qed.

Lemma pow2_plus (a b : Z) : 2 ^ (a + b) == 2 ^ a * 2 ^ b.
Proof. apply Qpower_plus. discriminate. Qed.

Lemma pow2_minus (a b : Z) : 2 ^ (a - b) == 2 ^ a / 2 ^ b.
Proof. apply Qpower_minus. discriminate. Qed.

Lemma pow2_succ (a : Z) : 2 ^ (a + 1) == 2 * 2 ^ a.
Proof. rewrite pow2_plus. change (2 ^ 1) with 2. ring. Qed.

Lemma pow2_inject (a : Z) : (0 <= a)%Z -> 2 ^ a == inject_Z (2 ^ a).
Proof. intros H. symmetry. now apply (Zpower_Qpower 2 a). Qed.

(** A positive integer lies between two powers of two. *)
Lemma log2_bounds (n : Z) :
  (0 < n)%Z -> 2 ^ Z.log2 n <= inject_Z n /\ inject_Z n < 2 ^ (Z.log2 n + 1).
Proof.
  intros Hn. destruct (Z.log2_spec n Hn) as [Hl Hu].
  pose proof (Z.log2_nonneg n) as H0.
  rewrite !pow2_inject by lia. rewrite <- Zle_Qle, <- Zlt_Qlt.
  replace (Z.log2 n + 1)%Z with (Z.succ (Z.log2 n)) by lia. split; assumption.
Qed.

Lemma ilog2_spec (x : Q) :
  0 < x -> 2 ^ Binary64.ilog2 x <= x /\ x < 2 ^ (Binary64.ilog2 x + 1).
Proof.
  intros Hx. unfold Binary64.ilog2. cbv zeta.
  destruct x as [n d]. cbn [Qnum Qden].
  assert (Hn : (0 < n)%Z).
  { unfold Qlt in Hx. cbn in Hx. lia. }
  destruct (log2_bounds n Hn) as [Hnl Hnu].
  destruct (log2_bounds (Zpos d) eq_refl) as [Hdl Hdu].
  set (a := Z.log2 n) in *. set (b := Z.log2 (Zpos d)) in *.
  assert (E : n # d == inject_Z n / inject_Z (Zpos d)) by apply Qmake_Qdiv.
  assert (Hd : 0 < inject_Z (Zpos d)) by reflexivity.
  pose proof (pow2_pos a) as Pa. pose proof (pow2_pos b) as Pb.
  pose proof (pow2_pos (a - b)) as Pab.
  assert (Hup : n # d < 2 ^ (a - b + 1)).
  { rewrite E. apply Qlt_shift_div_r; [exact Hd|].
    rewrite pow2_succ, pow2_minus.
    apply Qlt_le_trans with (2 * 2 ^ a); [rewrite pow2_succ in Hnu; exact Hnu|].
    assert (E2 : 2 * (2 ^ a / 2 ^ b) * inject_Z (Z.pos d)
                 == (2 * 2 ^ a) * (inject_Z (Z.pos d) / 2 ^ b)).
    { field. intros Hz. rewrite Hz in Pb. discriminate. }
    rewrite E2. rewrite <- (Qmult_1_r (2 * 2 ^ a)) at 1.
    apply Qmult_le_l; [lra|]. apply Qle_shift_div_l; [exact Pb|]. lra. }
  assert (Hlow : 2 ^ (a - b - 1) < n # d).
  { rewrite E. apply Qlt_shift_div_l; [exact Hd|].
    assert (E3 : 2 ^ (a - b - 1) == 2 ^ a / (2 * 2 ^ b)).
    { replace (a - b - 1)%Z with (a - (b + 1))%Z by lia.
      rewrite pow2_minus, pow2_succ. reflexivity. }
    rewrite E3.
    apply Qlt_le_trans with (2 ^ a); [|exact Hnl].
    rewrite pow2_succ in Hdu.
    assert (E4 : 2 ^ a / (2 * 2 ^ b) * inject_Z (Z.pos d)
                 == 2 ^ a * (inject_Z (Z.pos d) / (2 * 2 ^ b))).
    { field. intros Hz. rewrite Hz in Pb. discriminate. }
    rewrite E4. rewrite <- (Qmult_1_r (2 ^ a)) at 2.
    apply Qmult_lt_l; [exact Pa|]. apply Qlt_shift_div_r; lra. }
  destruct (Qle_bool (2 ^ (a - b)) (n # d)) eqn:Eb.
  - apply Qle_bool_iff in Eb. split; assumption.
  - assert (Hlt : n # d < 2 ^ (a - b)).
    { apply Qnot_le_lt. intros H. apply Qle_bool_iff in H. congruence. }
    replace (a - b - 1 + 1)%Z with (a - b)%Z by lia.
    split; [apply Qlt_le_weak, Hlow | exact Hlt].
Qed.
End PowersOfTwo.
Section Exponents.
Import Binary64.

Lemma ilog2_unique (x : Q) (l : Z) :
  0 < x -> 2 ^ l <= x -> x < 2 ^ (l + 1) -> ilog2 x = l.
Proof.
  intros Hx Hl Hu. destruct (ilog2_spec x Hx) as [Sl Su].
  destruct (Z.lt_trichotomy (ilog2 x) l) as [H|[H|H]]; [exfalso|exact H|exfalso].
  - assert (H2 : 2 ^ (ilog2 x + 1) <= 2 ^ l) by (apply pow2_le; lia). lra.
  - assert (H2 : 2 ^ (l + 1) <= 2 ^ ilog2 x) by (apply pow2_le; lia). lra.
Qed.

Lemma ilog2_eq (x y : Q) : 0 < x -> x == y -> ilog2 x = ilog2 y.
Proof.
  intros Hx E. assert (Hy : 0 < y) by (rewrite <- E; exact Hx).
  destruct (ilog2_spec y Hy) as [Sl Su]. apply ilog2_unique; auto; rewrite E; auto.
Qed.

Lemma ilog2_le (x y : Q) : 0 < x -> x <= y -> (ilog2 x <= ilog2 y)%Z.
Proof.
  intros Hx Hxy. assert (Hy : 0 < y) by lra.
  destruct (ilog2_spec x Hx) as [Xl Xu]. destruct (ilog2_spec y Hy) as [Yl Yu].
  destruct (Z_le_gt_dec (ilog2 x) (ilog2 y)) as [H|H]; [exact H|exfalso].
  assert (H2 : 2 ^ (ilog2 y + 1) <= 2 ^ ilog2 x) by (apply pow2_le; lia). lra.
Qed.

Lemma Qabs_pos_iff (x : Q) : ~ x == 0 <-> 0 < Qabs x.
Proof.
  split.
  - intros Hx. apply Qabs_case; intros H.
    + destruct (Qlt_le_dec 0 x); [assumption|]. exfalso. apply Hx. lra.
    + destruct (Qlt_le_dec x 0); [lra|]. exfalso. apply Hx. lra.
  - intros H E. rewrite E in H. discriminate.
Qed.

Lemma exponent_eq (x y : Q) : ~ x == 0 -> x == y -> exponent x = exponent y.
Proof.
  intros Hx E. unfold exponent.
  rewrite (ilog2_eq (Qabs x) (Qabs y)); [reflexivity| |now rewrite E].
  now apply Qabs_pos_iff.
Qed.

Lemma exponent_le (x y : Q) :
  ~ x == 0 -> Qabs x <= Qabs y -> (exponent x <= exponent y)%Z.
Proof.
  intros Hx H. unfold exponent.
  pose proof (ilog2_le (Qabs x) (Qabs y) (proj1 (Qabs_pos_iff x) Hx) H). lia.
Qed.

Lemma exponent_min (x : Q) : (-1074 <= exponent x)%Z.
Proof. unfold exponent. lia. Qed.

(** The mantissa has at most 53 bits... *)
Lemma mantissa_upper (x : Q) :
  ~ x == 0 -> Qabs x / 2 ^ exponent x < 2 ^ 53.
Proof.
  intros Hx. apply Qabs_pos_iff in Hx.
  destruct (ilog2_spec (Qabs x) Hx) as [_ Hu].
  apply Qlt_shift_div_r; [apply pow2_pos|].
  rewrite <- pow2_plus.
  eapply Qlt_le_trans; [exact Hu|]. apply pow2_le. unfold exponent. lia.
Qed.

(** ... and exactly 53 unless [x] is subnormal. *)
Lemma mantissa_lower (x : Q) :
  ~ x == 0 -> (-1074 < exponent x)%Z -> 2 ^ 52 <= Qabs x / 2 ^ exponent x.
Proof.
  intros Hx He. apply Qabs_pos_iff in Hx.
  destruct (ilog2_spec (Qabs x) Hx) as [Hl _].
  apply Qle_shift_div_l; [apply pow2_pos|].
  rewrite <- pow2_plus.
  eapply Qle_trans; [|exact Hl]. apply pow2_le. unfold exponent in *. lia.
Qed.

Lemma exponent_normal (x : Q) :
  2 ^ (-1022) <= Qabs x -> exponent x = (ilog2 (Qabs x) - 52)%Z.
Proof.
  intros H. pose proof (pow2_pos (-1022)) as P.
  assert (Hx : 0 < Qabs x) by lra.
  destruct (ilog2_spec (Qabs x) Hx) as [_ Hu].
  unfold exponent.
  destruct (Z_le_gt_dec (-1022) (ilog2 (Qabs x))) as [L|L]; [lia|exfalso].
  assert (H2 : 2 ^ (ilog2 (Qabs x) + 1) <= 2 ^ (-1022)) by (apply pow2_le; lia).
  lra.
Qed.

End Exponents.
Section Rounding64.
Import Binary64.

Lemma round64_zero (x : Q) : x == 0 -> round x = 0.
Proof.
  intros E. unfold round. apply Qeq_bool_iff in E. rewrite E. reflexivity.
Qed.

(** What [round] computes: the mantissa, an integer, times the last bit. *)
Lemma round64_eq (x : Q) :
  ~ x == 0 ->
  round x == inject_Z (Py.round (x / 2 ^ exponent x)) * 2 ^ exponent x.
Proof.
  intros Hx. unfold round.
  destruct (Qeq_bool x 0) eqn:E; [apply Qeq_bool_iff in E; contradiction|].
  cbv zeta. apply Qred_correct.
Qed.

Lemma round64_proper (x y : Q) : x == y -> round x == round y.
Proof.
  intros E. destruct (Qeq_dec x 0) as [Hx|Hx].
  - rewrite (round64_zero x Hx), (round64_zero y); [reflexivity|].
    rewrite <- E. exact Hx.
  - assert (Hy : ~ y == 0) by (rewrite <- E; exact Hx).
    rewrite (round64_eq x Hx), (round64_eq y Hy).
    rewrite (exponent_eq x y Hx E).
    rewrite (round_proper (x / 2 ^ exponent y) (y / 2 ^ exponent y));
      [reflexivity|]. rewrite E. reflexivity.
Qed.

#[local] Instance round64_comp : Proper (Qeq ==> Qeq) round.
Proof. intros x y E. now apply round64_proper. Qed.

Lemma round64_opp (x : Q) : round (- x) == - round x.
Proof.
  destruct (Qeq_dec x 0) as [Hx|Hx].
  - rewrite (round64_zero x Hx), (round64_zero (- x)); [reflexivity|].
    rewrite Hx. reflexivity.
  - assert (Hn : ~ - x == 0) by (intros H; apply Hx; lra).
    rewrite (round64_eq x Hx), (round64_eq (- x) Hn).
    assert (Ee : exponent (- x) = exponent x).
    { unfold exponent.
      rewrite (ilog2_eq (Qabs (- x)) (Qabs x)); [reflexivity| |apply Qabs_opp].
      now apply Qabs_pos_iff. }
    rewrite Ee.
    assert (Ed : - x / 2 ^ exponent x == - (x / 2 ^ exponent x)).
    { field. intros H. pose proof (pow2_pos (exponent x)). lra. }
    rewrite (round_proper _ _ Ed), round_opp, inject_Z_opp. ring.
Qed.

Lemma round64_nonneg (x : Q) : 0 <= x -> 0 <= round x.
Proof.
  intros H. destruct (Qeq_dec x 0) as [Hx|Hx].
  - rewrite (round64_zero x Hx). lra.
  - rewrite (round64_eq x Hx).
    pose proof (pow2_pos (exponent x)) as P.
    apply Qmult_le_0_compat; [|lra].
    change 0 with (inject_Z 0). rewrite <- Zle_Qle. apply round_nonneg.
    apply Qle_shift_div_l; lra.
Qed.

Lemma round64_monotone_pos (x y : Q) : 0 < x -> x <= y -> round x <= round y.
Proof.
  intros Hx Hxy.
  assert (Nx : ~ x == 0) by lra. assert (Ny : ~ y == 0) by lra.
  rewrite (round64_eq x Nx), (round64_eq y Ny).
  assert (Ax : Qabs x == x) by (apply Qabs_pos; lra).
  assert (Ay : Qabs y == y) by (apply Qabs_pos; lra).
  assert (He : (exponent x <= exponent y)%Z).
  { apply exponent_le; [exact Nx|]. rewrite Ax, Ay. exact Hxy. }
  pose proof (pow2_pos (exponent x)) as Px.
  pose proof (pow2_pos (exponent y)) as Py_.
  destruct (Z.eq_dec (exponent x) (exponent y)) as [E|N].
  - rewrite E in *. apply Qmult_le_compat_r; [|lra].
    rewrite <- Zle_Qle. apply round_monotone.
    apply Qmult_le_compat_r; [exact Hxy|]. apply Qlt_le_weak, Qinv_lt_0_compat, Py_.
  - assert (Hlt : (exponent x < exponent y)%Z) by lia.
    pose proof (mantissa_upper x Nx) as Ux.
    assert (Ly : 2 ^ 52 <= Qabs y / 2 ^ exponent y).
    { apply mantissa_lower; [exact Ny|]. pose proof (exponent_min x). lia. }
    rewrite Ax in Ux. rewrite Ay in Ly.
    assert (Mx : inject_Z (Py.round (x / 2 ^ exponent x)) <= 2 ^ 53).
    { change (2 ^ 53) with (inject_Z (2 ^ 53)). rewrite <- Zle_Qle.
      rewrite <- (round_integer (2 ^ 53)). apply round_monotone.
      change (inject_Z (2 ^ 53)) with (2 ^ 53). lra. }
    assert (My : 2 ^ 52 <= inject_Z (Py.round (y / 2 ^ exponent y))).
    { change (2 ^ 52) with (inject_Z (2 ^ 52)). rewrite <- Zle_Qle.
      rewrite <- (round_integer (2 ^ 52)) at 1. apply round_monotone.
      change (inject_Z (2 ^ 52)) with (2 ^ 52). exact Ly. }
    apply Qle_trans with (2 ^ 53 * 2 ^ exponent x).
    { apply Qmult_le_compat_r; lra. }
    apply Qle_trans with (2 ^ 52 * 2 ^ exponent y).
    { assert (Hs : 2 ^ (exponent x + 1) <= 2 ^ exponent y) by (apply pow2_le; lia).
      rewrite pow2_succ in Hs. change (2 ^ 53) with (2 ^ 52 * 2).
      rewrite <- Qmult_assoc. apply Qmult_le_l; [reflexivity|exact Hs]. }
    apply Qmult_le_compat_r; lra.
Qed.

(** Rounding keeps the order. *)
Lemma round64_monotone (x y : Q) : x <= y -> round x <= round y.
Proof.
  intros Hxy. destruct (Qlt_le_dec 0 x) as [Hx|Hx].
  - now apply round64_monotone_pos.
  - destruct (Qlt_le_dec y 0) as [Hy|Hy].
    + assert (H : round (- y) <= round (- x)) by (apply round64_monotone_pos; lra).
      rewrite !round64_opp in H. lra.
    + assert (H1 : 0 <= round y) by now apply round64_nonneg.
      assert (H2 : 0 <= round (- x)) by (apply round64_nonneg; lra).
      rewrite round64_opp in H2. lra.
Qed.

End Rounding64.
Section Representable.
Import Binary64.

Lemma mantissa_bounds (x : Q) :
  ~ x == 0 ->
  (- 2 ^ 53 <= Py.round (x / 2 ^ exponent x) <= 2 ^ 53)%Z.
Proof.
  intros Hx. pose proof (mantissa_upper x Hx) as H.
  pose proof (pow2_pos (exponent x)) as P.
  assert (Hb : - 2 ^ 53 <= x / 2 ^ exponent x <= 2 ^ 53).
  { assert (Ha : Qabs (x / 2 ^ exponent x) == Qabs x / 2 ^ exponent x).
    { unfold Qdiv. rewrite Qabs_Qmult, Qabs_Qinv, (Qabs_pos (2 ^ exponent x));
        [reflexivity|lra]. }
    apply Qabs_Qle_condition. rewrite Ha. lra. }
  split.
  - rewrite <- (round_integer (- 2 ^ 53)). apply round_monotone.
    change (inject_Z (- 2 ^ 53)) with (- 2 ^ 53). apply Hb.
  - rewrite <- (round_integer (2 ^ 53)). apply round_monotone.
    change (inject_Z (2 ^ 53)) with (2 ^ 53). apply Hb.
Qed.

Lemma scaled_div (m e ex : Z) (x : Q) :
  (ex <= e)%Z -> x == inject_Z m * 2 ^ e ->
  x / 2 ^ ex == inject_Z (m * 2 ^ (e - ex)).
Proof.
  intros He E. pose proof (pow2_pos ex) as P.
  rewrite inject_Z_mult, <- pow2_inject by lia. rewrite pow2_minus, E.
  field. lra.
Qed.

(** An integer of fewer than 54 bits times a power of two, not below
    the smallest, is a binary64 number. *)
Lemma representable_scaled (m e : Z) (x : Q) :
  (-1074 <= e)%Z -> (Z.abs m < 2 ^ 53)%Z -> x == inject_Z m * 2 ^ e ->
  representable x.
Proof.
  intros He Hm E. unfold representable.
  destruct (Z.eq_dec m 0) as [->|Nm].
  { assert (Hx : x == 0) by (rewrite E; ring).
    rewrite (round64_zero x Hx). symmetry. exact Hx. }
  pose proof (pow2_pos e) as Pe.
  assert (Nx : ~ x == 0).
  { rewrite E. intros H. apply Qmult_integral in H. destruct H as [H|H]; [|lra].
    apply Nm. apply inject_Z_injective. exact H. }
  assert (Hex : (exponent x <= e)%Z).
  { assert (Ha : Qabs x < 2 ^ (e + 53)).
    { rewrite E, Qabs_Qmult, (Qabs_pos (2 ^ e)) by lra.
      rewrite pow2_plus, Qmult_comm. apply Qmult_lt_l; [exact Pe|].
      change (Qabs (inject_Z m)) with (inject_Z (Z.abs m)).
      change (2 ^ 53) with (inject_Z (2 ^ 53)).
      rewrite <- Zlt_Qlt. exact Hm. }
    destruct (ilog2_spec (Qabs x) (proj1 (Qabs_pos_iff x) Nx)) as [Hl _].
    assert (Hlt : (ilog2 (Qabs x) < e + 53)%Z).
    { apply (Qpower_lt_compat_l_inv 2); [lra|reflexivity]. }
    unfold exponent. lia. }
  rewrite (round64_eq x Nx).
  pose proof (pow2_pos (exponent x)) as Px.
  pose proof (scaled_div m e (exponent x) x Hex E) as Ed.
  rewrite (round_proper _ _ Ed), round_integer, <- Ed. field. lra.
Qed.

(** The result of a rounding is a binary64 number. *)
Lemma round64_idempotent (x : Q) : round (round x) == round x.
Proof.
  destruct (Qeq_dec x 0) as [Hx|Nx].
  { rewrite (round64_zero x Hx). reflexivity. }
  pose proof (mantissa_bounds x Nx) as Hm.
  pose proof (exponent_min x) as He.
  set (m := Py.round (x / 2 ^ exponent x)) in *.
  change (representable (round x)).
  destruct (Z.eq_dec (Z.abs m) (2 ^ 53)) as [E|N].
  - apply (representable_scaled (m / 2) (exponent x + 1)); [lia| |].
    + assert (C : (m = 2 ^ 53 \/ m = - 2 ^ 53)%Z) by lia.
      destruct C as [-> | ->]; reflexivity.
    + rewrite (round64_eq x Nx). fold m. rewrite pow2_succ.
      assert (C : (m = 2 ^ 53 \/ m = - 2 ^ 53)%Z) by lia.
      destruct C as [-> | ->].
      * change (inject_Z (2 ^ 53)) with (2 * inject_Z (2 ^ 53 / 2)). ring.
      * change (inject_Z (- 2 ^ 53)) with (2 * inject_Z (- 2 ^ 53 / 2)). ring.
  - apply (representable_scaled m (exponent x)); [lia|lia|].
    apply (round64_eq x Nx).
Qed.

(** Every binary64 number is a multiple of the smallest one. *)
Lemma round64_grid (x : Q) : exists n : Z, round x == inject_Z n * 2 ^ (-1074).
Proof.
  destruct (Qeq_dec x 0) as [Hx|Nx].
  { exists 0%Z. rewrite (round64_zero x Hx). ring. }
  pose proof (exponent_min x) as He.
  exists (Py.round (x / 2 ^ exponent x) * 2 ^ (exponent x + 1074))%Z.
  rewrite (round64_eq x Nx), inject_Z_mult, <- pow2_inject by lia.
  rewrite <- Qmult_assoc, <- pow2_plus.
  replace (exponent x + 1074 + -1074)%Z with (exponent x) by lia. reflexivity.
Qed.

(** One rounding errs by at most half the last bit. *)
Lemma round64_error (x : Q) : Qabs (round x - x) <= half_ulp x.
Proof.
  unfold half_ulp.
  pose proof (pow2_pos (-1075)) as Pt. pose proof (Qabs_nonneg x) as Ax.
  assert (P53 : 0 < 2 ^ 53) by reflexivity.
  assert (Hq : 0 <= Qabs x / 2 ^ 53) by (apply Qle_shift_div_l; lra).
  destruct (Qeq_dec x 0) as [Hx|Nx].
  { rewrite (round64_zero x Hx).
    assert (E : 0 - x == 0) by (rewrite Hx; ring). rewrite E. cbn [Qabs Z.abs Qnum Qden].
    lra. }
  rewrite (round64_eq x Nx).
  pose proof (pow2_pos (exponent x)) as Px.
  pose proof (round_error (x / 2 ^ exponent x)) as Hr.
  set (m := inject_Z (Py.round (x / 2 ^ exponent x))) in *.
  assert (E : m * 2 ^ exponent x - x == (m - x / 2 ^ exponent x) * 2 ^ exponent x).
  { field. lra. }
  rewrite E, Qabs_Qmult, (Qabs_pos (2 ^ exponent x)) by lra.
  assert (Hh : Qabs (m - x / 2 ^ exponent x) <= 1 # 2).
  { apply Qabs_Qle_condition. lra. }
  apply Qle_trans with ((1 # 2) * 2 ^ exponent x).
  { apply Qmult_le_compat_r; lra. }
  destruct (Z.eq_dec (exponent x) (-1074)) as [Ee|Ne].
  - rewrite Ee.
    assert (E2 : (1 # 2) * 2 ^ (-1074) == 2 ^ (-1075)).
    { replace (-1074)%Z with (-1075 + 1)%Z by lia. rewrite pow2_succ. ring. }
    rewrite E2. lra.
  - pose proof (exponent_min x) as He.
    assert (Hl : 2 ^ 52 <= Qabs x / 2 ^ exponent x) by (apply mantissa_lower; [exact Nx|lia]).
    assert (Hl2 : 2 ^ 52 * 2 ^ exponent x <= Qabs x).
    { apply (Qmult_le_r _ _ (/ 2 ^ exponent x)); [now apply Qinv_lt_0_compat|].
      assert (E3 : 2 ^ 52 * 2 ^ exponent x * / 2 ^ exponent x == 2 ^ 52)
        by (field; lra).
      rewrite E3. exact Hl. }
    assert (E4 : Qabs x / 2 ^ 53 == Qabs x * (1 # 2 ^ 53)) by reflexivity.
    change (2 ^ 52) with (inject_Z (2 ^ 52)) in Hl2.
    rewrite E4. set (p := 2 ^ exponent x) in *. set (a := Qabs x) in *.
    clearbody p a. clear - Hl2 Pt Px.
    change (inject_Z (2 ^ 52)) with 4503599627370496 in Hl2.
    change (1 # 2 ^ 53) with (1 # 9007199254740992). lra.
Qed.

End Representable.

(** [Binary64] computes what the kernel's binary64 computes: on the
    decimal literals, on every sum, difference, product and quotient of
    the operands listed in [Kernel64], and on the two numbers that
    matter to the last sample of [Doubles.rise]. *)
Example kernel_agrees :
  Kernel64.literals_agree = true /\
  Kernel64.sums_agree = true /\
  Kernel64.differences_agree = true /\
  Kernel64.products_agree = true /\
  Kernel64.quotients_agree = true /\
  Kernel64.to_Q Kernel64.last_time = Some (Qred (1 + 2 ^ (-51))) /\
  Kernel64.to_Q Kernel64.last_position
  = Some (Planner64.reach (Doubles.kf 0 (3 # 10)) (Doubles.kf 1 (9 # 10))).
Proof.
  split; [|split; [|split; [|split; [|split; [|split]]]]];
    vm_compute; reflexivity.
Qed.

(** ** The planner in binary64 *)

Section Interpolation64.
Import Models Binary64 Spec64.

Lemma representable_round (x : Q) : representable (round x).
Proof. apply round64_idempotent. Qed.

Lemma representable_opp (x : Q) : representable x -> representable (- x).
Proof.
  unfold representable. intros H. rewrite round64_opp, H. reflexivity.
Qed.

(** An interpolation [k0 + (k1 - k0) * v] with [v] in [[0, 1]] stays
    between [k0] and where it arrives at [v = 1]. *)
Lemma interpolation_between (a b v : Q) :
  representable a -> 0 <= v <= 1 ->
  between a (add a (sub b a)) (add a (mul (sub b a) v)).
Proof.
  intros Ha Hv. unfold between, add, mul.
  set (d := sub b a).
  assert (Hd : round d == d) by apply representable_round.
  assert (H0 : round 0 == 0) by reflexivity.
  unfold representable in Ha.
  assert (Ha0 : round (a + 0) == a).
  { rewrite <- Ha at 2. apply round64_proper. ring. }
  destruct (Qlt_le_dec d 0) as [Hneg|Hpos].
  - assert (H1 : round d <= round (d * v)) by (apply round64_monotone; nra).
    assert (H2 : round (d * v) <= round 0) by (apply round64_monotone; nra).
    assert (H3 : round (a + d) <= round (a + round (d * v)))
      by (apply round64_monotone; lra).
    assert (H4 : round (a + round (d * v)) <= round (a + 0))
      by (apply round64_monotone; lra).
    destruct (min_cases a (round (a + d))) as [[M1 ->]|[M1 ->]];
      destruct (max_cases a (round (a + d))) as [[M2 ->]|[M2 ->]]; split; lra.
  - assert (H1 : round (d * v) <= round d) by (apply round64_monotone; nra).
    assert (H2 : round 0 <= round (d * v)) by (apply round64_monotone; nra).
    assert (H3 : round (a + round (d * v)) <= round (a + d))
      by (apply round64_monotone; lra).
    assert (H4 : round (a + 0) <= round (a + round (d * v)))
      by (apply round64_monotone; lra).
    destruct (min_cases a (round (a + d))) as [[M1 ->]|[M1 ->]];
      destruct (max_cases a (round (a + d))) as [[M2 ->]|[M2 ->]]; split; lra.
Qed.

(** Where the interpolation arrives is the keyframe up to two
    roundings. *)
Lemma reach_error (len a b : Q) :
  0 <= a <= len -> 0 <= b <= len ->
  Qabs (add a (sub b a) - b) <= slack len.
Proof.
  intros Ha Hb. unfold add, sub, slack.
  pose proof (round64_error (b - a)) as E1.
  pose proof (round64_error (a + round (b - a))) as E2.
  unfold half_ulp in E1, E2.
  set (d := round (b - a)) in *. set (r := round (a + d)) in *.
  assert (A1 : Qabs (b - a) <= len) by (apply Qabs_Qle_condition; lra).
  pose proof (pow2_pos (-1075)) as Pt.
  assert (Et : 2 ^ (-1073) == 4 * 2 ^ (-1075)).
  { replace (-1073)%Z with (-1075 + 1 + 1)%Z by lia. rewrite !pow2_succ. ring. }
  rewrite Et. set (tau := 2 ^ (-1075)) in *. clearbody tau. clear Et.
  unfold Qdiv in *.
  change (/ 2 ^ 53) with (1 # 9007199254740992) in *.
  change (/ 2 ^ 51) with (1 # 2251799813685248).
  apply Qabs_Qle_condition in E1. apply Qabs_Qle_condition in E2.
  assert (A2 : Qabs (a + d) <= len + len * (1 # 9007199254740992) + tau).
  { apply Qabs_Qle_condition. lra. }
  apply Qabs_Qle_condition.
  set (p := Qabs (b - a)) in *. set (q := Qabs (a + d)) in *.
  clearbody p q d r. lra.
Qed.

(** It is not negative. *)
Lemma reach_nonneg (a b : Q) :
  representable a -> 0 <= b -> 0 <= add a (sub b a).
Proof.
  intros Ha Hb. unfold add, sub.
  pose proof (representable_opp a Ha) as Hn. unfold representable in Hn.
  assert (H1 : round (- a) <= round (b - a)) by (apply round64_monotone; lra).
  apply round64_nonneg. lra.
Qed.

End Interpolation64.
Section Segments64.
Import Models Spec Binary64 Spec64.

Lemma smallest_representable : representable (2 ^ (-1074)).
Proof.
  apply (representable_scaled 1 (-1074)); [lia|reflexivity|]. ring.
Qed.

(** The difference of two binary64 numbers does not round to zero. *)
Lemma sub_positive (x y : Q) :
  representable x -> representable y -> x < y -> 0 < sub y x.
Proof.
  intros Hx Hy Hlt. unfold sub.
  destruct (round64_grid x) as [n Hn]. destruct (round64_grid y) as [m Hm].
  unfold representable in Hx, Hy. rewrite Hx in Hn. rewrite Hy in Hm.
  pose proof (pow2_pos (-1074)) as Pg.
  assert (Hnm : (n + 1 <= m)%Z).
  { assert (H : inject_Z n < inject_Z m).
    { apply (Qmult_lt_r _ _ (2 ^ (-1074))); [exact Pg|]. lra. }
    rewrite <- Zlt_Qlt in H. lia. }
  assert (Hd : 2 ^ (-1074) <= y - x).
  { rewrite Hn, Hm. rewrite Zle_Qle, inject_Z_plus in Hnm.
    change (inject_Z 1) with 1 in Hnm.
    assert (E : inject_Z m * 2 ^ (-1074) - inject_Z n * 2 ^ (-1074)
                == (inject_Z m - inject_Z n) * 2 ^ (-1074)) by ring.
    rewrite E. rewrite <- (Qmult_1_l (2 ^ (-1074))) at 1.
    apply Qmult_le_compat_r; lra. }
  pose proof (round64_monotone _ _ Hd) as Hr.
  pose proof smallest_representable as Hs. unfold representable in Hs. lra.
Qed.

(** The progress within a segment, as the loop computes it. *)
Lemma normalised64 (a b t_ : Q) :
  representable a -> representable b -> a < b ->
  exists u0,
    (if Py.eqb b a then Ok 0 else truediv (sub t_ a) (sub b a)) = Ok u0 /\
    let u := if Py.ltb u0 0 then 0 else if Py.ltb 1 u0 then 1 else u0 in
    0 <= u <= 1 /\ (t_ <= a -> u <= 0) /\ (b <= t_ -> 1 <= u).
Proof.
  intros Ha Hb Hab.
  destruct (eqb_reflect b a) as [E|_]; [lra|].
  pose proof (sub_positive a b Ha Hb Hab) as Hd.
  unfold truediv. destruct (eqb_reflect (sub b a) 0) as [E|_]; [lra|].
  eexists. split; [reflexivity|]. cbv zeta.
  set (d := sub b a) in *. set (n := sub t_ a).
  assert (H0 : round 0 == 0) by reflexivity.
  assert (H1 : round 1 == 1) by reflexivity.
  assert (Hlow : t_ <= a -> round (n / d) <= 0).
  { intros H. rewrite <- H0. apply round64_monotone.
    assert (Hn : n <= 0).
    { unfold n, sub. rewrite <- H0. apply round64_monotone. lra. }
    apply Qle_shift_div_r; [exact Hd|]. lra. }
  assert (Hup : b <= t_ -> 1 <= round (n / d)).
  { intros H. rewrite <- H1. apply round64_monotone.
    assert (Hn : d <= n).
    { unfold n, d, sub. apply round64_monotone. lra. }
    apply Qle_shift_div_l; [exact Hd|]. lra. }
  destruct (ltb_reflect (round (n / d)) 0) as [L0|L0];
    [|destruct (ltb_reflect 1 (round (n / d))) as [L1|L1]];
    (split; [lra|split; intros H;
                 [pose proof (Hlow H) | pose proof (Hup H)]; lra]).
Qed.

(** The easing function of a well-formed keyframe, in binary64. *)
Lemma ease_fn64_ok (k : Keyframe) :
  keyframe_fields_ok k ->
  exists f, Planner64._ease_fn k = Ok f /\
            (forall u, u <= 0 -> f u = 0) /\
            (forall u, 1 <= u -> f u = 1) /\
            (type (ease k) = Linear -> forall u, 0 <= f u <= 1).
Proof.
  intros [_ Hk]. unfold Planner64._ease_fn.
  destruct (type (ease k)) eqn:Ety.
  - exists Easing.linear. repeat split.
    + intros u Hu. unfold Easing.linear. destruct (leb_reflect u 0); [reflexivity|lra].
    + intros u Hu. unfold Easing.linear.
      destruct (leb_reflect u 0); [lra|]. destruct (leb_reflect 1 u); [reflexivity|lra].
    + apply linear_range.
    + apply linear_range.
  - destruct (p (ease k)) as [[|x1 [|y1 [|x2 [|y2 [|z r]]]]]|] eqn:Ep;
      try (exfalso; apply Hk; split; [reflexivity | simpl; lia]).
    eexists. split; [reflexivity|]. repeat split; try discriminate.
    + intros u Hu. unfold Easing64.sample.
      destruct (leb_reflect u 0); [reflexivity|lra].
    + intros u Hu. unfold Easing64.sample.
      destruct (leb_reflect u 0); [lra|]. destruct (leb_reflect 1 u); [reflexivity|lra].
Qed.

End Segments64.
Section SamplingLoop64.
Import Models Spec Binary64 Spec64.
Variable profile : MotionProfile.
Hypothesis Hvalid : valid profile.
Hypothesis Hdoubles : binary64_profile profile.

Let kfs := keyframes profile.

Lemma representable_nth (i : nat) (k : Keyframe) :
  nth_error kfs i = Some k -> representable (t k) /\ representable (pos_mm k).
Proof.
  intros H. unfold binary64_profile in Hdoubles. rewrite Forall_forall in Hdoubles.
  apply (Hdoubles k). eapply nth_error_In; eauto.
Qed.

(** The value of one sample. *)
Lemma sample_value64 (seg : nat) (k0 k1 : Keyframe) (v : Q) :
  nth_error kfs seg = Some k0 -> nth_error kfs (S seg) = Some k1 ->
  let y := add (pos_mm k0) (mul (sub (pos_mm k1) (pos_mm k0)) v) in
  (0 <= v <= 1 ->
   between (pos_mm k0) (Planner64.reach k0 k1) y /\
   Py.min (pos_mm k0) (pos_mm k1) - slack (length_mm profile) <= y /\
   y <= Py.max (pos_mm k0) (pos_mm k1) + slack (length_mm profile) /\
   0 <= y <= length_mm profile + slack (length_mm profile)) /\
  (v = 0 -> y == pos_mm k0) /\
  (v = 1 -> y == Planner64.reach k0 k1).
Proof.
  intros Hk0 Hk1 y.
  destruct (representable_nth seg k0 Hk0) as [_ Ra].
  pose proof (position_inside_nth profile Hvalid seg k0 Hk0) as Pa.
  pose proof (position_inside_nth profile Hvalid (S seg) k1 Hk1) as Pb.
  split; [|split].
  - intros Hv.
    pose proof (interpolation_between (pos_mm k0) (pos_mm k1) v Ra Hv) as Hb.
    pose proof (reach_error (length_mm profile) (pos_mm k0) (pos_mm k1) Pa Pb) as He.
    pose proof (reach_nonneg (pos_mm k0) (pos_mm k1) Ra (proj1 Pb)) as Hn.
    fold y in Hb. change (add (pos_mm k0) (sub (pos_mm k1) (pos_mm k0)))
      with (Planner64.reach k0 k1) in *.
    split; [exact Hb|]. unfold between in Hb.
    apply Qabs_Qle_condition in He.
    set (r := Planner64.reach k0 k1) in *. set (s := slack (length_mm profile)) in *.
    clearbody r s y.
    destruct (min_cases (pos_mm k0) r) as [[M1 E1]|[M1 E1]]; rewrite E1 in Hb;
      destruct (max_cases (pos_mm k0) r) as [[M2 E2]|[M2 E2]]; rewrite E2 in Hb;
      destruct (min_cases (pos_mm k0) (pos_mm k1)) as [[M3 ->]|[M3 ->]];
      destruct (max_cases (pos_mm k0) (pos_mm k1)) as [[M4 ->]|[M4 ->]];
      repeat split; lra.
  - intros ->. unfold y, add, mul. unfold representable in Ra.
    assert (E : round (sub (pos_mm k1) (pos_mm k0) * 0) == 0).
    { rewrite (round64_proper _ 0); [reflexivity|ring]. }
    apply Qeq_trans with (round (pos_mm k0)); [|exact Ra].
    apply round64_proper. rewrite E. ring.
  - intros ->. unfold y, Planner64.reach, add, mul. apply round64_proper.
    assert (E : round (sub (pos_mm k1) (pos_mm k0) * 1)
                == sub (pos_mm k1) (pos_mm k0)).
    { rewrite (round64_proper _ (sub (pos_mm k1) (pos_mm k0))); [|ring].
      apply representable_round. }
    rewrite E. reflexivity.
Qed.

Variables total_t dt : Q.
Hypothesis Hdt : 0 < dt.
Hypothesis Hstep :
  forall t_, 0 <= t_ <= add total_t (round (1 # 1000000000)) ->
             t_ + dt * (1 # 2) <= add t_ dt.

Let bound := add total_t (round (1 # 1000000000)).

(** The sampling loop in binary64, with enough fuel: it returns, the
    times grow and stay within the bound of the loop, and every sample
    is interpolated in the segment reached. *)
Lemma sample_loop64_ok :
  forall fuel seg t_,
  (seg + 2 <= List.length kfs)%nat ->
  (seg = 0%nat \/ forall k0, nth_error kfs seg = Some k0 -> t k0 < t_) ->
  0 <= t_ ->
  bound < t_ + inject_Z (Z.of_nat fuel) * (dt * (1 # 2)) ->
  exists times pos,
    Planner64.sample_loop kfs fuel total_t dt seg t_ = Ok (times, pos) /\
    Forall2 (interpolated profile) times pos /\
    (forall lo, lo < t_ -> increasing_from lo times) /\
    Forall (fun x => t_ <= x <= bound) times /\
    (t_ <= bound -> times <> []).
Proof.
  destruct (valid_facts profile Hvalid) as [enough [increasing [fields _]]].
  fold kfs in enough, increasing, fields.
  induction fuel as [|fuel IH]; intros seg t_ Hseg Hinv H0 Hfuel.
  - exists [], []. cbn [Planner64.sample_loop]. fold bound.
    change (inject_Z (Z.of_nat 0)) with 0 in Hfuel.
    destruct (leb_reflect t_ bound); [lra|].
    repeat split; auto; intros H; lra.
  - cbn [Planner64.sample_loop]. fold bound.
    destruct (leb_reflect t_ bound) as [Hle|Hgt].
    2:{ exists [], []. repeat split; auto; intros H; lra. }
    destruct (advance_seg_ok kfs enough t_ (List.length kfs) seg)
      as [seg' [E [H1 [H2 [H3 H4]]]]]; auto; try lia.
    rewrite E. cbn [obind].
    destruct (nth_error_in_range kfs seg') as [k0 Hk0]; [lia|].
    destruct (nth_error_in_range kfs (seg' + 1)) as [k1 Hk1]; [lia|].
    rewrite (getitem_Ok _ _ _ Hk0), (getitem_Ok _ _ _ Hk1). cbn [obind].
    assert (Hk1' : nth_error kfs (S seg') = Some k1).
    { replace (S seg') with (seg' + 1)%nat by lia. exact Hk1. }
    assert (Ht01 : t k0 < t k1).
    { apply (keyframes_increasing kfs seg' (S seg')); auto. }
    assert (Hf1 : keyframe_fields_ok k1).
    { rewrite Forall_forall in fields. apply fields.
      eapply nth_error_In; eauto. }
    destruct (representable_nth seg' k0 Hk0) as [Rt0 _].
    destruct (representable_nth (S seg') k1 Hk1') as [Rt1 _].
    destruct (normalised64 (t k0) (t k1) t_ Rt0 Rt1 Ht01) as [u0 [Eu [Hu [Hu0 Hu1]]]].
    rewrite Eu. cbn [obind]. cbv zeta in Hu, Hu0, Hu1.
    set (u := if Py.ltb u0 0 then 0 else if Py.ltb 1 u0 then 1 else u0) in *.
    destruct (ease_fn64_ok k1 Hf1) as [f [Ef [Hf0 [Hfone Hfb]]]].
    rewrite Ef. cbn [obind].
    pose proof (Hstep t_ (conj H0 Hle)) as Hnext.
    destruct (IH seg' (add t_ dt)) as [times [pos [El [Hall [Hinc [Hrange Hne]]]]]]; auto.
    { destruct H4 as [->|H4].
      - destruct Hinv as [Hinv|Hinv]; auto. right. intros k Hk.
        specialize (Hinv k Hk). lra.
      - right. intros k Hk. specialize (H4 k Hk). lra. }
    { lra. }
    { rewrite Nat2Z.inj_succ, <- Z.add_1_r, inject_Z_plus in Hfuel.
      change (inject_Z 1) with 1 in Hfuel. lra. }
    rewrite El. cbn [obind].
    eexists (t_ :: times), (_ :: pos).
    split; [reflexivity|]. split; [|split; [|split]].
    + constructor; auto.
      destruct (sample_value64 seg' k0 k1 (f u) Hk0 Hk1') as [Vb [V0 V1]].
      exists seg', k0, k1, (f u).
      split; [exact Hk0|]. split; [exact Hk1'|].
      split.
      { destruct H4 as [->|H4].
        - destruct Hinv as [Hinv|Hinv]; auto.
        - right. auto. }
      split; [intros Hlt; apply H3; auto|].
      split; [reflexivity|].
      split; [intros Hl; apply Hfb, Hl|].
      split; [exact Vb|].
      split; [intros H; apply V0, Hf0; auto | intros H; apply V1, Hfone; auto].
    + intros lo Hlo. cbn [increasing_from]. split; [exact Hlo|].
      apply Hinc. lra.
    + constructor; [lra|]. eapply Forall_impl; [|exact Hrange].
      cbv beta. intros a Ha. lra.
    + intros _. discriminate.
Qed.

(** More fuel does not change a result. *)
Lemma sample_loop64_fuel_mono :
  forall fuel fuel' seg t_ r,
  (fuel <= fuel')%nat ->
  Planner64.sample_loop kfs fuel total_t dt seg t_ = Ok r ->
  Planner64.sample_loop kfs fuel' total_t dt seg t_ = Ok r.
Proof using Type.
  induction fuel as [|fuel IH]; intros fuel' seg t_ r Hle H.
  - cbn [Planner64.sample_loop] in H. destruct fuel'; cbn [Planner64.sample_loop];
      destruct (Py.leb t_ (add total_t (round (1 # 1000000000)))); congruence.
  - destruct fuel' as [|fuel']; [lia|]. cbn [Planner64.sample_loop] in *.
    destruct (Py.leb t_ (add total_t (round (1 # 1000000000)))); [|exact H].
    destruct (Planner.advance_seg kfs t_ (List.length kfs) seg) as [seg'| |];
      cbn [obind] in *; try discriminate.
    destruct (getitem kfs seg') as [k0| |]; cbn [obind] in *; try discriminate.
    destruct (getitem kfs (seg' + 1)) as [k1| |]; cbn [obind] in *; try discriminate.
    destruct (if Py.eqb (t k1) (t k0) then Ok 0
              else truediv (sub t_ (t k0)) (sub (t k1) (t k0))) as [u0| |];
      cbn [obind] in *; try discriminate.
    destruct (Planner64._ease_fn k1) as [f| |]; cbn [obind] in *; try discriminate.
    destruct (Planner64.sample_loop kfs fuel total_t dt seg' (add t_ dt))
      as [[ts ps]| |] eqn:E; cbn [obind] in *; try discriminate.
    rewrite (IH fuel' seg' (add t_ dt) (ts, ps)); auto. lia.
Qed.

End SamplingLoop64.
Section SamplingResult64.
Import Models Spec Binary64 Spec64.
Variable profile : MotionProfile.
Hypothesis Hvalid : valid profile.
Hypothesis Hdoubles : binary64_profile profile.
Variable klast : Keyframe.
Hypothesis Hlast : getlast (keyframes profile) = Ok klast.
Variable dt : Q.
Hypothesis Hnormal : 2 ^ (-1022) <= dt.
Hypothesis Hsteps : t klast + (1 # 1000000000) <= 2 ^ 50 * dt.

Let kfs := keyframes profile.
Let bound := add (t klast) (round (1 # 1000000000)).

Lemma last_time_positive : 0 < t klast.
Proof.
  destruct (last_keyframe profile Hvalid) as [kl [_ [E [H _]]]].
  rewrite Hlast in E. injection E as <-. exact H.
Qed.

Lemma step_positive : 0 < dt.
Proof. pose proof (pow2_pos (-1022)). lra. Qed.

Lemma bound_nonneg : 0 <= bound.
Proof.
  unfold bound, add. apply round64_nonneg.
  pose proof last_time_positive.
  assert (0 <= round (1 # 1000000000)) by (apply round64_nonneg; discriminate).
  lra.
Qed.

(** A step is large enough against the times for the sum to grow by at
    least half of it. *)
Lemma step_progress (t_ : Q) :
  0 <= t_ <= bound -> t_ + dt * (1 # 2) <= add t_ dt.
Proof.
  intros [H0 Hb]. pose proof last_time_positive as HT.
  pose proof step_positive as Hdt.
  assert (Hc : 0 <= round (1 # 1000000000) <= 2 # 1000000000).
  { split; [apply round64_nonneg; discriminate|].
    apply Qle_bool_iff. vm_compute. reflexivity. }
  set (c := round (1 # 1000000000)) in *. unfold bound, add in Hb. fold c in Hb.
  pose proof (round64_error (t klast + c)) as E1.
  pose proof (round64_error (t_ + dt)) as E2.
  unfold add. unfold half_ulp in E1, E2.
  rewrite (Qabs_pos (t klast + c)) in E1 by lra.
  rewrite (Qabs_pos (t_ + dt)) in E2 by lra.
  apply Qabs_Qle_condition in E1. apply Qabs_Qle_condition in E2.
  assert (Et : 2 ^ (-1022) == 9007199254740992 * 2 ^ (-1075)).
  { replace (-1022)%Z with (-1075 + 53)%Z by lia. rewrite pow2_plus.
    change (2 ^ 53) with 9007199254740992. ring. }
  rewrite Et in Hnormal. pose proof (pow2_pos (-1075)) as Pt.
  set (tau := 2 ^ (-1075)) in *.
  unfold Qdiv in E1, E2. change (/ 2 ^ 53) with (1 # 9007199254740992) in E1, E2.
  change (2 ^ 50) with 1125899906842624 in Hsteps.
  set (r1 := round (t klast + c)) in *. set (r2 := round (t_ + dt)) in *.
  set (T := t klast) in *.
  clearbody r1 r2 tau c T. clear Et. lra.
Qed.

(** The fuel that is enough: two turns for each step up to the bound. *)
Lemma fuel64_enough :
  bound < 0 + inject_Z (Z.of_nat (Z.to_nat (Qfloor (bound / (dt * (1 # 2))) + 1)))
              * (dt * (1 # 2)).
Proof.
  pose proof step_positive as Hdt. pose proof bound_nonneg as Hb.
  set (h := dt * (1 # 2)). assert (Hh : 0 < h) by (unfold h; lra).
  set (x := bound / h).
  assert (Hx : 0 <= x) by (unfold x; apply Qle_shift_div_l; lra).
  assert (Hfl : (0 <= Qfloor x)%Z).
  { change 0%Z with (Qfloor 0). now apply Qfloor_resp_le. }
  rewrite Z2Nat.id by lia.
  pose proof (Qlt_floor x) as Hlt.
  assert (E : bound == x * h) by (unfold x; field; lra).
  rewrite E at 1. rewrite Qplus_0_l. apply Qmult_lt_compat_r; [exact Hh|exact Hlt].
Qed.

Lemma total_time64 : Planner64.total_time kfs = Ok (t klast).
Proof.
  unfold Planner64.total_time. fold kfs in Hlast. rewrite Hlast. cbn [obind].
  pose proof last_time_positive. destruct (leb_reflect (t klast) 0); [lra|reflexivity].
Qed.

(** The loop of [sample_profile] in binary64: it ends. *)
Lemma sample_loop64_run :
  exists times pos fuel0,
    (forall fuel, (fuel0 <= fuel)%nat ->
       Planner64.sample_loop kfs fuel (t klast) dt 0 0 = Ok (times, pos)) /\
    Forall2 (interpolated profile) times pos /\
    strictly_increasing times /\
    Forall (fun x => 0 <= x <= bound) times /\
    times <> [].
Proof.
  destruct (valid_facts profile Hvalid) as [enough _]. fold kfs in enough.
  destruct (sample_loop64_ok profile Hvalid Hdoubles (t klast) dt step_positive
              step_progress _ 0%nat 0 enough (or_introl eq_refl)
              (Qle_refl 0) fuel64_enough)
    as [times [pos [E [Hall [Hinc [Hrange Hne]]]]]].
  exists times, pos, (Z.to_nat (Qfloor (bound / (dt * (1 # 2))) + 1)).
  split; [|split; [exact Hall|split; [|split; [exact Hrange|]]]].
  - intros fuel Hle.
    now apply (sample_loop64_fuel_mono profile (t klast) dt _ fuel 0%nat 0 _ Hle).
  - destruct times as [|x r]; [exact I|].
    specialize (Hinc (-1)). cbn [increasing_from] in Hinc.
    apply Hinc. reflexivity.
  - apply Hne. exact bound_nonneg.
Qed.

Lemma sample_profile64_unfold (fuel : nat) :
  Planner64.sample_profile_fuel fuel profile dt
  = ('(times, pos) <- Planner64.sample_loop kfs fuel (t klast) dt 0 0 ;;
     tl <- getlast times ;;
     if Py.ltb tl (t klast)
     then Ok (times ++ [t klast], pos ++ [pos_mm klast])
     else Ok (times, pos))%outcome.
Proof.
  unfold Planner64.sample_profile_fuel. fold kfs. rewrite total_time64. cbn [obind].
  destruct (Planner64.sample_loop kfs fuel (t klast) dt 0 0) as [[times pos]| |];
    cbn [obind]; [|reflexivity|reflexivity].
  destruct (getlast times); cbn [obind]; [|reflexivity|reflexivity].
  fold kfs in Hlast. rewrite Hlast. reflexivity.
Qed.

End SamplingResult64.
Section Planner64Claims.
Import Models Spec Binary64 Spec64.


Lemma rise_facts :
  valid Doubles.rise /\ binary64_profile Doubles.rise /\
  getlast (keyframes Doubles.rise) = Ok (Doubles.kf 1 (9 # 10)).
Proof.
  split; [exists Doubles.rise; vm_compute; reflexivity|].
  split; [|reflexivity].
  repeat constructor; vm_compute; reflexivity.
Qed.


(** In binary64 even a linear profile leaves the segment and the
    slider: [Doubles.rise] sampled every half second ends at
    0.9000000000000001 mm, above its last keyframe and its length. *)
Lemma rise_leaves_segment :
  exists times pos pl,
    (forall fuel, (3 <= fuel)%nat ->
       Planner64.sample_profile_fuel fuel Doubles.rise (1 # 2) = Ok (times, pos)) /\
    getlast pos = Ok pl /\
    pl == round (9 # 10) + 2 ^ (-53) /\
    Py.max (round (3 # 10)) (round (9 # 10)) < pl /\
    length_mm Doubles.rise < pl.
Proof.
  destruct rise_facts as [Hv [Hd Hl]].
  remember (Planner64.sample_loop (keyframes Doubles.rise) 3
              (t (Doubles.kf 1 (9 # 10))) (1 # 2) 0 0) as r eqn:E3.
  pose proof E3 as Ec. vm_compute in Ec. symmetry in E3. rewrite Ec in E3.
  match type of E3 with _ = Ok (?ts, ?ps) => exists ts, ps end.
  eexists. split; [|split; [reflexivity|]].
  - intros fuel Hle.
    rewrite (sample_profile64_unfold Doubles.rise Hv _ Hl).
    rewrite (sample_loop64_fuel_mono Doubles.rise _ _ 3 fuel 0%nat 0 _ Hle E3).
    reflexivity.
  - split; [|split]; vm_compute; reflexivity.
Qed.

(** The sample of [Cases.dip] that is off the slider is the same in
    binary64: every number of that run is a binary64 number. *)
Example binary64_dip_sampled :
  forall fuel, (3 <= fuel)%nat ->
    Planner64.sample_profile_fuel fuel Cases.dip (1 # 2)
    = Ok ([0; 1 # 2; 1], [0; -25; 100]).
Proof.
  assert (Hv : valid Cases.dip).
  { exists Cases.dip. vm_compute. reflexivity. }
  assert (Hl : getlast (keyframes Cases.dip) = Ok (nth 1 (keyframes Cases.dip) (Cases.kf 0 0))).
  { reflexivity. }
  assert (E3 : Planner64.sample_loop (keyframes Cases.dip) 3
                 (t (nth 1 (keyframes Cases.dip) (Cases.kf 0 0))) (1 # 2) 0 0
               = Ok ([0; 1 # 2; 1], [0; -25; 100])).
  { vm_compute. reflexivity. }
  intros fuel Hle.
  rewrite (sample_profile64_unfold Cases.dip Hv _ Hl).
  rewrite (sample_loop64_fuel_mono Cases.dip _ _ 3 fuel 0%nat 0 _ Hle E3).
  reflexivity.
Qed.

End Planner64Claims.
Section Planner64Shape.
Import Models Spec Binary64 Spec64.

(** C2 (code bug).  The failing run, in binary64: [Doubles.rise]
    sampled with the controller's [dt = 0.02].  The fiftieth addition of
    0.02 gives 1.0000000000000004, still within [total_t + 1e-9], so the
    loop itself emits the last sample, interpolated at progress 1 as
    [0.3 + (0.9 - 0.3) * 1.0 = 0.9000000000000001]; its time is not
    before the last keyframe, nothing is appended, and the last position
    is not the last keyframe's 0.9. *)
Theorem last_sample_misses_keyframe :
  valid Doubles.rise /\
  exists times pos tl pl,
    (forall fuel, (51 <= fuel)%nat ->
       Planner64.sample_profile_fuel fuel Doubles.rise (round (2 # 100))
       = Ok (times, pos)) /\
    List.length times = 51%nat /\ List.length pos = 51%nat /\
    getlast times = Ok tl /\ getlast pos = Ok pl /\
    tl == 1 + 2 ^ (-51) /\
    pl == round (9 # 10) + 2 ^ (-53) /\
    pl == Planner64.reach (Doubles.kf 0 (3 # 10)) (Doubles.kf 1 (9 # 10)) /\
    ~ pl == pos_mm (Doubles.kf 1 (9 # 10)).
Proof.
  destruct rise_facts as [Hv [Hd Hl]]. split; [exact Hv|].
  remember (Planner64.sample_loop (keyframes Doubles.rise) 51
              (t (Doubles.kf 1 (9 # 10))) (round (2 # 100)) 0 0) as r eqn:E.
  pose proof E as Ec. vm_compute in Ec. symmetry in E. rewrite Ec in E.
  match type of E with _ = Ok (?ts, ?ps) => exists ts, ps end.
  eexists _, _. split; [|split; [reflexivity|split; [reflexivity|]]].
  - intros fuel Hle.
    rewrite (sample_profile64_unfold Doubles.rise Hv _ Hl).
    rewrite (sample_loop64_fuel_mono Doubles.rise _ _ 51 fuel 0%nat 0 _ Hle E).
    reflexivity.
  - split; [reflexivity|]. split; [reflexivity|].
    split; [vm_compute; reflexivity|]. split; [vm_compute; reflexivity|].
    split; [vm_compute; reflexivity|]. vm_compute. discriminate.
Qed.

End Planner64Shape.
Section Planner64Extras.
Import Models Spec Binary64 Spec64.

(** X29.  What [sample_profile] returns in binary64, for a valid
    profile of binary64 numbers and a step that is not negligible against the
    duration: two lists of equal length, the times strictly increasing,
    the last time at least the last keyframe's; and the last position is
    the last keyframe's when the sample was appended, and otherwise
    where the interpolation of the last segment arrives, which is that
    keyframe only up to rounding. *)
Theorem sample_profile_binary64_shape
        (profile : MotionProfile) (klast : Keyframe) (dt : Q) :
  valid profile -> binary64_profile profile ->
  getlast (keyframes profile) = Ok klast ->
  2 ^ (-1022) <= dt -> t klast + (1 # 1000000000) <= 2 ^ 50 * dt ->
  exists times pos fuel0 tl pl,
    (forall fuel, (fuel0 <= fuel)%nat ->
       Planner64.sample_profile_fuel fuel profile dt = Ok (times, pos)) /\
    List.length times = List.length pos /\
    strictly_increasing times /\
    getlast times = Ok tl /\ getlast pos = Ok pl /\
    t klast <= tl /\
    (pl = pos_mm klast \/
     exists kprev,
       nth_error (keyframes profile) (List.length (keyframes profile) - 2)
       = Some kprev /\
       pl == Planner64.reach kprev klast /\
       Qabs (pl - pos_mm klast) <= slack (length_mm profile)).
Proof.
  intros Hv Hd Hl Hn Hs.
  destruct (sample_loop64_run profile Hv Hd klast Hl dt Hn Hs)
    as [times [pos [fuel0 [Hrun [Hall [Hinc [_ Hne]]]]]]].
  assert (Hlen : List.length times = List.length pos).
  { eapply Forall2_length; eauto. }
  assert (Hpne : pos <> []).
  { intros ->. destruct times; [congruence | discriminate]. }
  pose proof (getlast_last times 0 Hne) as Etl.
  destruct (ltb_reflect (last times 0) (t klast)) as [Hlt|Hge].
  - exists (times ++ [t klast]), (pos ++ [pos_mm klast]), fuel0,
           (t klast), (pos_mm klast).
    split.
    { intros fuel Hle. rewrite (sample_profile64_unfold profile Hv klast Hl).
      rewrite (Hrun fuel Hle). cbn [obind]. rewrite Etl. cbn [obind].
      destruct (ltb_reflect (last times 0) (t klast)); [reflexivity|contradiction]. }
    split; [rewrite !length_app, Hlen; reflexivity|].
    split.
    { destruct times as [|x r]; [congruence|].
      cbn [app strictly_increasing]. apply increasing_from_snoc; [exact Hinc|].
      destruct r as [|y r']; [exact Hlt|].
      rewrite (last_default (y :: r') x 0) by discriminate. exact Hlt. }
    split; [apply getlast_app|]. split; [apply getlast_app|].
    split; [lra|]. left. reflexivity.
  - exists times, pos, fuel0, (last times 0), (last pos 0).
    split.
    { intros fuel Hle. rewrite (sample_profile64_unfold profile Hv klast Hl).
      rewrite (Hrun fuel Hle). cbn [obind]. rewrite Etl. cbn [obind].
      destruct (ltb_reflect (last times 0) (t klast)); [contradiction|reflexivity]. }
    split; [exact Hlen|]. split; [exact Hinc|].
    split; [exact Etl|]. split; [now apply getlast_last|].
    split; [lra|]. right.
    pose proof (Forall2_last _ times pos 0 0 Hall Hne) as Hi.
    destruct Hi as [seg [k0 [k1 [v [Hk0 [Hk1 [_ [Hsel [_ [_ [_ [_ Hend]]]]]]]]]]]].
    destruct (valid_facts profile Hv) as [enough [increasing _]].
    destruct (last_keyframe profile Hv) as [kl [Hkl [El _]]].
    rewrite Hl in El. injection El as <-.
    assert (Hs1 : (S seg < List.length (keyframes profile))%nat).
    { apply nth_error_Some. congruence. }
    assert (Eseg : (S seg = List.length (keyframes profile) - 1)%nat).
    { destruct (Nat.eq_dec (S seg) (List.length (keyframes profile) - 1)) as [E|N];
        [exact E|exfalso].
      assert (H1 : last times 0 <= t k1) by (apply Hsel; lia).
      assert (H2 : t k1 < t klast).
      { apply (keyframes_increasing (keyframes profile) (S seg)
                 (List.length (keyframes profile) - 1)); auto. lia. }
      lra. }
    rewrite Eseg in Hk1. assert (k1 = klast) by congruence. subst k1.
    exists k0. split.
    { replace (List.length (keyframes profile) - 2)%nat with seg by lia. exact Hk0. }
    assert (Er : last pos 0 == Planner64.reach k0 klast) by (apply Hend; lra).
    split; [exact Er|].
    rewrite Er. unfold Planner64.reach.
    apply reach_error.
    + apply (position_inside_nth profile Hv seg); exact Hk0.
    + apply (position_inside_nth profile Hv (List.length (keyframes profile) - 1)).
      exact Hk1.
Qed.

Lemma sample_profile_binary64_shape_rise :
  valid Doubles.rise /\ binary64_profile Doubles.rise /\
  getlast (keyframes Doubles.rise) = Ok (Doubles.kf 1 (9 # 10)) /\
  2 ^ (-1022) <= round (1 # 10) /\
  t (Doubles.kf 1 (9 # 10)) + (1 # 1000000000) <= 2 ^ 50 * round (1 # 10) /\
  exists times pos fuel0 tl pl,
    (forall fuel, (fuel0 <= fuel)%nat ->
       Planner64.sample_profile_fuel fuel Doubles.rise (round (1 # 10))
       = Ok (times, pos)) /\
    List.length times = List.length pos /\
    strictly_increasing times /\
    getlast times = Ok tl /\ getlast pos = Ok pl /\
    t (Doubles.kf 1 (9 # 10)) <= tl /\
    (pl = pos_mm (Doubles.kf 1 (9 # 10)) \/
     exists kprev,
       nth_error (keyframes Doubles.rise) (List.length (keyframes Doubles.rise) - 2)
       = Some kprev /\
       pl == Planner64.reach kprev (Doubles.kf 1 (9 # 10)) /\
       Qabs (pl - pos_mm (Doubles.kf 1 (9 # 10))) <= slack (length_mm Doubles.rise)).
Proof.
  destruct rise_facts as [Hv [Hd Hl]].
  assert (Hn : 2 ^ (-1022) <= round (1 # 10))
    by (apply Qle_bool_iff; vm_compute; reflexivity).
  assert (Hs : t (Doubles.kf 1 (9 # 10)) + (1 # 1000000000)
               <= 2 ^ 50 * round (1 # 10))
    by (apply Qle_bool_iff; vm_compute; reflexivity).
  split; [exact Hv|]. split; [exact Hd|]. split; [exact Hl|].
  split; [exact Hn|]. split; [exact Hs|].
  exact (sample_profile_binary64_shape Doubles.rise (Doubles.kf 1 (9 # 10))
           (round (1 # 10)) Hv Hd Hl Hn Hs).
Defined.

End Planner64Extras.

(** ** The status report *)

Section StatusReport.
Import Controller Safety.

Lemma decimal3_error (x : Q) :
  - (1 # 2000) <= Report.decimal3 x - x <= 1 # 2000.
Proof.
  unfold Report.decimal3. pose proof (round_error (x * 1000)) as H.
  set (R := inject_Z (Py.round (x * 1000))) in *.
  assert (E : R / 1000 - x == (R - x * 1000) / 1000) by field.
  rewrite E. split.
  - apply Qle_shift_div_l; lra.
  - apply Qle_shift_div_r; lra.
Qed.

Lemma decimal3_unit (x : Q) : 0 <= x <= 1 -> 0 <= Report.decimal3 x <= 1.
Proof.
  intros Hx. unfold Report.decimal3.
  assert (H0 : (0 <= Py.round (x * 1000))%Z) by (apply round_nonneg; lra).
  assert (H1 : (Py.round (x * 1000) <= 1000)%Z).
  { pose proof (round_error (x * 1000)) as He.
    assert (Hlt : inject_Z (Py.round (x * 1000)) < inject_Z 1001).
    { change (inject_Z 1001) with 1001. lra. }
    rewrite <- Zlt_Qlt in Hlt. lia. }
  rewrite Zle_Qle in H0, H1.
  change (inject_Z 0) with 0 in H0. change (inject_Z 1000) with 1000 in H1.
  split.
  - apply Qle_shift_div_l; lra.
  - apply Qle_shift_div_r; lra.
Qed.

(** [round(x, 3)] is within half a thousandth of [x], and one rounding
    to binary64 more. *)
Lemma round3_error (x : Q) :
  Qabs (Report.round3 x - x) <= (1 # 2000) + (Qabs x + 1) / 2 ^ 53.
Proof.
  unfold Report.round3.
  pose proof (decimal3_error x) as Hd.
  pose proof (round64_error (Report.decimal3 x)) as Hr.
  unfold Binary64.half_ulp in Hr.
  set (q := Report.decimal3 x) in *. set (r := Binary64.round q) in *.
  assert (Hq : Qabs q <= Qabs x + (1 # 2000)).
  { assert (E : q == x + (q - x)) by ring. rewrite E.
    eapply Qle_trans; [apply Qabs_triangle|].
    assert (Qabs (q - x) <= 1 # 2000) by (apply Qabs_Qle_condition; lra). lra. }
  assert (Ht : 2 ^ (-1075) <= (1 # 2) * (1 # 9007199254740992)).
  { apply Qle_bool_iff. vm_compute. reflexivity. }
  unfold Qdiv in *. change (/ 2 ^ 53) with (1 # 9007199254740992) in *.
  apply Qabs_Qle_condition in Hr. apply Qabs_Qle_condition.
  pose proof (Qabs_nonneg x) as Hx.
  set (a := Qabs x) in *. set (b := Qabs q) in *. set (tau := 2 ^ (-1075)) in *.
  clearbody r q a b tau. lra.
Qed.

Lemma round3_unit (x : Q) : 0 <= x <= 1 -> 0 <= Report.round3 x <= 1.
Proof.
  intros Hx. unfold Report.round3.
  destruct (decimal3_unit x Hx) as [H0 H1]. split.
  - now apply round64_nonneg.
  - pose proof (round64_monotone _ _ H1) as H.
    assert (E : Binary64.round 1 == 1) by reflexivity. lra.
Qed.

(** Python's examples: [round(-0.0005, 3)] is [-0.001], since the float
    [-0.0005] is below the decimal; [round(0.0625, 3)] is a tie and goes
    to the even [0.062]; [round(0.3005, 3)] is the float [0.3]. *)
Example round3_examples :
  Report.round3 (Binary64.round (- (5 # 10000))) == Binary64.round (- (1 # 1000)) /\
  Report.round3 (Binary64.round (625 # 10000)) == Binary64.round (62 # 1000) /\
  Report.round3 (Binary64.round (3005 # 10000)) == Binary64.round (3 # 10).
Proof. split; [|split]; vm_compute; reflexivity. Qed.

(** X28.  [get_status] reports the state as it is: [status], [homed] and
    [error] unchanged, the position and the progress rounded to three
    decimals, so within 0.0005 of their values up to one rounding to
    binary64; and a progress in [[0, 1]] is reported as a number in
    [[0, 1]]. *)
Theorem status_report_is_close (w : World) :
  Report.status (Report.get_status w) = status w /\
  Report.homed (Report.get_status w) = homed w /\
  Report.error (Report.get_status w) = error w /\
  Py.abs (Report.pos_mm (Report.get_status w) - current_pos_mm w)
  <= (1 # 2000) + (Py.abs (current_pos_mm w) + 1) / 2 ^ 53 /\
  Py.abs (Report.progress (Report.get_status w) - progress w)
  <= (1 # 2000) + (Py.abs (progress w) + 1) / 2 ^ 53 /\
  (progress_in_unit w -> 0 <= Report.progress (Report.get_status w) <= 1).
Proof.
  cbn [Report.get_status Report.status Report.homed Report.error Report.pos_mm
       Report.progress].
  split; [reflexivity|]. split; [reflexivity|]. split; [reflexivity|].
  split; [|split].
  - unfold Py.abs. apply round3_error.
  - unfold Py.abs. apply round3_error.
  - intros H. apply round3_unit, H.
Qed.

End StatusReport.
